(** * bitwarden_bulk_delete.go: a shallow embedding and its properties

    The program drives the Bitwarden command line client [bw]: it lists the
    items of the vault, asks for one confirmation, and deletes the items
    through a pool of worker goroutines fed by a channel.

    Layout of the development:
    - [GoInt], [GoSync], [GoExec], [GoFmt], [GoStrings], [Shell]: the parts
      of the Go runtime and of the platform the program calls ([int]
      arithmetic, the counter of [sync.WaitGroup], [os/exec], [fmt.Scanln],
      [strings.ToLower], [sh -c]);
    - [Chan]: buffered channels;
    - the program itself, function by function, with the goroutines of
      [processItems] as a small-step machine driven by a schedule;
    - the properties. *)

From Stdlib Require Import String Ascii ZArith List Bool Lia Permutation.
From Stdlib Require Import DecimalString.
Import ListNotations.

Set Implicit Arguments.

Local Open Scope Z_scope.

(** ** Go's [int] (64 bits, two's complement) *)

Module GoInt.

Definition max_int : Z := 2 ^ 63 - 1.
Definition min_int : Z := - 2 ^ 63.

(** Signed overflow wraps around in Go. *)
Definition wrap (z : Z) : Z := (z + 2 ^ 63) mod 2 ^ 64 - 2 ^ 63.

(** [x++] *)
Definition incr (x : Z) : Z := wrap (x + 1).

Definition in_range (z : Z) : Prop := min_int <= z <= max_int.

(** [%d] *)
Definition itoa (z : Z) : string := NilZero.string_of_int (Z.to_int z).

End GoInt.

(** ** [sync.WaitGroup]: the counter *)

Module GoSync.

(** The counter is an [int32], the high half of the 64-bit state word. *)
Definition max_counter : Z := 2 ^ 31 - 1.

Definition wrap32 (z : Z) : Z := (z + 2 ^ 31) mod 2 ^ 32 - 2 ^ 31.

(** [wg.Add(delta)] on a counter [v]: the new counter, or [None] for the
    panic "sync: negative WaitGroup counter".  The sum is taken in 32 bits,
    so one [Add(1)] too many wraps around to a negative counter and panics
    as well.  [wg.Done()] is [wg.Add(-1)].  The other panic of [Add], for an
    [Add] that races with [Wait], needs a waiter: [processItems] calls
    [wg.Wait] only after its last [Add]. *)
Definition Add (v delta : Z) : option Z :=
  let v' := wrap32 (v + delta) in
  if v' <? 0 then None else Some v'.

End GoSync.

(** ** [os/exec]: what a finished subprocess looks like to its parent *)

Module GoExec.

(** The outcome of spawning one command and waiting for it.  [combined] is
    the interleaving of both streams as a single pipe would have seen it. *)
Inductive Process : Type :=
| NotStarted (reason : string)
| Exited (code : Z) (stdout stderr combined : string).

(** The [error] values of the package: a start failure, or [*ExitError]
    with the [Stderr] field that only [Output] fills in. *)
Inductive exec_error : Type :=
| StartError (reason : string)
| ExitError (code : Z) (Stderr : string).

(** [%v] of such an error. *)
Definition Error (e : exec_error) : string :=
  match e with
  | StartError reason => reason
  | ExitError code _ => ("exit status " ++ GoInt.itoa code)%string
  end.

(** [cmd.Run()]: stdout and stderr of the child are not set, so both go to
    the null device; only the error comes back. *)
Definition Run (p : Process) : option exec_error :=
  match p with
  | NotStarted reason => Some (StartError reason)
  | Exited code _ _ _ => if code =? 0 then None else Some (ExitError code EmptyString)
  end.

(** [cmd.Output()]: standard output only; standard error is kept inside the
    [*ExitError] when the command fails. *)
Definition Output (p : Process) : string * option exec_error :=
  match p with
  | NotStarted reason => (EmptyString, Some (StartError reason))
  | Exited code out err _ =>
      (out, if code =? 0 then None else Some (ExitError code err))
  end.

(** [cmd.CombinedOutput()]: both streams through one buffer. *)
Definition CombinedOutput (p : Process) : string * option exec_error :=
  match p with
  | NotStarted reason => (EmptyString, Some (StartError reason))
  | Exited code _ _ both =>
      (both, if code =? 0 then None else Some (ExitError code EmptyString))
  end.

(** What the child wrote, on either stream. *)
Definition wrote (p : Process) : string :=
  match p with
  | NotStarted _ => EmptyString
  | Exited _ _ _ both => both
  end.

End GoExec.

(** ** [fmt.Scanln] into one [*string], and [strings.ToLower] *)

Definition rune : Type := Z.

Module GoFmt.

(** [isSpace] of fmt/scan.go, the table [space] written out. *)
Definition isSpace (r : rune) : bool :=
  ((0x0009 <=? r) && (r <=? 0x000d))
  || (r =? 0x0020) || (r =? 0x0085) || (r =? 0x00a0) || (r =? 0x1680)
  || ((0x2000 <=? r) && (r <=? 0x200a))
  || (r =? 0x2028) || (r =? 0x2029) || (r =? 0x202f) || (r =? 0x205f)
  || (r =? 0x3000).

Definition newline : rune := 10.

Inductive scan_error : Type :=
| EOF
| UnexpectedNewline
| ExpectedNewline.

Definition scan_error_text (e : scan_error) : string :=
  match e with
  | EOF => "EOF"%string
  | UnexpectedNewline => "unexpected newline"%string
  | ExpectedNewline => "expected newline"%string
  end.

(** [ss.SkipSpace] with [nlIsSpace = false]: a newline before the first
    operand is an error; the result is the input from the first rune that
    is not a space (empty at end of input). *)
Fixpoint SkipSpace (input : list rune) : scan_error + list rune :=
  match input with
  | [] => inr []
  | r :: rest =>
      if r =? newline then inl UnexpectedNewline
      else if isSpace r then SkipSpace rest
      else inr input
  end.

(** [ss.token(true, notSpace)]: the longest prefix without a space. *)
Fixpoint token (input : list rune) : list rune * list rune :=
  match input with
  | [] => ([], [])
  | r :: rest =>
      if isSpace r then ([], input)
      else let (word, rest') := token rest in (r :: word, rest')
  end.

(** The loop at the end of [doScan] when [nlIsEnd] holds: after the last
    operand only spaces may come before the newline or the end of input. *)
Fixpoint expectNewline (input : list rune) : option scan_error :=
  match input with
  | [] => None
  | r :: rest =>
      if r =? newline then None
      else if isSpace r then expectNewline rest
      else Some ExpectedNewline
  end.

(** [fmt.Scanln(&s)] for a single string operand. *)
Definition Scanln (input : list rune) : scan_error + list rune :=
  match SkipSpace input with
  | inl e => inl e
  | inr [] => inl EOF
  | inr rest =>
      let (word, rest') := token rest in
      match expectNewline rest' with
      | Some e => inl e
      | None => inr word
      end
  end.

End GoFmt.

Module GoStrings.

(** [unicode.ToLower]: the ASCII letters by arithmetic, every other rune
    through the case tables of the Unicode database, a parameter here. *)
Definition ToLowerRune (tables : rune -> rune) (r : rune) : rune :=
  if r <=? 0x7f then
    if (0x41 <=? r) && (r <=? 0x5a) then r + 0x20 else r
  else tables r.

(** [strings.ToLower] *)
Definition ToLower (tables : rune -> rune) (s : list rune) : list rune :=
  map (ToLowerRune tables) s.

Fixpoint rune_eqb (a b : list rune) : bool :=
  match a, b with
  | [], [] => true
  | x :: a', y :: b' => (x =? y) && rune_eqb a' b'
  | _, _ => false
  end.

(** The runes of an ASCII literal. *)
Fixpoint runes (s : string) : list rune :=
  match s with
  | EmptyString => []
  | String c s' => Z.of_nat (nat_of_ascii c) :: runes s'
  end.

End GoStrings.

(** ** [sh -c]: how the shell splits a script into the words of a command

    Only what the list command needs: blanks separate words, and between two
    single quotes every character stands for itself.  A quote that is never
    closed is a syntax error and the shell runs nothing. *)

Module Shell.

Local Open Scope string_scope.

Definition is_blank (c : ascii) : bool :=
  (Ascii.eqb c " ") || (Ascii.eqb c "009").

Definition is_quote (c : ascii) : bool := Ascii.eqb c "'".

Definition flush (started : bool) (cur : string) (k : list string) : list string :=
  if started then cur :: k else k.

(** [words_from quoted started cur s]: [cur] is the word being built
    (reversed), [started] tells whether a word is open (an empty pair of
    quotes opens one), [quoted] whether a single quote is open. *)
Fixpoint words_from (quoted started : bool) (cur : string) (s : string)
  : option (list string) :=
  match s with
  | EmptyString =>
      if quoted then None else Some (flush started cur [])
  | String c s' =>
      if quoted then
        if is_quote c then words_from false true cur s'
        else words_from true true (cur ++ String c EmptyString) s'
      else if is_quote c then words_from true true cur s'
      else if is_blank c then
        option_map (flush started cur) (words_from false false EmptyString s')
      else words_from false true (cur ++ String c EmptyString) s'
  end.

Definition words (script : string) : option (list string) :=
  words_from false false EmptyString script.

End Shell.

(** ** Buffered channels of strings

    A send waits while the buffer is full and panics on a closed channel; a
    receive waits while the buffer is empty and the channel open.  A channel
    of capacity zero hands values over by rendezvous, which a buffer does not
    describe: [processItems] makes its channels with capacity [total], the
    number of values ever sent on each, so that capacity zero means nothing
    is sent. *)

Module Chan.

Record t : Type := make { buf : list string; cap : nat; closed : bool }.

Inductive sent : Type :=
| Sent (c : t)
| SendBlocks
| SendPanics.                (* send on a closed channel *)

Inductive received : Type :=
| Received (v : string) (c : t)
| RecvBlocks
| RecvClosed.                (* closed and drained: a [range] loop ends *)

Definition send (c : t) (v : string) : sent :=
  if closed c then SendPanics
  else if (length (buf c) <? cap c)%nat
       then Sent (make (buf c ++ [v]) (cap c) false)
       else SendBlocks.

Definition recv (c : t) : received :=
  match buf c with
  | v :: rest => Received v (make rest (cap c) (closed c))
  | [] => if closed c then RecvClosed else RecvBlocks
  end.

Definition close (c : t) : t := make (buf c) (cap c) true.

End Chan.

(** ** The program: data *)

Record BitwardenItem : Type := { ID : string; Name : string }.

Record CommandOptions : Type :=
  { searchTerm : string; batchSize : Z; isPermanent : bool }.

Record DeleteStats : Type := { total : Z; completed : Z }.

(** What a run does to the outside world, in the order it happens.  The
    three channel events are not visible outside the process; they record
    which value went through which end of [jobs] and [results]. *)
Inductive event : Type :=
| Print (text : string)
| Exec (argv : list string)
| Deliver (worker : Z) (itemID : string)
| Emit (worker : Z) (itemID : string)
| Observe (itemID : string).

(** The errors [runBulkDelete] returns. *)
Inductive run_error : Type :=
| CLINotFound (cause : string)
| ListCommandFailed (cause : GoExec.exec_error)
| ListParseFailed (cause : string).

(** ** The program: what it prints *)

Module Msg.

Local Open Scope string_scope.

Definition emojiError := "❌".
Definition emojiSuccess := "✅".
Definition emojiSync := "🔄".
Definition emojiSearch := "🔍".
Definition emojiWarning := "⚠️".
Definition emojiInfo := "ℹ️".
Definition emojiStart := "🚀".
Definition emojiProgress := "⏳".
Definition emojiComplete := "🎉".

Definition nl : string := String "010" EmptyString.
Definition cr : string := String "013" EmptyString.

Definition error_text (e : run_error) : string :=
  match e with
  | CLINotFound cause =>
      "Bitwarden CLI (bw) not found in PATH. Please install it first: " ++ cause
  | ListCommandFailed cause =>
      "error executing list command: " ++ GoExec.Error cause
  | ListParseFailed cause =>
      "error parsing list output: " ++ cause
  end.

Definition fatal (e : run_error) : string :=
  emojiError ++ " Error: " ++ error_text e ++ nl.

Definition initial_sync_failed : string :=
  emojiWarning ++ " Warning: Initial sync failed but continuing" ++ nl.
Definition final_sync_failed : string :=
  emojiWarning ++ " Warning: Final sync failed" ++ nl.
Definition cancelled : string :=
  emojiError ++ " Operation cancelled" ++ nl.

Definition syncing (contextMsg : string) : string :=
  emojiSync ++ " Syncing Bitwarden database" ++ contextMsg ++ "..." ++ nl.
Definition sync_failed (e : GoExec.exec_error) : string :=
  emojiError ++ " Failed to sync Bitwarden: " ++ GoExec.Error e ++ nl.
Definition command_output (emoji out : string) : string :=
  emoji ++ " Command output: " ++ out ++ nl.
Definition sync_ok : string :=
  emojiSuccess ++ " Sync completed successfully" ++ nl.

Definition fetching : string :=
  emojiSearch ++ " Fetching Bitwarden items..." ++ nl.

Definition mode (permanent : bool) : string :=
  if permanent
  then emojiWarning ++ " Mode: Permanent deletion (items will bypass trash)" ++ nl
  else emojiInfo ++ " Mode: Standard deletion (items will go to trash)" ++ nl.

Definition found (n : Z) : string :=
  emojiSearch ++ " Found " ++ GoInt.itoa n ++ " items to delete" ++ nl.

Definition prompt (permanent : bool) (n : Z) : string :=
  let confirmMsg :=
    if permanent then "Are you sure you want to PERMANENTLY delete all"
    else "Are you sure you want to delete all" in
  emojiWarning ++ " " ++ confirmMsg ++ " " ++ GoInt.itoa n ++ " items? (y/N) ".

Definition read_error (e : GoFmt.scan_error) : string :=
  emojiError ++ " Error reading confirmation: " ++ GoFmt.scan_error_text e ++ nl.

Definition starting : string :=
  emojiStart ++ " Starting deletion process..." ++ nl.

Definition delete_error (itemID : string) (e : GoExec.exec_error) : string :=
  emojiError ++ " Error deleting item " ++ itemID ++ ": " ++ GoExec.Error e ++ nl.

Definition progress (done all : Z) : string :=
  emojiProgress ++ " Progress: [" ++ GoInt.itoa done ++ "/" ++ GoInt.itoa all ++ "]" ++ cr.

Definition complete (permanent : bool) (n : Z) : string :=
  if permanent
  then emojiComplete ++ " All " ++ GoInt.itoa n ++ " items have been permanently deleted!" ++ nl
  else emojiComplete ++ " All " ++ GoInt.itoa n ++ " items have been moved to trash!" ++ nl.

End Msg.

(** ** The program: the sequential functions *)

(** Everything outside the process that a run depends on. *)
Record Env : Type :=
  { lookPath_bw : option string;               (* the error of exec.LookPath("bw") *)
    bw_sync_before : GoExec.Process;           (* the first  [bw sync] *)
    bw_sync_after : GoExec.Process;            (* the second [bw sync] *)
    sh_c : string -> GoExec.Process;           (* [sh -c script] *)
    json_Unmarshal : string -> list BitwardenItem + string;
                                               (* the decoder: the items or its error *)
    stdin : list rune;                         (* what is typed, decoded to runes *)
    unicode_tables : rune -> rune }.           (* lower case outside ASCII *)

(** Command line flags as [flag.Parse] left them. *)
Record Flags : Type :=
  { flag_search : string; flag_s : string;
    flag_batch : Z; flag_b : Z;
    flag_permanent : bool; flag_p : bool }.

Definition parseCommandLineOptions (f : Flags) : CommandOptions :=
  let searchTerm0 := flag_search f in
  let searchTerm1 :=
    if String.eqb searchTerm0 EmptyString && negb (String.eqb (flag_s f) EmptyString)
    then flag_s f else searchTerm0 in
  let batchSize0 := flag_batch f in
  let batchSize1 :=
    if (flag_batch f =? 1) && negb (flag_b f =? 1) then flag_b f else batchSize0 in
  {| searchTerm := searchTerm1;
     batchSize := batchSize1;
     isPermanent := flag_permanent f || flag_p f |}.

Definition checkBitwardenCLI (env : Env) : option run_error :=
  match lookPath_bw env with
  | Some err => Some (CLINotFound err)
  | None => None
  end.

Definition bw_sync_argv : list string := ["bw"; "sync"]%string.

Definition syncBitwarden (bw_sync : GoExec.Process) (context : string)
  : option GoExec.exec_error * list event :=
  let contextMsg :=
    if String.eqb context EmptyString then EmptyString else (" " ++ context)%string in
  let (syncOutput, err) := GoExec.CombinedOutput bw_sync in
  match err with
  | Some e =>
      (Some e,
       [Print (Msg.syncing contextMsg); Exec bw_sync_argv;
        Print (Msg.sync_failed e);
        Print (Msg.command_output Msg.emojiError syncOutput)])
  | None =>
      (None,
       [Print (Msg.syncing contextMsg); Exec bw_sync_argv;
        Print Msg.sync_ok;
        Print (Msg.command_output Msg.emojiSuccess syncOutput)])
  end.

(** The script handed to [sh -c]. *)
Definition listCmd (searchTerm : string) : string :=
  if String.eqb searchTerm EmptyString then "bw list items"%string
  else ("bw list items" ++ (" --search '" ++ searchTerm ++ "'"))%string.

Definition list_argv (searchTerm : string) : list string :=
  ["sh"; "-c"; listCmd searchTerm]%string.

Definition fetchBitwardenItems (env : Env) (searchTerm : string)
  : (list BitwardenItem + run_error) * list event :=
  let (listOutput, err) := GoExec.Output (sh_c env (listCmd searchTerm)) in
  match err with
  | Some e =>
      (inr (ListCommandFailed e),
       [Print Msg.fetching; Exec (list_argv searchTerm)])
  | None =>
      match json_Unmarshal env listOutput with
      | inr e =>
          (inr (ListParseFailed e),
           [Print Msg.fetching; Exec (list_argv searchTerm)])
      | inl items =>
          (inl items, [Print Msg.fetching; Exec (list_argv searchTerm)])
      end
  end.

Definition displayDeletionMode (options : CommandOptions) : list event :=
  [Print (Msg.mode (isPermanent options))].

Definition displayItemCount (stats : DeleteStats) : list event :=
  [Print (Msg.found (total stats))].

Definition confirmDeletion (env : Env) (stats : DeleteStats) (options : CommandOptions)
  : bool * list event :=
  let asked := Print (Msg.prompt (isPermanent options) (total stats)) in
  match GoFmt.Scanln (stdin env) with
  | inl err => (false, [asked; Print (Msg.read_error err)])
  | inr confirm0 =>
      let confirm := GoStrings.ToLower (unicode_tables env) confirm0 in
      (GoStrings.rune_eqb confirm (GoStrings.runes "y")
       || GoStrings.rune_eqb confirm (GoStrings.runes "yes"),
       [asked])
  end.

Definition showCompletionMessage (stats : DeleteStats) (options : CommandOptions)
  : list event :=
  [Print (Msg.complete (isPermanent options) (total stats))].

(** ** The program: [processItems] and its goroutines

    [processItems] runs three kinds of goroutines: itself (it fills [jobs]
    and then becomes the consumer loop of [processResults]), one
    [deleteWorker] per pass of the spawn loop, and the anonymous function
    that waits for the workers and closes [results].  Each is a small
    automaton; one step of the whole is one step of one of them, picked by
    the scheduler.  A goroutine that waits on a channel or on the wait group
    has no step. *)

(** Where the goroutine of [processItems] stands. *)
Inductive main_pc : Type :=
| MStart                              (* before the Printf and the two makes *)
| MSpawn (w : Z)                      (* at the test [w <= options.batchSize] *)
| MSend (rest : list BitwardenItem)   (* in [for _, item := range items] *)
| MGo                                 (* jobs closed; before [go func() {...}()] *)
| MRange                              (* processResults: [for range results] *)
| MShow                               (* after fmt.Println() *)
| MReturn.                            (* [return nil] *)

(** Where one [deleteWorker] stands. *)
Inductive worker_pc : Type :=
| WRange                              (* at [for itemID := range jobs] *)
| WExec (itemID : string)             (* before deleteCmd.Run() *)
| WSend (itemID : string)             (* before [results <- itemID] *)
| WDone.                              (* after the deferred wg.Done() *)

Record worker : Type := { wid : Z; wpc : worker_pc }.

(** Where the closing goroutine stands. *)
Inductive closer_pc : Type :=
| CNone                               (* not started *)
| CWait                               (* in wg.Wait() *)
| CClose                              (* before close(results) *)
| CDone.

Record state : Type :=
  { pc : main_pc;
    jobs : Chan.t;
    results : Chan.t;
    workers : list worker;
    wg : Z;                           (* the counter of the WaitGroup *)
    closer : closer_pc;
    stats : DeleteStats;
    trace : list event;
    panicked : bool }.

(** One scheduling decision.  A worker about to run its delete command is
    given what that subprocess does. *)
Inductive choice : Type :=
| RunMain
| RunCloser
| RunWorker (i : nat) (p : GoExec.Process).

Definition set_pc (p : main_pc) (s : state) : state :=
  {| pc := p; jobs := jobs s; results := results s; workers := workers s;
     wg := wg s; closer := closer s; stats := stats s; trace := trace s;
     panicked := panicked s |}.

Definition set_jobs (c : Chan.t) (s : state) : state :=
  {| pc := pc s; jobs := c; results := results s; workers := workers s;
     wg := wg s; closer := closer s; stats := stats s; trace := trace s;
     panicked := panicked s |}.

Definition set_results (c : Chan.t) (s : state) : state :=
  {| pc := pc s; jobs := jobs s; results := c; workers := workers s;
     wg := wg s; closer := closer s; stats := stats s; trace := trace s;
     panicked := panicked s |}.

Definition set_workers (ws : list worker) (s : state) : state :=
  {| pc := pc s; jobs := jobs s; results := results s; workers := ws;
     wg := wg s; closer := closer s; stats := stats s; trace := trace s;
     panicked := panicked s |}.

Definition set_wg (n : Z) (s : state) : state :=
  {| pc := pc s; jobs := jobs s; results := results s; workers := workers s;
     wg := n; closer := closer s; stats := stats s; trace := trace s;
     panicked := panicked s |}.

Definition set_closer (c : closer_pc) (s : state) : state :=
  {| pc := pc s; jobs := jobs s; results := results s; workers := workers s;
     wg := wg s; closer := c; stats := stats s; trace := trace s;
     panicked := panicked s |}.

Definition set_stats (st : DeleteStats) (s : state) : state :=
  {| pc := pc s; jobs := jobs s; results := results s; workers := workers s;
     wg := wg s; closer := closer s; stats := st; trace := trace s;
     panicked := panicked s |}.

Definition emit (evs : list event) (s : state) : state :=
  {| pc := pc s; jobs := jobs s; results := results s; workers := workers s;
     wg := wg s; closer := closer s; stats := stats s; trace := trace s ++ evs;
     panicked := panicked s |}.

Definition panic (s : state) : state :=
  {| pc := pc s; jobs := jobs s; results := results s; workers := workers s;
     wg := wg s; closer := closer s; stats := stats s; trace := trace s;
     panicked := true |}.

(** Replace the element at position [i]. *)
Fixpoint update (A : Type) (i : nat) (x : A) (l : list A) : list A :=
  match l, i with
  | [], _ => []
  | _ :: l', O => x :: l'
  | y :: l', S i' => y :: update i' x l'
  end.

Definition set_worker (i : nat) (w : worker) (p : worker_pc) (s : state) : state :=
  set_workers (update i {| wid := wid w; wpc := p |} (workers s)) s.

Definition delete_argv (itemID : string) (isPermanent : bool) : list string :=
  if isPermanent
  then ["bw"; "delete"; "item"; itemID; "--permanent"]%string
  else ["bw"; "delete"; "item"; itemID]%string.

(** [stats.completed++] *)
Definition count_one (st : DeleteStats) : DeleteStats :=
  {| total := total st; completed := GoInt.incr (completed st) |}.

Definition main_step (items : list BitwardenItem) (options : CommandOptions)
  (s : state) : option state :=
  match pc s with
  | MStart =>
      if total (stats s) <? 0 then Some (panic (emit [Print Msg.starting] s))
      else
        let size := Z.to_nat (total (stats s)) in
        Some (set_pc (MSpawn 1)
                (set_results (Chan.make [] size false)
                   (set_jobs (Chan.make [] size false)
                      (emit [Print Msg.starting] s))))
  | MSpawn w =>
      if w <=? batchSize options then
        match GoSync.Add (wg s) 1 with
        | None => Some (panic s)
        | Some v =>
            Some (set_pc (MSpawn (GoInt.incr w))
                    (set_workers (workers s ++ [{| wid := w; wpc := WRange |}])
                       (set_wg v s)))
        end
      else Some (set_pc (MSend items) s)
  | MSend (item :: rest) =>
      match Chan.send (jobs s) (ID item) with
      | Chan.Sent c => Some (set_pc (MSend rest) (set_jobs c s))
      | Chan.SendBlocks => None
      | Chan.SendPanics => Some (panic s)
      end
  | MSend [] =>
      if Chan.closed (jobs s) then Some (panic s)
      else Some (set_pc MGo (set_jobs (Chan.close (jobs s)) s))
  | MGo => Some (set_pc MRange (set_closer CWait s))
  | MRange =>
      match Chan.recv (results s) with
      | Chan.Received v c =>
          let st := count_one (stats s) in
          Some (emit [Observe v; Print (Msg.progress (completed st) (total st))]
                  (set_stats st (set_results c s)))
      | Chan.RecvBlocks => None
      | Chan.RecvClosed => Some (set_pc MShow (emit [Print Msg.nl] s))
      end
  | MShow =>
      Some (set_pc MReturn (emit (showCompletionMessage (stats s) options) s))
  | MReturn => None
  end.

Definition worker_step (options : CommandOptions) (i : nat) (p : GoExec.Process)
  (s : state) : option state :=
  match nth_error (workers s) i with
  | None => None
  | Some w =>
      match wpc w with
      | WRange =>
          match Chan.recv (jobs s) with
          | Chan.Received itemID c =>
              Some (emit [Deliver (wid w) itemID]
                      (set_worker i w (WExec itemID) (set_jobs c s)))
          | Chan.RecvBlocks => None
          | Chan.RecvClosed =>
              match GoSync.Add (wg s) (-1) with
              | None => Some (panic s)
              | Some v => Some (set_worker i w WDone (set_wg v s))
              end
          end
      | WExec itemID =>
          let argv := delete_argv itemID (isPermanent options) in
          match GoExec.Run p with
          | Some err =>
              Some (emit [Exec argv; Print (Msg.delete_error itemID err)]
                      (set_worker i w (WSend itemID) s))
          | None =>
              Some (emit [Exec argv] (set_worker i w (WSend itemID) s))
          end
      | WSend itemID =>
          match Chan.send (results s) itemID with
          | Chan.Sent c =>
              Some (emit [Emit (wid w) itemID]
                      (set_worker i w WRange (set_results c s)))
          | Chan.SendBlocks => None
          | Chan.SendPanics => Some (panic s)
          end
      | WDone => None
      end
  end.

Definition closer_step (s : state) : option state :=
  match closer s with
  | CNone => None
  | CWait => if wg s =? 0 then Some (set_closer CClose s) else None
  | CClose =>
      if Chan.closed (results s) then Some (panic s)
      else Some (set_closer CDone (set_results (Chan.close (results s)) s))
  | CDone => None
  end.

(** One step of the whole; a panic in any goroutine stops the process. *)
Definition step (items : list BitwardenItem) (options : CommandOptions)
  (c : choice) (s : state) : option state :=
  if panicked s then None
  else match c with
       | RunMain => main_step items options s
       | RunCloser => closer_step s
       | RunWorker i p => worker_step options i p s
       end.

(** A schedule is run step by step; it is rejected when it picks a
    goroutine that cannot move. *)
Fixpoint exec (items : list BitwardenItem) (options : CommandOptions)
  (sched : list choice) (s : state) : option state :=
  match sched with
  | [] => Some s
  | c :: sched' =>
      match step items options c s with
      | Some s' => exec items options sched' s'
      | None => None
      end
  end.

Definition empty_chan : Chan.t := Chan.make [] 0 false.

(** The state at the call [processItems(items, stats, options)]. *)
Definition processItems_init (st : DeleteStats) : state :=
  {| pc := MStart; jobs := empty_chan; results := empty_chan; workers := [];
     wg := 0; closer := CNone; stats := st; trace := []; panicked := false |}.

(** How a call ends under a given schedule. *)
Inductive outcome (A : Type) : Type :=
| Finished (a : A)
| Crashed            (* a goroutine panicked *)
| Unfinished.        (* the schedule is rejected or stops before the return *)
Arguments Crashed {A}.
Arguments Unfinished {A}.

Definition processItems (items : list BitwardenItem) (st : DeleteStats)
  (options : CommandOptions) (sched : list choice)
  : outcome (option run_error * DeleteStats * list event) :=
  match exec items options sched (processItems_init st) with
  | None => Unfinished
  | Some s =>
      if panicked s then Crashed
      else match pc s with
           | MReturn => Finished (None, stats s, trace s)
           | _ => Unfinished
           end
  end.

(** ** The program: [runBulkDelete] and [main] *)

Record run : Type :=
  { returned : option run_error;        (* the error of runBulkDelete *)
    final_stats : option DeleteStats;   (* [*stats] at the return, once made *)
    events : list event }.

Definition runBulkDelete (env : Env) (options : CommandOptions)
  (sched : list choice) : outcome run :=
  match checkBitwardenCLI env with
  | Some err =>
      Finished {| returned := Some err; final_stats := None; events := [] |}
  | None =>
      let t1 := displayDeletionMode options in
      let (err1, t2) := syncBitwarden (bw_sync_before env) "before starting" in
      let t3 := match err1 with
                | Some _ => [Print Msg.initial_sync_failed]
                | None => []
                end in
      let (fetched, t4) := fetchBitwardenItems env (searchTerm options) in
      match fetched with
      | inr err =>
          Finished {| returned := Some err; final_stats := None;
                      events := t1 ++ t2 ++ t3 ++ t4 |}
      | inl items =>
          let stats0 := {| total := Z.of_nat (length items); completed := 0 |} in
          let t5 := displayItemCount stats0 in
          if total stats0 >? 0 then
            let (confirmed, t6) := confirmDeletion env stats0 options in
            if negb confirmed then
              Finished {| returned := None; final_stats := Some stats0;
                          events := t1 ++ t2 ++ t3 ++ t4 ++ t5 ++ t6
                                    ++ [Print Msg.cancelled] |}
            else
              match processItems items stats0 options sched with
              | Unfinished => Unfinished
              | Crashed => Crashed
              | Finished (Some err, stats1, t7) =>
                  Finished {| returned := Some err; final_stats := Some stats1;
                              events := t1 ++ t2 ++ t3 ++ t4 ++ t5 ++ t6 ++ t7 |}
              | Finished (None, stats1, t7) =>
                  let (err2, t8) := syncBitwarden (bw_sync_after env) EmptyString in
                  let t9 := match err2 with
                            | Some _ => [Print Msg.final_sync_failed]
                            | None => []
                            end in
                  Finished {| returned := None; final_stats := Some stats1;
                              events := t1 ++ t2 ++ t3 ++ t4 ++ t5 ++ t6 ++ t7
                                        ++ t8 ++ t9 |}
              end
          else
            Finished {| returned := None; final_stats := Some stats0;
                        events := t1 ++ t2 ++ t3 ++ t4 ++ t5 |}
      end
  end.

(** [main]: the exit status of the process and what it did. *)
Definition main (env : Env) (flags : Flags) (sched : list choice)
  : outcome (Z * run) :=
  let options := parseCommandLineOptions flags in
  match runBulkDelete env options sched with
  | Unfinished => Unfinished
  | Crashed => Crashed
  | Finished r =>
      match returned r with
      | Some err =>
          Finished (1, {| returned := returned r; final_stats := final_stats r;
                          events := events r ++ [Print (Msg.fatal err)] |})
      | None => Finished (0, r)
      end
  end.

(** ** Bookkeeping for the proofs *)

(** The identifiers that went through each end of the two channels, and the
    delete commands that were run, read off the trace. *)
Definition delivered (t : list event) : list string :=
  flat_map (fun e => match e with Deliver _ itemID => [itemID] | _ => [] end) t.

Definition emitted (t : list event) : list string :=
  flat_map (fun e => match e with Emit _ itemID => [itemID] | _ => [] end) t.

Definition observed (t : list event) : list string :=
  flat_map (fun e => match e with Observe itemID => [itemID] | _ => [] end) t.

Definition commands (t : list event) : list (list string) :=
  flat_map (fun e => match e with Exec argv => [argv] | _ => [] end) t.

(** The identifier in a delete command: [argv[3]]. *)
Definition executed (t : list event) : list string :=
  map (fun argv => nth 3 argv EmptyString) (commands t).

Definition printed (t : list event) : list string :=
  flat_map (fun e => match e with Print text => [text] | _ => [] end) t.

(** The identifiers held by the workers between two channel operations. *)
Definition in_exec (w : worker) : list string :=
  match wpc w with WExec itemID => [itemID] | _ => [] end.

Definition in_send (w : worker) : list string :=
  match wpc w with WSend itemID => [itemID] | _ => [] end.

Definition is_done (w : worker) : bool :=
  match wpc w with WDone => true | _ => false end.

Definition live (ws : list worker) : nat :=
  length (filter (fun w => negb (is_done w)) ws).

Definition finished (ws : list worker) : nat :=
  length (filter is_done ws).

(** The identifiers [processItems] still has to put into [jobs]. *)
Definition pending (items : list BitwardenItem) (p : main_pc) : list string :=
  match p with
  | MStart | MSpawn _ => map ID items
  | MSend rest => map ID rest
  | MGo | MRange | MShow | MReturn => []
  end.

Definition jobs_closed_at (p : main_pc) : bool :=
  match p with
  | MStart | MSpawn _ | MSend _ => false
  | MGo | MRange | MShow | MReturn => true
  end.

Definition closer_started_at (p : main_pc) : bool :=
  match p with
  | MStart | MSpawn _ | MSend _ | MGo => false
  | MRange | MShow | MReturn => true
  end.

Definition spawning_over (p : main_pc) : bool :=
  match p with
  | MStart | MSpawn _ => false
  | _ => true
  end.

Definition closer_started (c : closer_pc) : bool :=
  match c with CNone => false | _ => true end.

Definition closer_done (c : closer_pc) : bool :=
  match c with CDone => true | _ => false end.

Definition is_delete (isPermanent : bool) (e : event) : Prop :=
  match e with
  | Exec argv => argv = delete_argv (nth 3 argv EmptyString) isPermanent
  | _ => True
  end.

(** The invariant of [processItems] called with [total = len(items)] and
    [completed = 0]: every identifier is in exactly one place, the counter
    counts what the consumer saw, the flags of the channels follow the
    program counters, and the only panic is the one of [wg.Add] at the
    2^31-th pass of the spawn loop. *)
Record Inv (items : list BitwardenItem) (options : CommandOptions) (s : state)
  : Prop :=
  { inv_panicked :
      panicked s = true ->
      GoSync.max_counter < batchSize options
      /\ pc s = MSpawn (GoSync.max_counter + 1);
    inv_total : total (stats s) = Z.of_nat (length items);
    inv_completed : completed (stats s) = Z.of_nat (length (observed (trace s)));
    inv_start :
      pc s = MStart ->
      s = processItems_init
            {| total := Z.of_nat (length items); completed := 0 |};
    inv_caps :
      pc s <> MStart ->
      Chan.cap (jobs s) = length items /\ Chan.cap (results s) = length items;
    inv_jobs :
      Permutation (map ID items)
        (pending items (pc s) ++ Chan.buf (jobs s) ++ delivered (trace s));
    inv_delivered :
      Permutation (delivered (trace s))
        (flat_map in_exec (workers s) ++ executed (trace s));
    inv_executed :
      Permutation (executed (trace s))
        (flat_map in_send (workers s) ++ emitted (trace s));
    inv_emitted :
      Permutation (emitted (trace s))
        (Chan.buf (results s) ++ observed (trace s));
    inv_commands : Forall (is_delete (isPermanent options)) (trace s);
    inv_wg : wg s = Z.of_nat (live (workers s));
    inv_jobs_closed : Chan.closed (jobs s) = jobs_closed_at (pc s);
    inv_closer : closer_started (closer s) = closer_started_at (pc s);
    inv_closer_wg : closer s = CClose \/ closer s = CDone -> wg s = 0;
    inv_results_closed : Chan.closed (results s) = closer_done (closer s);
    inv_drained :
      pc s = MShow \/ pc s = MReturn ->
      Chan.closed (results s) = true /\ Chan.buf (results s) = [];
    inv_finished :
      (0 < finished (workers s))%nat ->
      Chan.closed (jobs s) = true /\ Chan.buf (jobs s) = [];
    inv_no_pool : batchSize options < 1 -> workers s = [];
    inv_pool :
      spawning_over (pc s) = true -> 1 <= batchSize options -> workers s <> [];
    inv_spawn : forall w, pc s = MSpawn w -> w = 1 \/ workers s <> [];
    inv_idle : workers s = [] -> delivered (trace s) = [];
    inv_wg_max : wg s <= GoSync.max_counter;
    inv_spawning : forall w, pc s = MSpawn w -> w = wg s + 1 }.

(** A bound on the number of steps a state still has in it. *)
Definition worker_weight (w : worker) : nat :=
  match wpc w with
  | WRange => 1
  | WExec _ => 4
  | WSend _ => 3
  | WDone => 0
  end.

Definition closer_weight (c : closer_pc) : nat :=
  match c with
  | CNone => 0
  | CWait => 2
  | CClose => 1
  | CDone => 0
  end.

Definition main_weight (items : list BitwardenItem) (options : CommandOptions)
  (p : main_pc) : nat :=
  match p with
  | MStart => 8 + 5 * length items + 2 * Z.to_nat (batchSize options)
  | MSpawn w => 7 + 5 * length items + 2 * Z.to_nat (batchSize options + 1 - w)
  | MSend rest => 6 + 5 * length rest
  | MGo => 5
  | MRange => 2
  | MShow => 1
  | MReturn => 0
  end.

Definition measure (items : list BitwardenItem) (options : CommandOptions)
  (s : state) : nat :=
  if panicked s then 0%nat
  else (1 + main_weight items options (pc s)
        + 4 * length (Chan.buf (jobs s))
        + length (Chan.buf (results s))
        + list_sum (map worker_weight (workers s))
        + closer_weight (closer s))%nat.

(** A scheduler: the first goroutine that can move, [processItems] first,
    then the closing goroutine, then the workers in the order they were
    started.  [agent] tells what the delete command does for an identifier. *)
Definition can_step (items : list BitwardenItem) (options : CommandOptions)
  (c : choice) (s : state) : bool :=
  match step items options c s with Some _ => true | None => false end.

Definition process_for (agent : string -> GoExec.Process) (w : worker)
  : GoExec.Process :=
  match wpc w with
  | WExec itemID => agent itemID
  | _ => agent EmptyString
  end.

Fixpoint worker_choices (agent : string -> GoExec.Process) (i : nat)
  (ws : list worker) : list choice :=
  match ws with
  | [] => []
  | w :: ws' => RunWorker i (process_for agent w) :: worker_choices agent (S i) ws'
  end.

Definition choices (agent : string -> GoExec.Process) (s : state) : list choice :=
  RunMain :: RunCloser :: worker_choices agent 0 (workers s).

Definition pick (items : list BitwardenItem) (options : CommandOptions)
  (agent : string -> GoExec.Process) (s : state) : option choice :=
  find (fun c => can_step items options c s) (choices agent s).

Fixpoint schedule (items : list BitwardenItem) (options : CommandOptions)
  (agent : string -> GoExec.Process) (fuel : nat) (s : state) : list choice :=
  match fuel with
  | O => []
  | S fuel' =>
      match pick items options agent s with
      | None => []
      | Some c =>
          match step items options c s with
          | Some s' => c :: schedule items options agent fuel' s'
          | None => []
          end
      end
  end.

(** The statistics [runBulkDelete] builds after the listing. *)
Definition stats_of (items : list BitwardenItem) : DeleteStats :=
  {| total := Z.of_nat (length items); completed := 0 |}.

(** No goroutine can move. *)
Definition stuck (items : list BitwardenItem) (options : CommandOptions)
  (s : state) : Prop :=
  forall c, step items options c s = None.

(** ** Notions used in the statements *)

(** The state [processItems] starts from when [runBulkDelete] calls it. *)
Definition start (items : list BitwardenItem) : state :=
  processItems_init (stats_of items).

Definition delete_commands (options : CommandOptions) (ids : list string)
  : list (list string) :=
  map (fun itemID => delete_argv itemID (isPermanent options)) ids.

(** Every job went once through each stage, and every one was counted. *)
Record every_job_once (items : list BitwardenItem) (options : CommandOptions)
  (st : DeleteStats) (t : list event) : Prop :=
  { once_delivered : Permutation (delivered t) (map ID items);
    once_attempted :
      Permutation (commands t) (delete_commands options (map ID items));
    once_emitted : Permutation (emitted t) (map ID items);
    once_observed : Permutation (observed t) (map ID items);
    all_counted : completed st = Z.of_nat (length items) }.

(** The loop [for range results] of [processResults] is over: the channel
    is closed and nothing is left in it. *)
Definition range_over (s : state) : Prop :=
  Chan.recv (results s) = Chan.RecvClosed.

(** The environment lets a run get as far as [processItems]: the client is
    installed, the listing gives [items], and the user says yes. *)
Definition reaches_deletion (env : Env) (options : CommandOptions)
  (items : list BitwardenItem) : Prop :=
  checkBitwardenCLI env = None
  /\ fst (fetchBitwardenItems env (searchTerm options)) = inl items
  /\ fst (confirmDeletion env (stats_of items) options) = true.

(** The delete commands among the subprocesses of a trace. *)
Definition is_delete_command (argv : list string) : bool :=
  match argv with
  | prog :: sub :: _ => String.eqb prog "bw" && String.eqb sub "delete"
  | _ => false
  end.

Definition deletions (t : list event) : list (list string) :=
  filter is_delete_command (commands t).

(** A space that does not end the line. *)
Definition blank (r : rune) : bool :=
  GoFmt.isSpace r && negb (r =? GoFmt.newline).

(** The words [confirmDeletion] takes for a yes, when no rune outside ASCII
    has [y], [e] or [s] as its lower case. *)
Definition affirmative : list (list rune) :=
  map GoStrings.runes
    ["y"; "Y"; "yes"; "yeS"; "yEs"; "yES"; "Yes"; "YeS"; "YEs"; "YES"]%string.

Definition lower_is_not_yes (tables : rune -> rune) : Prop :=
  forall r, 0x7f < r -> tables r <> 0x79 /\ tables r <> 0x65 /\ tables r <> 0x73.

(** The subprocess started and exited with status zero. *)
Definition succeeded (p : GoExec.Process) : bool :=
  match p with
  | GoExec.Exited code _ _ _ => code =? 0
  | GoExec.NotStarted _ => false
  end.

Definition stdout_of (p : GoExec.Process) : string :=
  match p with
  | GoExec.Exited _ out _ _ => out
  | GoExec.NotStarted _ => EmptyString
  end.

Definition has_quote (s : string) : bool :=
  existsb Shell.is_quote (list_ascii_of_string s).

(** What [runBulkDelete] prints and runs before it looks at the number of
    items. *)
Definition prelude (env : Env) (options : CommandOptions) : list event :=
  displayDeletionMode options
  ++ snd (syncBitwarden (bw_sync_before env) "before starting")
  ++ match fst (syncBitwarden (bw_sync_before env) "before starting") with
     | Some _ => [Print Msg.initial_sync_failed]
     | None => []
     end
  ++ snd (fetchBitwardenItems env (searchTerm options)).

(** Occurrences of an identifier in a list, the measure of a multiset. *)
Definition occ (l : list string) (a : string) : nat := count_occ string_dec l a.

Definition one (v a : string) : nat := occ [v] a.






(** ** A small vault to run the definitions on *)

Module Sample.

Local Open Scope string_scope.

Definition items : list BitwardenItem :=
  [ {| ID := "0a1"; Name := "old mail" |};
    {| ID := "0b2"; Name := "test login" |};
    {| ID := "0c3"; Name := "test card" |} ].

Definition dq : string := String (ascii_of_nat 34) EmptyString.

Definition listing : string :=
  "[{" ++ dq ++ "id" ++ dq ++ ":" ++ dq ++ "0a1" ++ dq ++ "}]".

Definition silent : GoExec.Process :=
  GoExec.Exited 0 EmptyString EmptyString EmptyString.

(** A client that is installed, syncs, and lists [listing]; the decoder
    knows that one text only. *)
Definition env (decoded : list BitwardenItem + string) (typed : string) : Env :=
  {| lookPath_bw := None;
     bw_sync_before := silent;
     bw_sync_after := silent;
     sh_c := fun _ => GoExec.Exited 0 listing EmptyString listing;
     json_Unmarshal :=
       fun out => if String.eqb out listing then decoded
                  else inr "invalid character";
     stdin := GoStrings.runes typed;
     unicode_tables := fun r => r |}.

Definition flags (batch : Z) : Flags :=
  {| flag_search := "test"; flag_s := EmptyString;
     flag_batch := batch; flag_b := 1;
     flag_permanent := false; flag_p := false |}.

Definition options (batch : Z) : CommandOptions :=
  parseCommandLineOptions (flags batch).

(** The second delete command fails. *)
Definition not_found : GoExec.Process :=
  GoExec.Exited 1 EmptyString "Not found." "Not found.".

Definition agent (itemID : string) : GoExec.Process :=
  if String.eqb itemID "0b2" then not_found else silent.

(** Three steps of [processItems]: the start, one worker, the end of the
    spawn loop. *)
Definition first_steps : list choice := [RunMain; RunMain; RunMain].

(** A whole run of [processItems] without workers: the start, the spawn
    loop left at once, three sends, the close and the [go]; then the closing
    goroutine; then the end of the consumer loop and the message. *)
Definition run_without_pool : list choice :=
  repeat RunMain 7 ++ [RunCloser; RunCloser; RunMain; RunMain].

End Sample.

(** ** Further notions: order, pool and output *)

(** The texts printed right after an [Observe]: the progress lines of
    [processResults].  [seen] tells whether the event before was an
    [Observe]. *)
Fixpoint lines_after (seen : bool) (t : list event) : list string :=
  match t with
  | [] => []
  | Observe _ :: t' => lines_after true t'
  | Print text :: t' =>
      if seen then text :: lines_after false t' else lines_after false t'
  | _ :: t' => lines_after false t'
  end.

Definition progress_lines (t : list event) : list string := lines_after false t.

Fixpoint ends_observed (seen : bool) (t : list event) : bool :=
  match t with
  | [] => seen
  | Observe _ :: t' => ends_observed true t'
  | _ :: t' => ends_observed false t'
  end.

(** The progress lines [1/n], [2/n], up to [k/n]. *)
Definition counting (k n : nat) : list string :=
  map (fun j => Msg.progress (Z.of_nat j) (Z.of_nat n)) (seq 1 k).

(** The identifiers the spawn loop gives to the first [k] workers. *)
Definition worker_ids (k : nat) : list Z := map Z.of_nat (seq 1 k).

(** The number of delete commands being run. *)
Definition in_flight (ws : list worker) : nat := length (flat_map in_exec ws).

(** Channels are queues: what has been delivered, what waits in [jobs] and
    what is still to be sent make up the listing, in its order; what has
    been observed and what waits in [results] make up what was emitted, in
    the order of emission.  The pool holds the workers 1, 2, ... and never
    more than the batch size; the progress lines count from one. *)
Record Order (items : list BitwardenItem) (options : CommandOptions) (s : state)
  : Prop :=
  { ord_jobs :
      map ID items
      = delivered (trace s) ++ Chan.buf (jobs s) ++ pending items (pc s);
    ord_results :
      emitted (trace s) = observed (trace s) ++ Chan.buf (results s);
    ord_pool_ids :
      batchSize options < GoInt.max_int ->
      map wid (workers s) = worker_ids (length (workers s))
      /\ (forall w, pc s = MSpawn w -> w = Z.of_nat (length (workers s)) + 1)
      /\ Z.of_nat (length (workers s)) <= Z.max 0 (batchSize options)
      /\ (spawning_over (pc s) = true ->
          Z.of_nat (length (workers s)) = Z.max 0 (batchSize options));
    ord_lines :
      progress_lines (trace s)
      = counting (length (observed (trace s))) (length items);
    ord_flag : ends_observed false (trace s) = false }.

(** With at most one worker the commands run in the order of delivery and
    the events are emitted in the order of the commands. *)
Record Solo (s : state) : Prop :=
  { solo_exec :
      delivered (trace s) = executed (trace s) ++ flat_map in_exec (workers s);
    solo_send :
      executed (trace s) = emitted (trace s) ++ flat_map in_send (workers s) }.

(** The same environment with another outcome of the first [bw sync]. *)
Definition with_sync_before (p : GoExec.Process) (env : Env) : Env :=
  {| lookPath_bw := lookPath_bw env;
     bw_sync_before := p;
     bw_sync_after := bw_sync_after env;
     sh_c := sh_c env;
     json_Unmarshal := json_Unmarshal env;
     stdin := stdin env;
     unicode_tables := unicode_tables env |}.

(** What a run comes to: the error returned, the statistics, and the
    commands it ran. *)
Definition verdict (o : outcome run)
  : outcome (option run_error * option DeleteStats * list (list string)) :=
  match o with
  | Finished r => Finished (returned r, final_stats r, commands (events r))
  | Crashed => Crashed
  | Unfinished => Unfinished
  end.

(** The end of the line typed: the end of the input, or a newline and
    whatever follows. *)
Definition line_end (tail : list rune) : Prop :=
  tail = [] \/ exists rest, tail = GoFmt.newline :: rest.

(** The arguments of the client for a search term. *)
Definition search_arguments (term : string) : list string :=
  if String.eqb term EmptyString then [] else ["--search"%string; term].

(** The listing failed or the client is missing. *)
Definition fatal (env : Env) (options : CommandOptions) : Prop :=
  checkBitwardenCLI env <> None
  \/ exists err, fst (fetchBitwardenItems env (searchTerm options)) = inr err.

(** The error of [fmt.Scanln] when no word comes before the end of the
    line. *)
Definition missing_word (tail : list rune) : GoFmt.scan_error :=
  match tail with
  | [] => GoFmt.EOF
  | _ :: _ => GoFmt.UnexpectedNewline
  end.

(** Further environments and schedules to run the program on. *)
Module Cases.

Local Open Scope string_scope.

Definition not_found : string := "executable file not found in $PATH".

(** The client is not installed. *)
Definition no_client : Env :=
  {| lookPath_bw := Some not_found;
     bw_sync_before := Sample.silent;
     bw_sync_after := Sample.silent;
     sh_c := fun _ => Sample.silent;
     json_Unmarshal := fun _ => inl Sample.items;
     stdin := GoStrings.runes "y";
     unicode_tables := fun r => r |}.

(** The vault is locked: the list command writes a listing and a
    complaint, and exits with status 1. *)
Definition locked : GoExec.Process :=
  GoExec.Exited 1 Sample.listing "Vault is locked." "Vault is locked.".

Definition list_fails : Env :=
  {| lookPath_bw := None;
     bw_sync_before := Sample.silent;
     bw_sync_after := Sample.silent;
     sh_c := fun _ => locked;
     json_Unmarshal := fun _ => inl Sample.items;
     stdin := GoStrings.runes "y";
     unicode_tables := fun r => r |}.

(** The first [bw sync] fails, everything else is as in the sample. *)
Definition sync_fails : Env :=
  {| lookPath_bw := None;
     bw_sync_before := Sample.not_found;
     bw_sync_after := Sample.silent;
     sh_c := fun _ => GoExec.Exited 0 Sample.listing EmptyString Sample.listing;
     json_Unmarshal := fun _ => inl Sample.items;
     stdin := GoStrings.runes "n";
     unicode_tables := fun r => r |}.

(** An answer with blanks around it and a second line. *)
Definition answer : string := "  YES " ++ Msg.nl ++ "no".

(** The first steps of [processItems] up to the first send on [jobs]: the
    start, two workers, the end of the spawn loop, one send. *)
Definition loading : list choice := repeat RunMain 5.

(** A whole run of [processItems] on the sample items, as the scheduler of
    this file picks it. *)
Definition run (batch : Z) : list choice :=
  schedule Sample.items (Sample.options batch) Sample.agent
    (measure Sample.items (Sample.options batch) (start Sample.items))
    (start Sample.items).

End Cases.

Unset Implicit Arguments.

(** * Properties *)

(** ** Arithmetic on [int] *)

Lemma incr_no_overflow (x : Z) :
  GoInt.min_int <= x < GoInt.max_int -> GoInt.incr x = x + 1.
Proof.
  unfold GoInt.incr, GoInt.wrap, GoInt.min_int, GoInt.max_int.
  intros H. rewrite Z.mod_small; lia.
Qed.

(** ** The counter of the wait group *)

Lemma Add_one_Some (v v' : Z) :
  0 <= v <= GoSync.max_counter ->
  GoSync.Add v 1 = Some v' ->
  v' = v + 1 /\ v' <= GoSync.max_counter.
Proof.
  unfold GoSync.Add, GoSync.wrap32, GoSync.max_counter. intros Hv.
  destruct (Z.eq_dec v (2 ^ 31 - 1)) as [->|Hne].
  - intros E. vm_compute in E. discriminate E.
  - rewrite Z.mod_small by lia.
    destruct (Z.ltb_spec (v + 1 + 2 ^ 31 - 2 ^ 31) 0); [discriminate|].
    intros [= <-]. lia.
Qed.

Lemma Add_one_None (v : Z) :
  0 <= v <= GoSync.max_counter ->
  GoSync.Add v 1 = None ->
  v = GoSync.max_counter.
Proof.
  unfold GoSync.Add, GoSync.wrap32, GoSync.max_counter. intros Hv.
  destruct (Z.eq_dec v (2 ^ 31 - 1)) as [->|Hne]; [reflexivity|].
  rewrite Z.mod_small by lia.
  destruct (Z.ltb_spec (v + 1 + 2 ^ 31 - 2 ^ 31) 0); [lia|discriminate].
Qed.

Lemma Add_one_small (v : Z) :
  0 <= v < GoSync.max_counter -> GoSync.Add v 1 = Some (v + 1).
Proof.
  intros Hv. destruct (GoSync.Add v 1) as [v'|] eqn:E.
  - destruct (Add_one_Some v v' ltac:(lia) E) as [-> _]. reflexivity.
  - pose proof (Add_one_None v ltac:(lia) E). lia.
Qed.

Lemma Add_done_Some (v v' : Z) :
  0 <= v <= GoSync.max_counter ->
  GoSync.Add v (-1) = Some v' ->
  v' = v - 1 /\ 0 <= v'.
Proof.
  unfold GoSync.Add, GoSync.wrap32, GoSync.max_counter. intros Hv.
  rewrite Z.mod_small by lia.
  destruct (Z.ltb_spec (v + -1 + 2 ^ 31 - 2 ^ 31) 0); [discriminate|].
  intros [= <-]. lia.
Qed.

Lemma Add_done_None (v : Z) :
  0 <= v <= GoSync.max_counter ->
  GoSync.Add v (-1) = None ->
  v = 0.
Proof.
  unfold GoSync.Add, GoSync.wrap32, GoSync.max_counter. intros Hv.
  rewrite Z.mod_small by lia.
  destruct (Z.ltb_spec (v + -1 + 2 ^ 31 - 2 ^ 31) 0); [lia|discriminate].
Qed.

Lemma Add_done_positive (v : Z) :
  0 < v <= GoSync.max_counter -> GoSync.Add v (-1) = Some (v - 1).
Proof.
  intros Hv. destruct (GoSync.Add v (-1)) as [v'|] eqn:E.
  - destruct (Add_done_Some v v' ltac:(lia) E) as [-> _]. reflexivity.
  - pose proof (Add_done_None v ltac:(lia) E). lia.
Qed.

(** ** Lists updated in place *)

Section Update.

Variable A : Type.

Lemma update_nil_iff (i : nat) (x : A) (l : list A) :
  update i x l = [] <-> l = [].
Proof.
  destruct l, i; simpl; split; intros; congruence.
Qed.



(** Any quantity that is a sum over the elements changes by the
    difference of the two elements. *)
Lemma sum_update (f : A -> nat) (i : nat) (x y : A) (l : list A) :
  nth_error l i = Some y ->
  (list_sum (map f (update i x l)) + f y = list_sum (map f l) + f x)%nat.
Proof.
  revert i; induction l as [|z l IH]; intros [|i]; simpl; intros H;
    try discriminate.
  - injection H as ->. lia.
  - specialize (IH _ H). lia.
Qed.

Lemma filter_length_sum (f : A -> bool) (l : list A) :
  length (filter f l) = list_sum (map (fun x => if f x then 1%nat else 0%nat) l).
Proof.
  induction l as [|z l IH]; simpl; auto.
  destruct (f z); simpl; lia.
Qed.

Lemma filter_length_update (f : A -> bool) (i : nat) (x y : A) (l : list A) :
  nth_error l i = Some y ->
  (length (filter f (update i x l)) + (if f y then 1 else 0)
   = length (filter f l) + (if f x then 1 else 0))%nat.
Proof.
  intros H. rewrite !filter_length_sum.
  exact (sum_update (fun x => if f x then 1%nat else 0%nat) i x y l H).
Qed.

Lemma filter_length_split (f : A -> bool) (l : list A) :
  (length (filter f l) + length (filter (fun x => negb (f x)) l) = length l)%nat.
Proof.
  induction l as [|z l IH]; simpl; auto.
  destruct (f z); simpl; lia.
Qed.

End Update.

(** ** Counting identifiers *)

Lemma occ_nil a : occ [] a = 0%nat.
Proof. reflexivity. Qed.

Lemma occ_app l l' a : occ (l ++ l') a = (occ l a + occ l' a)%nat.
Proof. apply count_occ_app. Qed.

Lemma occ_cons v l a : occ (v :: l) a = (occ [v] a + occ l a)%nat.
Proof. change (v :: l) with ([v] ++ l). apply occ_app. Qed.

Lemma occ_perm l l' : Permutation l l' <-> forall a, occ l a = occ l' a.
Proof. apply Permutation_count_occ. Qed.

Lemma occ_flat_map_sum (A : Type) (g : A -> list string) (l : list A) a :
  occ (flat_map g l) a = list_sum (map (fun x => occ (g x) a) l).
Proof.
  induction l as [|z l IH]; simpl; auto.
  rewrite occ_app, IH. reflexivity.
Qed.

Lemma occ_flat_map_update (A : Type) (g : A -> list string) i (x y : A) l a :
  nth_error l i = Some y ->
  (occ (flat_map g (update i x l)) a + occ (g y) a
   = occ (flat_map g l) a + occ (g x) a)%nat.
Proof.
  intros H. rewrite !occ_flat_map_sum.
  exact (sum_update A (fun x => occ (g x) a) i x y l H).
Qed.

Lemma length_flat_map_sum (A : Type) (g : A -> list string) (l : list A) :
  length (flat_map g l) = list_sum (map (fun x => length (g x)) l).
Proof.
  induction l as [|z l IH]; simpl; auto.
  rewrite length_app, IH. reflexivity.
Qed.

(** ** Reading the trace *)

Lemma delivered_app t t' : delivered (t ++ t') = delivered t ++ delivered t'.
Proof. apply flat_map_app. Qed.

Lemma emitted_app t t' : emitted (t ++ t') = emitted t ++ emitted t'.
Proof. apply flat_map_app. Qed.

Lemma observed_app t t' : observed (t ++ t') = observed t ++ observed t'.
Proof. apply flat_map_app. Qed.

Lemma commands_app t t' : commands (t ++ t') = commands t ++ commands t'.
Proof. apply flat_map_app. Qed.

Lemma printed_app t t' : printed (t ++ t') = printed t ++ printed t'.
Proof. apply flat_map_app. Qed.

Lemma executed_app t t' : executed (t ++ t') = executed t ++ executed t'.
Proof. unfold executed. rewrite commands_app. apply map_app. Qed.

Lemma nth3_delete_argv itemID isPermanent :
  nth 3 (delete_argv itemID isPermanent) EmptyString = itemID.
Proof. destruct isPermanent; reflexivity. Qed.

(** ** The invariant *)

Lemma occ_cons_one v l a : occ (v :: l) a = (one v a + occ l a)%nat.
Proof. apply occ_cons. Qed.

Lemma length_flat_map_update (A : Type) (g : A -> list string) i (x y : A) l :
  nth_error l i = Some y ->
  (length (flat_map g (update i x l)) + length (g y)
   = length (flat_map g l) + length (g x))%nat.
Proof.
  intros H. rewrite !length_flat_map_sum.
  exact (sum_update A (fun x => length (g x)) i x y l H).
Qed.

(** Goals and hypotheses about [Permutation] become equations between
    numbers of occurrences, which [lia] settles. *)
Ltac occ_solve :=
  let a := fresh "a" in
  apply occ_perm; intro a;
  repeat match goal with
         | H : Permutation _ _ |- _ => rewrite occ_perm in H
         end;
  repeat match goal with
         | H : forall _ : string, _ = _ |- _ => specialize (H a)
         end;
  repeat rewrite ?occ_app, ?occ_cons_one, ?occ_nil in *;
  lia.

Ltac unfold_state :=
  cbv [set_pc set_jobs set_results set_workers set_wg set_closer set_stats
       emit panic set_worker count_one showCompletionMessage] in *;
  simpl pc in *; simpl jobs in *; simpl results in *; simpl workers in *;
  simpl wg in *; simpl closer in *; simpl stats in *; simpl trace in *;
  simpl panicked in *.

Lemma Inv_init items options :
  Inv items options (processItems_init (stats_of items)).
Proof.
  constructor; simpl; auto; try discriminate; try lia; try tauto.
  - rewrite app_nil_r. reflexivity.
  - intros [?|?]; discriminate.
  - unfold finished; simpl; lia.
Qed.

Lemma started_none c : closer_started c = false -> c = CNone.
Proof. destruct c; simpl; congruence. Qed.

Lemma live_app ws w :
  live (ws ++ [w]) = (live ws + (if is_done w then 0 else 1))%nat.
Proof.
  unfold live. rewrite filter_app, length_app. simpl.
  destruct (is_done w); reflexivity.
Qed.

Lemma finished_app ws w :
  finished (ws ++ [w]) = (finished ws + (if is_done w then 1 else 0))%nat.
Proof.
  unfold finished. rewrite filter_app, length_app. simpl.
  destruct (is_done w); reflexivity.
Qed.

Ltac inv_easy :=
  try solve [ auto | discriminate | lia | tauto
            | intros; congruence
            | intros [?|?]; discriminate
            | intros; discriminate
            | intros ? [= <-]; auto
            | let E := fresh in
              intros E; apply app_eq_nil in E; destruct E; discriminate
            | match goal with
              | N : ?l <> [] |- ?l = [] -> _ =>
                  let E := fresh in intros E; elim N; exact E
              end
            | rewrite ?app_nil_r; reflexivity
            | repeat constructor
            | apply Forall_app; split; auto; repeat constructor
            | unfold finished; simpl; lia
            | match goal with
              | H : _ <> MStart -> _ |- _ => intros; apply H; congruence
              end
            | match goal with
              | H : (0 < finished _)%nat -> _ |- (0 < finished _)%nat -> _ =>
                  let Hf := fresh in
                  intros Hf; destruct H; [first [exact Hf | lia]|];
                  first [congruence | discriminate | auto]
              end
            | occ_solve ].

Ltac inv_fields Hpc :=
  constructor; unfold_state; rewrite ?Hpc in *; simpl in *;
  rewrite ?delivered_app, ?executed_app, ?emitted_app, ?observed_app,
    ?flat_map_app, ?live_app, ?finished_app;
  simpl; rewrite ?app_nil_r, ?Nat.add_0_r; inv_easy.

Lemma main_step_Inv items options s s' :
  Z.of_nat (length items) <= GoInt.max_int ->
  Inv items options s ->
  panicked s = false ->
  main_step items options s = Some s' ->
  Inv items options s'.
Proof.
  intros Hn [Hp Ht Hc Hst Hcap Hj Hd He Hm Hcmd Hwg Hjc Hcl Hcw Hrc Hdr Hfin Hnp Hpool Hsp Hidle Hwmax Hspw]
    Hok.
  unfold main_step.
  destruct (pc s) eqn:Hpc.
  - (* MStart *)
    rewrite (Hst eq_refl). simpl.
    destruct (Z.ltb_spec (Z.of_nat (length items)) 0); [lia|].
    intros [= <-]. inv_fields Hpc.
  - (* MSpawn *)
    assert (Hcn : closer s = CNone) by (apply started_none; rewrite Hcl; reflexivity).
    assert (Hrange : 0 <= wg s <= GoSync.max_counter) by lia.
    pose proof (Hspw _ eq_refl) as Hw.
    destruct (Z.leb_spec w (batchSize options)).
    + destruct (GoSync.Add (wg s) 1) as [v|] eqn:Hadd; intros [= <-].
      * destruct (Add_one_Some _ _ Hrange Hadd) as [-> Hv].
        inv_fields Hpc.
        -- rewrite Hcn. intros [?|?]; discriminate.
        -- intros ? _. right. intros E. apply app_eq_nil in E.
           destruct E; discriminate.
        -- intros w0 [= <-]. rewrite incr_no_overflow; [lia|].
           unfold GoInt.min_int, GoInt.max_int.
           unfold GoSync.max_counter in *. lia.
      * (* the counter overflows: [wg.Add] panics *)
        pose proof (Add_one_None _ Hrange Hadd) as Hfull.
        constructor; unfold_state; rewrite ?Hpc; auto; try discriminate.
        intros _. split; [lia|]. f_equal. lia.
    + intros [= <-]. inv_fields Hpc.
      intros _ Hb. destruct (Hsp _ eq_refl) as [->|Hne]; [lia|]. auto.
  - (* MSend *)
    destruct rest as [|item rest].
    + rewrite Hjc. simpl. intros [= <-]. inv_fields Hpc.
    + unfold Chan.send. rewrite Hjc. simpl.
      destruct (Hcap ltac:(congruence)) as [Hcj Hcr].
      assert (Hlen : (length (Chan.buf (jobs s)) < length items)%nat).
      { apply Permutation_length in Hj. simpl in Hj.
        rewrite ?length_app, ?length_map in Hj. lia. }
      rewrite Hcj. destruct (Nat.ltb_spec (length (Chan.buf (jobs s))) (length items)); [|lia].
      intros [= <-]. inv_fields Hpc.
  - (* MGo *)
    assert (Hcn : closer s = CNone) by (apply started_none; rewrite Hcl; reflexivity).
    intros [= <-]. inv_fields Hpc.
    rewrite Hrc, Hcn. reflexivity.
  - (* MRange *)
    unfold Chan.recv.
    destruct (Chan.buf (results s)) as [|v rest] eqn:Hbuf.
    + destruct (Chan.closed (results s)) eqn:Hclosed; [|discriminate].
      intros [= <-]. inv_fields Hpc.
      all: rewrite ?Hbuf, ?Hclosed; inv_easy.
    + intros [= <-].
      assert (Hlen : (length (observed (trace s)) < length items)%nat).
      { pose proof (Permutation_length Hj) as L1.
        pose proof (Permutation_length Hd) as L2.
        pose proof (Permutation_length He) as L3.
        pose proof (Permutation_length Hm) as L4.
        rewrite ?length_app, ?length_map in *. simpl in L4. lia. }
      inv_fields Hpc.
      rewrite Hc, incr_no_overflow.
      * rewrite length_app. simpl. lia.
      * unfold GoInt.min_int. unfold GoInt.max_int in *. lia.
  - (* MShow *)
    intros [= <-]. inv_fields Hpc.
  - discriminate.
Qed.

Lemma live_update i x y ws :
  nth_error ws i = Some y ->
  (live (update i x ws) + (if is_done y then 0 else 1)
   = live ws + (if is_done x then 0 else 1))%nat.
Proof.
  intros H. unfold live.
  pose proof (filter_length_update _ (fun w => negb (is_done w)) i x y ws H) as E.
  simpl in E. destruct (is_done x), (is_done y); simpl in E; lia.
Qed.

Lemma finished_update i x y ws :
  nth_error ws i = Some y ->
  (finished (update i x ws) + (if is_done y then 1 else 0)
   = finished ws + (if is_done x then 1 else 0))%nat.
Proof.
  intros H. unfold finished.
  exact (filter_length_update _ is_done i x y ws H).
Qed.

Lemma live_finished ws : (finished ws + live ws = length ws)%nat.
Proof. apply filter_length_split. Qed.

(** When the step was not taken by [processItems] itself, it did not start
    in the initial state. *)
Ltac not_at_start :=
  match goal with
  | H : pc ?s = MStart -> ?s = _ |- pc ?s = MStart -> _ =>
      let E := fresh in
      intros E; specialize (H E); subst s; simpl in *;
      solve [ discriminate
            | match goal with
              | N : nth_error [] ?i = Some _ |- _ => destruct i; discriminate
              end ]
  end.

Lemma closer_step_Inv items options s s' :
  Inv items options s ->
  closer_step s = Some s' ->
  Inv items options s'.
Proof.
  intros [Hp Ht Hc Hst Hcap Hj Hd He Hm Hcmd Hwg Hjc Hcl Hcw Hrc Hdr Hfin Hnp Hpool Hsp Hidle].
  unfold closer_step.
  destruct (closer s) eqn:Hcs; try discriminate.
  - destruct (Z.eqb_spec (wg s) 0); [|discriminate].
    intros [= <-]. constructor; unfold_state; inv_easy; try not_at_start.
  - rewrite Hrc. simpl.
    intros [= <-]. constructor; unfold_state; inv_easy; try not_at_start.
Qed.

(** What replacing the state of worker [i] does to the sums over the pool. *)
Section Pool.

Variables (i : nat) (w : worker) (p : worker_pc) (ws : list worker).
Hypothesis Hnth : nth_error ws i = Some w.

Let w' : worker := {| wid := wid w; wpc := p |}.

Lemma pool_in_exec a :
  (occ (flat_map in_exec (update i w' ws)) a
   + occ (match wpc w with WExec v => [v] | _ => [] end) a
   = occ (flat_map in_exec ws) a
     + occ (match p with WExec v => [v] | _ => [] end) a)%nat.
Proof. exact (occ_flat_map_update _ in_exec i w' w ws a Hnth). Qed.

Lemma pool_in_send a :
  (occ (flat_map in_send (update i w' ws)) a
   + occ (match wpc w with WSend v => [v] | _ => [] end) a
   = occ (flat_map in_send ws) a
     + occ (match p with WSend v => [v] | _ => [] end) a)%nat.
Proof. exact (occ_flat_map_update _ in_send i w' w ws a Hnth). Qed.

Lemma pool_sending :
  (length (flat_map in_send (update i w' ws))
   + length (match wpc w with WSend v => [v] | _ => [] end)
   = length (flat_map in_send ws)
     + length (match p with WSend v => [v] | _ => [] end))%nat.
Proof. exact (length_flat_map_update _ in_send i w' w ws Hnth). Qed.

Lemma pool_live :
  (live (update i w' ws) + (match wpc w with WDone => 0 | _ => 1 end)
   = live ws + (match p with WDone => 0 | _ => 1 end))%nat.
Proof.
  pose proof (live_update i w' w ws Hnth) as E.
  unfold is_done in E. simpl in E.
  destruct (wpc w), p; simpl in *; lia.
Qed.

Lemma pool_finished :
  (finished (update i w' ws) + (match wpc w with WDone => 1 | _ => 0 end)
   = finished ws + (match p with WDone => 1 | _ => 0 end))%nat.
Proof.
  pose proof (finished_update i w' w ws Hnth) as E.
  unfold is_done in E. simpl in E.
  destruct (wpc w), p; simpl in *; lia.
Qed.

Lemma pool_has_live :
  (match wpc w with WDone => 0 | _ => 1 end <= live ws)%nat.
Proof.
  pose proof (live_update i {| wid := 0; wpc := WDone |} w ws Hnth) as E.
  unfold is_done in E. simpl in E.
  destruct (wpc w); simpl in *; lia.
Qed.

Lemma pool_not_empty : update i w' ws <> [].
Proof.
  rewrite update_nil_iff. intros ->. destruct i; discriminate.
Qed.

Lemma pool_was_not_empty : ws <> [].
Proof. intros ->. destruct i; discriminate. Qed.

End Pool.

Ltac pool_facts Hnth Hw p :=
  let Xe := fresh "Xe" in
  let Xs := fresh "Xs" in
  let Xl := fresh "Xl" in
  let Xf := fresh "Xf" in
  let Xn := fresh "Xn" in
  let Xp := fresh "Xp" in
  let Xq := fresh "Xq" in
  let Xv := fresh "Xv" in
  pose proof (pool_in_exec _ _ p _ Hnth) as Xe;
  pose proof (pool_in_send _ _ p _ Hnth) as Xs;
  pose proof (pool_live _ _ p _ Hnth) as Xl;
  pose proof (pool_finished _ _ p _ Hnth) as Xf;
  pose proof (pool_sending _ _ p _ Hnth) as Xn;
  pose proof (pool_not_empty _ _ p _ Hnth) as Xp;
  pose proof (pool_was_not_empty _ _ _ Hnth) as Xq;
  pose proof (pool_has_live _ _ _ Hnth) as Xv;
  rewrite Hw in Xe, Xs, Xl, Xf, Xn, Xv;
  cbv beta iota in Xe, Xs, Xl, Xf, Xn, Xv;
  simpl length in Xn.

Ltac inv_pool :=
  try solve [ inv_easy
            | not_at_start
            | match goal with
              | H : ?P -> wg _ = 0 |- ?P -> _ =>
                  let X := fresh in intros X; specialize (H X); lia
              end
            | match goal with
              | H : ?P -> ?ws = [], N : ?ws <> [] |- ?P -> _ =>
                  let X := fresh in intros X; elim N; auto
              end
            | intros; auto
            | intros; right; auto ].

Lemma worker_step_Inv items options i p s s' :
  Inv items options s ->
  worker_step options i p s = Some s' ->
  Inv items options s'.
Proof.
  intros [Hp Ht Hc Hst Hcap Hj Hd He Hm Hcmd Hwg Hjc Hcl Hcw Hrc Hdr Hfin Hnp Hpool Hsp Hidle Hwmax Hspw].
  unfold worker_step.
  destruct (nth_error (workers s) i) as [w|] eqn:Hnth; [|discriminate].
  destruct (wpc w) eqn:Hw.
  - (* WRange *)
    unfold Chan.recv.
    destruct (Chan.buf (jobs s)) as [|v rest] eqn:Hbuf.
    + destruct (Chan.closed (jobs s)) eqn:Hclosed; [|discriminate].
      pool_facts Hnth Hw WDone.
      rewrite (Add_done_positive (wg s)) by lia.
      intros [= <-].
      constructor; unfold_state; rewrite ?Hbuf, ?Hclosed; inv_pool.
      intros w0 Hw0. rewrite Hw0 in Hjc. discriminate.
    + pool_facts Hnth Hw (WExec v).
      intros [= <-].
      constructor; unfold_state; rewrite ?Hbuf;
        rewrite ?delivered_app, ?executed_app, ?emitted_app, ?observed_app;
        simpl; rewrite ?app_nil_r; inv_pool.
  - (* WExec *)
    pool_facts Hnth Hw (WSend itemID).
    destruct (GoExec.Run p); intros [= <-];
      constructor; unfold_state;
      rewrite ?delivered_app, ?executed_app, ?emitted_app, ?observed_app;
      unfold executed; simpl; rewrite ?nth3_delete_argv, ?app_nil_r;
      fold (executed (trace s)); inv_pool.
    all: apply Forall_app; split; auto; repeat constructor; simpl;
      rewrite nth3_delete_argv; reflexivity.
  - (* WSend *)
    pool_facts Hnth Hw WRange.
    assert (Hopen : Chan.closed (results s) = false).
    { rewrite Hrc. destruct (closer s); auto.
      specialize (Hcw (or_intror eq_refl)). lia. }
    assert (Hroom : (length (Chan.buf (results s)) < Chan.cap (results s))%nat).
    { destruct (Hcap ltac:(intros E; specialize (Hst E); subst s; destruct i; discriminate))
        as [_ ->].
      pose proof (Permutation_length Hj) as L1.
      pose proof (Permutation_length Hd) as L2.
      pose proof (Permutation_length He) as L3.
      pose proof (Permutation_length Hm) as L4.
      rewrite ?length_app, ?length_map in *. lia. }
    unfold Chan.send. rewrite Hopen.
    destruct (Nat.ltb_spec (length (Chan.buf (results s))) (Chan.cap (results s))); [|lia].
    intros [= <-].
    constructor; unfold_state;
      rewrite ?delivered_app, ?executed_app, ?emitted_app, ?observed_app;
      simpl; rewrite ?app_nil_r; inv_pool.
    intros Hx. destruct (Hdr Hx). congruence.
  - discriminate.
Qed.

Lemma step_Inv items options c s s' :
  Z.of_nat (length items) <= GoInt.max_int ->
  Inv items options s ->
  step items options c s = Some s' ->
  Inv items options s'.
Proof.
  intros Hn HI. unfold step.
  destruct (panicked s) eqn:Hok; [discriminate|].
  destruct c.
  - apply main_step_Inv; auto.
  - apply closer_step_Inv; auto.
  - apply worker_step_Inv; auto.
Qed.

(** The only panic a run can meet is the one of [wg.Add] in the spawn
    loop, and only with a batch size the counter cannot hold. *)
Lemma not_panicked items options s :
  Inv items options s ->
  batchSize options <= GoSync.max_counter ->
  panicked s = false.
Proof.
  intros HI Hb. destruct (panicked s) eqn:Hp; auto.
  destruct (inv_panicked HI Hp). lia.
Qed.

Lemma not_panicked_at items options s :
  Inv items options s ->
  (forall w, pc s <> MSpawn w) ->
  panicked s = false.
Proof.
  intros HI Hpc. destruct (panicked s) eqn:Hp; auto.
  destruct (inv_panicked HI Hp) as [_ E]. elim (Hpc _ E).
Qed.

Lemma exec_Inv items options sched :
  Z.of_nat (length items) <= GoInt.max_int ->
  forall s s',
    Inv items options s ->
    exec items options sched s = Some s' ->
    Inv items options s'.
Proof.
  intros Hn. induction sched as [|c sched IH]; simpl; intros s s' HI.
  - intros [= <-]. exact HI.
  - destruct (step items options c s) as [s1|] eqn:Hs; [|discriminate].
    apply IH. eapply step_Inv; eauto.
Qed.

Lemma exec_app items options sched sched' s :
  exec items options (sched ++ sched') s =
  match exec items options sched s with
  | Some s' => exec items options sched' s'
  | None => None
  end.
Proof.
  revert s. induction sched as [|c sched IH]; simpl; intros s; auto.
  destruct (step items options c s); auto.
Qed.

(** ** Termination: every step uses up some of the measure *)

Lemma incr_above (w : Z) : w < GoInt.max_int -> w < GoInt.incr w.
Proof.
  unfold GoInt.incr, GoInt.wrap, GoInt.max_int. intros H.
  destruct (Z_lt_le_dec (w + 1) (- 2 ^ 63)) as [Hlow|Hlow].
  - pose proof (Z.mod_pos_bound (w + 1 + 2 ^ 63) (2 ^ 64) ltac:(lia)). lia.
  - rewrite Z.mod_small; lia.
Qed.

Lemma weight_update i w p ws :
  nth_error ws i = Some w ->
  (list_sum (map worker_weight (update i {| wid := wid w; wpc := p |} ws))
   + match wpc w with WRange => 1 | WExec _ => 4 | WSend _ => 3 | WDone => 0 end
   = list_sum (map worker_weight ws)
     + match p with WRange => 1 | WExec _ => 4 | WSend _ => 3 | WDone => 0 end)%nat.
Proof. apply (sum_update _ worker_weight). Qed.

Lemma step_decreases items options c s s' :
  batchSize options < GoInt.max_int ->
  step items options c s = Some s' ->
  (measure items options s' < measure items options s)%nat.
Proof.
  intros Hb. unfold step.
  destruct (panicked s) eqn:Hp; [discriminate|].
  unfold measure at 2. rewrite Hp.
  destruct c as [| |i p].
  - (* processItems *)
    unfold main_step.
    destruct (pc s) eqn:Hpc.
    + destruct (total (stats s) <? 0); intros [= <-]; unfold measure; simpl;
        rewrite ?Hp; simpl; try lia.
    + destruct (Z.leb_spec w (batchSize options)).
      * destruct (GoSync.Add (wg s) 1) as [v|]; intros [= <-];
          unfold measure; simpl; rewrite ?Hp, ?Hpc; simpl; [|lia].
        pose proof (incr_above w ltac:(lia)).
        rewrite map_app, list_sum_app. simpl. lia.
      * intros [= <-]. unfold measure; simpl; rewrite Hp, ?Hpc; simpl. lia.
    + destruct rest as [|item rest].
      * destruct (Chan.closed (jobs s)); intros [= <-]; unfold measure; simpl;
          rewrite ?Hp; simpl; lia.
      * unfold Chan.send.
        destruct (Chan.closed (jobs s)).
        -- intros [= <-]. unfold measure; simpl. lia.
        -- destruct (_ <? _)%nat; [|discriminate].
           intros [= <-]. unfold measure; simpl; rewrite Hp; simpl.
           rewrite length_app. simpl. lia.
    + intros [= <-]. unfold measure; simpl; rewrite Hp; simpl.
      destruct (closer s); simpl; lia.
    + unfold Chan.recv.
      destruct (Chan.buf (results s)) as [|v rest] eqn:Hbuf.
      * destruct (Chan.closed (results s)); [|discriminate].
        intros [= <-]. unfold measure; simpl; rewrite Hp, Hbuf; simpl. lia.
      * intros [= <-]. unfold measure; simpl; rewrite Hp, Hpc; simpl. lia.
    + intros [= <-]. unfold measure; simpl; rewrite Hp; simpl. lia.
    + discriminate.
  - (* the closing goroutine *)
    unfold closer_step.
    destruct (closer s) eqn:Hc; try discriminate.
    + destruct (wg s =? 0); [|discriminate].
      intros [= <-]. unfold measure; simpl; rewrite Hp; simpl. lia.
    + destruct (Chan.closed (results s)); intros [= <-]; unfold measure; simpl;
        rewrite ?Hp; simpl; lia.
  - (* a worker *)
    unfold worker_step.
    destruct (nth_error (workers s) i) as [w|] eqn:Hnth; [|discriminate].
    destruct (wpc w) eqn:Hw.
    + pose proof (weight_update i w WDone _ Hnth) as Wd.
      unfold Chan.recv.
      destruct (Chan.buf (jobs s)) as [|v rest] eqn:Hbuf.
      * destruct (Chan.closed (jobs s)); [|discriminate].
        destruct (GoSync.Add (wg s) (-1)) as [v'|]; intros [= <-];
          unfold measure; simpl; rewrite ?Hp, ?Hbuf; simpl; try lia.
        rewrite Hw in Wd. lia.
      * pose proof (weight_update i w (WExec v) _ Hnth) as We.
        rewrite Hw in We.
        intros [= <-]. unfold measure; simpl; rewrite ?Hp; simpl. lia.
    + pose proof (weight_update i w (WSend itemID) _ Hnth) as We.
      rewrite Hw in We.
      destruct (GoExec.Run p); intros [= <-]; unfold measure; simpl;
        rewrite ?Hp; simpl; lia.
    + pose proof (weight_update i w WRange _ Hnth) as We.
      rewrite Hw in We.
      unfold Chan.send.
      destruct (Chan.closed (results s)).
      * intros [= <-]. unfold measure; simpl. lia.
      * destruct (_ <? _)%nat; [|discriminate].
        intros [= <-]. unfold measure; simpl; rewrite Hp; simpl.
        rewrite length_app. simpl. lia.
    + discriminate.
Qed.

Lemma exec_bounded items options sched :
  batchSize options < GoInt.max_int ->
  forall s s',
    exec items options sched s = Some s' ->
    (length sched + measure items options s' <= measure items options s)%nat.
Proof.
  intros Hb. induction sched as [|c sched IH]; simpl; intros s s'.
  - intros [= <-]. lia.
  - destruct (step items options c s) as [s1|] eqn:Hs; [|discriminate].
    intros H. specialize (IH _ _ H).
    pose proof (step_decreases _ _ _ _ _ Hb Hs). lia.
Qed.

(** ** The pool once the wait group is at zero *)

Lemma live_zero_done ws i w :
  live ws = 0%nat -> nth_error ws i = Some w -> wpc w = WDone.
Proof.
  intros Hl Hn. pose proof (pool_has_live i w ws Hn) as H.
  destruct (wpc w); auto; lia.
Qed.

Lemma live_zero_holds_nothing ws :
  live ws = 0%nat -> flat_map in_exec ws = [] /\ flat_map in_send ws = [].
Proof.
  unfold live. induction ws as [|w ws IH]; simpl; auto.
  unfold is_done at 1, in_exec at 1, in_send at 1.
  destruct (wpc w); simpl; try discriminate. auto.
Qed.

Lemma live_worker ws :
  (0 < live ws)%nat ->
  exists i w, nth_error ws i = Some w /\ wpc w <> WDone.
Proof.
  unfold live. induction ws as [|w ws IH]; simpl; [lia|].
  destruct (is_done w) eqn:Hd; simpl; intros H.
  - destruct (IH H) as (i & w' & Hn & Hw). exists (S i), w'. auto.
  - exists 0%nat, w. split; auto. unfold is_done in Hd.
    destruct (wpc w); congruence.
Qed.

Lemma worker_choices_In agent ws : forall k i w,
  nth_error ws i = Some w ->
  In (RunWorker (k + i) (process_for agent w)) (worker_choices agent k ws).
Proof.
  induction ws as [|w0 ws IH]; intros k [|i] w; simpl; try discriminate.
  - intros [= ->]. left. f_equal. lia.
  - intros H. right. replace (k + S i)%nat with (S k + i)%nat by lia. auto.
Qed.

(** ** No deadlock *)

Lemma room_in_results items options s :
  Inv items options s ->
  pc s <> MStart ->
  (length (Chan.buf (results s)) + length (flat_map in_send (workers s))
   <= Chan.cap (results s))%nat.
Proof.
  intros HI Hpc. destruct (inv_caps HI Hpc) as [_ ->].
  pose proof (Permutation_length (inv_jobs HI)) as L1.
  pose proof (Permutation_length (inv_delivered HI)) as L2.
  pose proof (Permutation_length (inv_executed HI)) as L3.
  pose proof (Permutation_length (inv_emitted HI)) as L4.
  rewrite ?length_app, ?length_map in *. lia.
Qed.

Lemma worker_can_step items options s i w p :
  Inv items options s ->
  nth_error (workers s) i = Some w ->
  wpc w <> WDone ->
  Chan.closed (jobs s) = true \/ Chan.buf (jobs s) <> [] \/ wpc w <> WRange ->
  worker_step options i p s <> None.
Proof.
  intros HI Hnth Hlive Hjobs. unfold worker_step. rewrite Hnth.
  pose proof (pool_has_live i w _ Hnth) as Hl.
  pose proof (pool_sending i w WRange _ Hnth) as Hs.
  destruct (wpc w) eqn:Hw; try congruence.
  - unfold Chan.recv. destruct (Chan.buf (jobs s)).
    + destruct Hjobs as [->|[?|?]]; try congruence.
      destruct (GoSync.Add _ _); discriminate.
    + discriminate.
  - destruct (GoExec.Run p); discriminate.
  - assert (Hopen : Chan.closed (results s) = false).
    { rewrite (inv_results_closed HI). destruct (closer s) eqn:Hc; auto.
      pose proof (inv_closer_wg HI (or_intror Hc)).
      pose proof (inv_wg HI). lia. }
    assert (Hpc : pc s <> MStart).
    { intros E. rewrite (inv_start HI E) in Hnth. destruct i; discriminate. }
    pose proof (room_in_results _ _ _ HI Hpc).
    unfold Chan.send. rewrite Hopen. simpl in Hs.
    destruct (Nat.ltb_spec (length (Chan.buf (results s))) (Chan.cap (results s)));
      [discriminate|lia].
Qed.

Lemma progress items options agent s :
  Inv items options s ->
  batchSize options <= GoSync.max_counter ->
  pc s <> MReturn ->
  exists c, In c (choices agent s) /\ step items options c s <> None.
Proof.
  intros HI Hsmall Hret. unfold step, choices.
  rewrite (not_panicked _ _ _ HI Hsmall).
  destruct (pc s) eqn:Hpc; try congruence.
  - exists RunMain. split; [simpl; auto|]. unfold main_step. rewrite Hpc.
    destruct (_ <? _); discriminate.
  - exists RunMain. split; [simpl; auto|]. unfold main_step. rewrite Hpc.
    destruct (_ <=? _); [destruct (GoSync.Add _ _)|]; discriminate.
  - exists RunMain. split; [simpl; auto|]. unfold main_step. rewrite Hpc.
    destruct rest as [|item rest];
      [destruct (Chan.closed (jobs s)); discriminate|].
    unfold Chan.send. rewrite (inv_jobs_closed HI), Hpc. simpl.
    destruct (inv_caps HI ltac:(congruence)) as [-> _].
    pose proof (Permutation_length (inv_jobs HI)) as L. rewrite Hpc in L.
    simpl in L. rewrite ?length_app, ?length_map in L.
    destruct (Nat.ltb_spec (length (Chan.buf (jobs s))) (length items));
      [discriminate|lia].
  - exists RunMain. split; [simpl; auto|]. unfold main_step. rewrite Hpc.
    discriminate.
  - destruct (Chan.recv (results s)) eqn:Hrecv.
    + exists RunMain. split; [simpl; auto|]. unfold main_step.
      rewrite Hpc, Hrecv. discriminate.
    + (* the consumer waits: somebody else can move *)
      unfold Chan.recv in Hrecv.
      destruct (Chan.buf (results s)); [|discriminate].
      destruct (Chan.closed (results s)) eqn:Hclosed; [discriminate|].
      pose proof (inv_closer HI) as Hcl. rewrite Hpc in Hcl. simpl in Hcl.
      pose proof (inv_results_closed HI) as Hrc. rewrite Hclosed in Hrc.
      destruct (closer s) eqn:Hc; try discriminate.
      * destruct (Z.eqb_spec (wg s) 0) as [Hz|Hz].
        -- exists RunCloser. split; [simpl; auto|]. unfold closer_step.
           rewrite Hc. destruct (Z.eqb_spec (wg s) 0); [discriminate|lia].
        -- pose proof (inv_wg HI) as Hwg.
           destruct (live_worker (workers s) ltac:(lia)) as (i & w & Hnth & Hw).
           exists (RunWorker (0 + i) (process_for agent w)).
           split; [right; right; apply worker_choices_In; auto|].
           simpl. eapply worker_can_step; eauto.
           left. rewrite (inv_jobs_closed HI), Hpc. reflexivity.
      * exists RunCloser. split; [simpl; auto|]. unfold closer_step.
        rewrite Hc. destruct (Chan.closed (results s)); discriminate.
    + exists RunMain. split; [simpl; auto|]. unfold main_step.
      rewrite Hpc, Hrecv. discriminate.
  - exists RunMain. split; [simpl; auto|]. unfold main_step. rewrite Hpc.
    discriminate.
Qed.

(** When [processItems] has returned, every goroutine it started is over. *)
Lemma returned_stuck items options s :
  Inv items options s -> pc s = MReturn -> stuck items options s.
Proof.
  intros HI Hpc c. unfold step.
  destruct (panicked s); [reflexivity|].
  destruct (inv_drained HI (or_intror Hpc)) as [Hclosed _].
  pose proof (inv_results_closed HI) as Hrc. rewrite Hclosed in Hrc.
  destruct (closer s) eqn:Hc; try discriminate.
  pose proof (inv_closer_wg HI (or_intror Hc)) as Hwg.
  pose proof (inv_wg HI) as Hl.
  destruct c as [| |i p].
  - unfold main_step. rewrite Hpc. reflexivity.
  - unfold closer_step. rewrite Hc. reflexivity.
  - unfold worker_step.
    destruct (nth_error (workers s) i) as [w|] eqn:Hnth; auto.
    rewrite (live_zero_done (workers s) i w ltac:(lia) Hnth). reflexivity.
Qed.

(** ** The scheduler reaches the return *)

Lemma pick_can_step items options agent s c :
  pick items options agent s = Some c ->
  exists s', step items options c s = Some s'.
Proof.
  unfold pick. intros H. apply find_some in H. destruct H as [_ H].
  unfold can_step in H. destruct (step items options c s); eauto. discriminate.
Qed.

Lemma pick_none_returned items options agent s :
  Inv items options s ->
  batchSize options <= GoSync.max_counter ->
  pick items options agent s = None ->
  pc s = MReturn.
Proof.
  intros HI Hsmall Hnone.
  destruct (pc s) eqn:Hpc; auto;
    destruct (progress items options agent s HI Hsmall ltac:(congruence))
      as (c & Hin & Hc);
    pose proof (find_none _ _ Hnone c Hin) as Hf; unfold can_step in Hf;
    destruct (step items options c s); congruence.
Qed.

Lemma schedule_runs items options agent :
  batchSize options < GoInt.max_int ->
  forall fuel s,
  exists s',
    exec items options (schedule items options agent fuel s) s = Some s'
    /\ ((measure items options s <= fuel)%nat ->
        pick items options agent s' = None).
Proof.
  intros Hb. induction fuel as [|fuel IH]; intros s; simpl.
  - exists s. split; auto. intros Hm.
    destruct (pick items options agent s) as [c|] eqn:Hpick; auto.
    destruct (pick_can_step _ _ _ _ _ Hpick) as [s1 Hs].
    pose proof (step_decreases _ _ _ _ _ Hb Hs). lia.
  - destruct (pick items options agent s) as [c|] eqn:Hpick.
    + destruct (pick_can_step _ _ _ _ _ Hpick) as [s1 Hs]. rewrite Hs. simpl.
      rewrite Hs.
      destruct (IH s1) as (s' & He & Hm). exists s'. split; auto.
      intros Hle. apply Hm.
      pose proof (step_decreases _ _ _ _ _ Hb Hs). lia.
    + exists s. split; auto.
Qed.

Lemma counter_below_int (z : Z) :
  z <= GoSync.max_counter -> z < GoInt.max_int.
Proof. unfold GoSync.max_counter, GoInt.max_int. lia. Qed.

Lemma run_exists items options agent :
  Z.of_nat (length items) <= GoInt.max_int ->
  batchSize options <= GoSync.max_counter ->
  exists s,
    exec items options
      (schedule items options agent
         (measure items options (processItems_init (stats_of items)))
         (processItems_init (stats_of items)))
      (processItems_init (stats_of items)) = Some s
    /\ pc s = MReturn.
Proof.
  intros Hn Hb.
  destruct (schedule_runs items options agent (counter_below_int _ Hb)
              (measure items options (processItems_init (stats_of items)))
              (processItems_init (stats_of items))) as (s & He & Hm).
  exists s. split; auto.
  apply (pick_none_returned items options agent).
  - eapply exec_Inv; eauto. apply Inv_init.
  - exact Hb.
  - apply Hm. lia.
Qed.

(** ** What holds once [results] is closed *)

Lemma reachable_Inv items options sched s :
  Z.of_nat (length items) <= GoInt.max_int ->
  exec items options sched (start items) = Some s ->
  Inv items options s.
Proof.
  intros Hn He. eapply exec_Inv; eauto. apply Inv_init.
Qed.

Lemma closed_results_pool items options s :
  Inv items options s ->
  Chan.closed (results s) = true ->
  live (workers s) = 0%nat /\ closer_started_at (pc s) = true.
Proof.
  intros HI Hclosed.
  pose proof (inv_results_closed HI) as Hrc. rewrite Hclosed in Hrc.
  destruct (closer s) eqn:Hc; try discriminate.
  pose proof (inv_closer_wg HI (or_intror Hc)).
  pose proof (inv_wg HI).
  pose proof (inv_closer HI) as Hcl. rewrite Hc in Hcl.
  split; [lia|auto].
Qed.

Lemma commands_executed isPermanent t :
  Forall (is_delete isPermanent) t ->
  commands t = map (fun itemID => delete_argv itemID isPermanent) (executed t).
Proof.
  unfold executed. induction 1 as [|e t He _ IH]; simpl; auto.
  destruct e; simpl; auto. simpl in He. rewrite <- He. f_equal. auto.
Qed.

(** With a pool, a closed [results] means every identifier has been
    delivered, attempted and emitted; what is not observed yet is still in
    the buffer. *)
Lemma closed_results_all_emitted items options s :
  Inv items options s ->
  Chan.closed (results s) = true ->
  1 <= batchSize options ->
  Permutation (delivered (trace s)) (map ID items)
  /\ Permutation (executed (trace s)) (map ID items)
  /\ Permutation (emitted (trace s)) (map ID items)
  /\ Permutation (Chan.buf (results s) ++ observed (trace s)) (map ID items).
Proof.
  intros HI Hclosed Hb.
  destruct (closed_results_pool _ _ _ HI Hclosed) as [Hlive Hstarted].
  destruct (live_zero_holds_nothing _ Hlive) as [Hx Hs].
  assert (Hover : spawning_over (pc s) = true) by (destruct (pc s); auto).
  pose proof (inv_pool HI Hover Hb) as Hne.
  assert (Hfin : (0 < finished (workers s))%nat).
  { pose proof (live_finished (workers s)).
    destruct (workers s); [congruence|]. simpl in *. lia. }
  destruct (inv_finished HI Hfin) as [_ Hjobs].
  pose proof (inv_jobs HI) as Hj. pose proof (inv_delivered HI) as Hd.
  pose proof (inv_executed HI) as He. pose proof (inv_emitted HI) as Hm.
  rewrite Hjobs in Hj. rewrite Hx in Hd. rewrite Hs in He.
  assert (Hp : pending items (pc s) = []) by (destruct (pc s); auto; discriminate).
  rewrite Hp in Hj. simpl in *.
  repeat split.
  - symmetry; auto.
  - rewrite <- Hd. symmetry; auto.
  - rewrite <- He, <- Hd. symmetry; auto.
  - rewrite <- Hm, <- He, <- Hd. symmetry; auto.
Qed.

Lemma returned_every_job_once items options s :
  Inv items options s ->
  pc s = MReturn ->
  1 <= batchSize options ->
  every_job_once items options (stats s) (trace s).
Proof.
  intros HI Hpc Hb.
  destruct (inv_drained HI (or_intror Hpc)) as [Hclosed Hbuf].
  destruct (closed_results_all_emitted _ _ _ HI Hclosed Hb) as (Hd & Hx & He & Ho).
  rewrite Hbuf in Ho. simpl in Ho.
  constructor; auto.
  - rewrite (commands_executed _ _ (inv_commands HI)).
    unfold delete_commands. apply Permutation_map. auto.
  - rewrite (inv_completed HI). f_equal.
    rewrite (Permutation_length Ho). apply length_map.
Qed.


(** ** The last step of a run that returned *)

Lemma other_step_pc items options c s s' :
  c <> RunMain ->
  step items options c s = Some s' ->
  pc s' = pc s.
Proof.
  intros Hc. unfold step. destruct (panicked s); [discriminate|].
  destruct c as [| |i p]; [congruence| |].
  - unfold closer_step. destruct (closer s); try discriminate.
    + destruct (_ =? _); intros [= <-]; auto.
    + destruct (Chan.closed _); intros [= <-]; auto.
  - unfold worker_step. destruct (nth_error _ _) as [w|]; [|discriminate].
    destruct (wpc w); try discriminate.
    + destruct (Chan.recv _); try discriminate.
      * intros [= <-]; auto.
      * destruct (GoSync.Add _ _); intros [= <-]; auto.
    + destruct (GoExec.Run p); intros [= <-]; auto.
    + destruct (Chan.send _ _); intros [= <-]; auto.
Qed.

Lemma step_to_return items options c s s' :
  step items options c s = Some s' ->
  pc s' = MReturn ->
  pc s = MReturn
  \/ (pc s = MShow
      /\ s' = set_pc MReturn (emit (showCompletionMessage (stats s) options) s)).
Proof.
  unfold step. destruct (panicked s); [discriminate|].
  destruct c as [| |i p].
  - unfold main_step. destruct (pc s) eqn:Hpc; auto.
    + destruct (_ <? _); intros [= <-]; simpl; rewrite ?Hpc; discriminate.
    + destruct (_ <=? _); [destruct (GoSync.Add _ _)|]; intros [= <-]; simpl;
        rewrite ?Hpc; discriminate.
    + destruct rest;
        [destruct (Chan.closed _); intros [= <-]; simpl; try rewrite Hpc;
         discriminate|].
      destruct (Chan.send _ _); intros [= <-]; simpl; try rewrite Hpc; discriminate.
    + intros [= <-]; discriminate.
    + destruct (Chan.recv _); intros [= <-]; simpl; try rewrite Hpc; discriminate.
    + intros [= <-]. auto.
  - unfold closer_step. destruct (closer s); try discriminate.
    + destruct (_ =? _); intros [= <-]; auto.
    + destruct (Chan.closed _); intros [= <-]; auto.
  - unfold worker_step. destruct (nth_error _ _) as [w|]; [|discriminate].
    destruct (wpc w); try discriminate.
    + destruct (Chan.recv _); try discriminate.
      * intros [= <-]; auto.
      * destruct (GoSync.Add _ _); intros [= <-]; auto.
    + destruct (GoExec.Run p); intros [= <-]; auto.
    + destruct (Chan.send _ _); intros [= <-]; auto.
Qed.


Lemma processItems_Finished items options sched res :
  processItems items (stats_of items) options sched = Finished res ->
  exists s,
    exec items options sched (start items) = Some s
    /\ pc s = MReturn /\ res = (None, stats s, trace s).
Proof.
  unfold processItems, start.
  destruct (exec _ _ _ _) as [s|]; [|discriminate].
  destruct (panicked s); [discriminate|].
  destruct (pc s) eqn:Hpc; try discriminate.
  intros [= <-]. eauto.
Qed.

Lemma processItems_returned items options sched s :
  Z.of_nat (length items) <= GoInt.max_int ->
  exec items options sched (start items) = Some s ->
  pc s = MReturn ->
  processItems items (stats_of items) options sched
  = Finished (None, stats s, trace s).
Proof.
  intros Hn He Hpc. pose proof (reachable_Inv _ _ _ _ Hn He) as HI.
  unfold processItems. unfold start in He. rewrite He.
  rewrite (not_panicked_at _ _ _ HI), Hpc; [reflexivity|].
  intros w. congruence.
Qed.

(** ** The spawn loop past the range of the counter *)

(** With a batch size the counter of the wait group cannot hold,
    [processItems] never leaves the spawn loop: the test [w <= batchSize]
    holds at every pass until [wg.Add] panics. *)
Lemma spawn_loop_never_left items options sched s :
  Z.of_nat (length items) <= GoInt.max_int ->
  GoSync.max_counter < batchSize options ->
  exec items options sched (start items) = Some s ->
  pc s = MStart \/ exists w, pc s = MSpawn w.
Proof.
  intros Hn Hb. revert s.
  induction sched as [|c sched IH] using rev_ind; intros s.
  - simpl. intros [= <-]. left. reflexivity.
  - rewrite exec_app.
    destruct (exec items options sched (start items)) as [s0|] eqn:He;
      [|discriminate].
    specialize (IH s0 eq_refl). simpl.
    pose proof (reachable_Inv _ _ _ _ Hn He) as HI.
    destruct (step items options c s0) as [s1|] eqn:Hs; [|discriminate].
    intros [= <-].
    destruct c as [| |i p].
    + revert Hs. unfold step. destruct (panicked s0); [discriminate|].
      unfold main_step.
      destruct IH as [Hpc|(w & Hpc)]; rewrite Hpc.
      * destruct (_ <? _); intros [= <-]; simpl; eauto.
      * pose proof (inv_spawning HI Hpc) as Hw.
        pose proof (inv_wg_max HI) as Hmax.
        destruct (Z.leb_spec w (batchSize options)); [|lia].
        destruct (GoSync.Add _ _); intros [= <-]; simpl; eauto.
    + rewrite (other_step_pc items options RunCloser s0 s1
                 ltac:(discriminate) Hs). exact IH.
    + rewrite (other_step_pc items options (RunWorker i p) s0 s1
                 ltac:(discriminate) Hs). exact IH.
Qed.

(** ** The batch deletion engine *)

(** C1.  For every number of jobs and every batch size of at least one, a
    full run of [processItems] (one that reaches its return) leaves no
    goroutine behind and has delivered every identifier to a worker once,
    attempted it once, emitted it once and observed it once, with
    [completed] equal to the number of jobs.  Full runs exist as far as the
    wait group can count: for a batch size up to 2^31 - 1 every run is
    finite, never panics and never deadlocks before the return, and the
    scheduler of this file reaches the return whatever the delete commands
    return with.  That every delete command returns is an assumption of
    this: there is no timeout, and as long as a worker is inside its delete
    command [processItems] has not left the consumer loop.  Beyond 2^31 - 1
    workers [wg.Add] panics in the spawn loop and no run is full. *)
Theorem processItems_completes_every_job :
  forall (items : list BitwardenItem) (options : CommandOptions),
    Z.of_nat (length items) <= GoInt.max_int ->
    1 <= batchSize options ->
    (forall sched s,
        exec items options sched (start items) = Some s ->
        pc s = MReturn ->
        stuck items options s
        /\ every_job_once items options (stats s) (trace s)
        /\ processItems items (stats_of items) options sched
           = Finished (None, stats s, trace s))
    /\ (forall sched err st t,
           processItems items (stats_of items) options sched
           = Finished (err, st, t) ->
           err = None /\ every_job_once items options st t)
    /\ (batchSize options <= GoSync.max_counter ->
        (forall sched s,
            exec items options sched (start items) = Some s ->
            panicked s = false
            /\ (length sched <= measure items options (start items))%nat
            /\ (pc s <> MReturn ->
                exists c s', step items options c s = Some s'))
        /\ forall agent, exists st t,
             processItems items (stats_of items) options
               (schedule items options agent
                  (measure items options (start items)) (start items))
             = Finished (None, st, t)
             /\ every_job_once items options st t)
    /\ (GoSync.max_counter < batchSize options ->
        forall sched res,
          processItems items (stats_of items) options sched <> Finished res)
    /\ (forall sched s i w itemID,
           exec items options sched (start items) = Some s ->
           nth_error (workers s) i = Some w ->
           wpc w = WExec itemID ->
           pc s <> MShow /\ pc s <> MReturn).
Proof.
  intros items options Hn Hb. split; [|split; [|split; [|split]]].
  - intros sched s He Hpc.
    pose proof (reachable_Inv _ _ _ _ Hn He) as HI.
    split; [apply returned_stuck; auto|]. split.
    + apply returned_every_job_once; auto.
    + apply processItems_returned; auto.
  - intros sched err st t Hp.
    destruct (processItems_Finished _ _ _ _ Hp) as (s & He & Hpc & E).
    pose proof (reachable_Inv _ _ _ _ Hn He) as HI.
    pose proof (returned_every_job_once _ _ _ HI Hpc Hb) as Honce.
    assert (E1 : err = None) by congruence.
    assert (E2 : st = stats s) by congruence.
    assert (E3 : t = trace s) by congruence.
    subst. auto.
  - intros Hsmall. split.
    + intros sched s He.
      pose proof (reachable_Inv _ _ _ _ Hn He) as HI.
      split; [apply (not_panicked _ _ _ HI Hsmall)|]. split.
      * pose proof (exec_bounded items options sched
                      (counter_below_int _ Hsmall) _ _ He). lia.
      * intros Hpc.
        destruct (progress items options (fun _ => Sample.silent)
                    s HI Hsmall Hpc) as (c & _ & Hc).
        exists c. destruct (step items options c s) as [s'|]; [eauto|congruence].
    + intros agent.
      destruct (run_exists items options agent Hn Hsmall) as (s & He & Hpc).
      exists (stats s), (trace s). split.
      * apply processItems_returned; auto.
      * apply returned_every_job_once; auto.
        eapply reachable_Inv; eauto.
  - intros Hbig sched res Hp.
    destruct (processItems_Finished _ _ _ _ Hp) as (s & He & Hpc & _).
    destruct (spawn_loop_never_left _ _ _ _ Hn Hbig He) as [H|(w & H)];
      congruence.
  - intros sched s i w itemID He Hnth Hw.
    pose proof (reachable_Inv _ _ _ _ Hn He) as HI.
    assert (Hrun : ~ (pc s = MShow \/ pc s = MReturn)).
    { intros Hpc. destruct (inv_drained HI Hpc) as [Hclosed _].
      destruct (closed_results_pool _ _ _ HI Hclosed) as [Hlive _].
      pose proof (live_zero_done _ _ _ Hlive Hnth). congruence. }
    split; intros Hpc; apply Hrun; auto.
Qed.

(** ** Failures in the trace *)













(** C6, as stated, with a batch size of zero: the run is complete
    ([processItems] has returned, the consumer loop is over, [results] is
    closed) and [completed] is 0 while [total] is 3. *)
Lemma complete_run_with_nothing_counted :
  exists s,
    exec Sample.items (Sample.options 0) Sample.run_without_pool
      (start Sample.items) = Some s
    /\ pc s = MReturn /\ range_over s /\ Chan.closed (results s) = true
    /\ completed (stats s) = 0 /\ total (stats s) = 3
    /\ completed (stats s) <> total (stats s).
Proof.
  eexists. split; [vm_compute; reflexivity|].
  repeat split; discriminate.
Qed.

(** C6, amended.  In every state a run can reach, [completed] lies between
    zero and [total]; no step and no sequence of steps makes it smaller or
    changes [total].  With a batch size of at least one, [completed] equals
    [total] with [results] closed exactly when [results] is closed and
    drained; this holds once the consumer loop is over, and when it holds
    the consumer loop is over or is at its last receive: the only step left
    in the state is the receive of [processResults] that finds the channel
    closed and ends the loop with the statistics unchanged. *)
Theorem completed_monotone_bounded_complete :
  forall (items : list BitwardenItem) (options : CommandOptions) sched s,
    Z.of_nat (length items) <= GoInt.max_int ->
    exec items options sched (start items) = Some s ->
    0 <= completed (stats s) <= total (stats s)
    /\ (forall sched' s',
           exec items options sched' s = Some s' ->
           completed (stats s) <= completed (stats s')
           /\ total (stats s') = total (stats s))
    /\ (1 <= batchSize options ->
        (range_over s <->
         completed (stats s) = total (stats s)
         /\ Chan.closed (results s) = true)
        /\ (pc s = MShow \/ pc s = MReturn -> range_over s)
        /\ (range_over s -> pc s = MRange \/ pc s = MShow \/ pc s = MReturn)
        /\ (range_over s -> pc s = MRange ->
            (forall c, c <> RunMain -> step items options c s = None)
            /\ exists s',
                 step items options RunMain s = Some s'
                 /\ pc s' = MShow /\ stats s' = stats s
                 /\ trace s' = trace s ++ [Print Msg.nl])).
Proof.
  intros items options sched s Hn He.
  pose proof (reachable_Inv _ _ _ _ Hn He) as HI.
  assert (Hbound : forall s0, Inv items options s0 ->
                     0 <= completed (stats s0) <= total (stats s0)).
  { intros s0 H0. rewrite (inv_completed H0), (inv_total H0).
    pose proof (Permutation_length (inv_jobs H0)) as L1.
    pose proof (Permutation_length (inv_delivered H0)) as L2.
    pose proof (Permutation_length (inv_executed H0)) as L3.
    pose proof (Permutation_length (inv_emitted H0)) as L4.
    rewrite ?length_app, ?length_map in *. lia. }
  split; [auto|]. split.
  - intros sched'. clear He. revert s HI.
    induction sched' as [|c sched' IH]; simpl; intros s HI s'.
    + intros [= <-]. lia.
    + destruct (step items options c s) as [s1|] eqn:Hs; [|discriminate].
      intros He'.
      pose proof (step_Inv _ _ _ _ _ Hn HI Hs) as HI1.
      assert (Hstep : completed (stats s) <= completed (stats s1)
                      /\ total (stats s1) = total (stats s)).
      { split; [|rewrite (inv_total HI1), (inv_total HI); reflexivity].
        rewrite (inv_completed HI1), (inv_completed HI).
        clear - Hs. apply inj_le. revert Hs. unfold step.
        destruct (panicked s); [discriminate|].
        destruct c as [| |i p].
        - unfold main_step. destruct (pc s); try discriminate.
          + destruct (_ <? _); intros [= <-]; simpl; rewrite observed_app; simpl;
              rewrite app_nil_r; auto.
          + destruct (_ <=? _); [destruct (GoSync.Add _ _)|]; intros [= <-]; simpl; auto.
          + destruct rest;
              [destruct (Chan.closed _); intros [= <-]; simpl; auto|].
            destruct (Chan.send _ _); intros [= <-]; simpl; auto.
          + intros [= <-]; simpl; auto.
          + destruct (Chan.recv _); intros [= <-]; simpl; rewrite observed_app;
              simpl; rewrite ?length_app; simpl; lia.
          + intros [= <-]; simpl. rewrite observed_app. simpl.
            rewrite app_nil_r. auto.
        - unfold closer_step. destruct (closer s); try discriminate.
          + destruct (_ =? _); intros [= <-]; simpl; auto.
          + destruct (Chan.closed _); intros [= <-]; simpl; auto.
        - unfold worker_step. destruct (nth_error _ _) as [w|]; [|discriminate].
          destruct (wpc w); try discriminate.
          + destruct (Chan.recv _); try discriminate.
            * intros [= <-]; simpl. rewrite observed_app. simpl.
              rewrite app_nil_r. auto.
            * destruct (GoSync.Add _ _); intros [= <-]; simpl; auto.
          + destruct (GoExec.Run p); intros [= <-]; simpl; rewrite observed_app;
              simpl; rewrite app_nil_r; auto.
          + destruct (Chan.send _ _); intros [= <-]; simpl; auto.
            rewrite observed_app. simpl. rewrite app_nil_r. auto. }
      destruct (IH s1 HI1 s' He'). lia.
  - intros Hb.
    assert (Hiff : range_over s <->
                   completed (stats s) = total (stats s)
                   /\ Chan.closed (results s) = true).
    { unfold range_over, Chan.recv. split.
      - destruct (Chan.buf (results s)) eqn:Hbuf; [|discriminate].
        destruct (Chan.closed (results s)) eqn:Hclosed; [|discriminate].
        intros _. split; auto.
        destruct (closed_results_all_emitted _ _ _ HI Hclosed Hb) as (_ & _ & _ & Ho).
        rewrite Hbuf in Ho. simpl in Ho.
        rewrite (inv_completed HI), (inv_total HI), (Permutation_length Ho).
        rewrite length_map. reflexivity.
      - intros [Heq Hclosed].
        destruct (closed_results_all_emitted _ _ _ HI Hclosed Hb) as (_ & _ & _ & Ho).
        rewrite (inv_completed HI), (inv_total HI) in Heq.
        apply Permutation_length in Ho. rewrite length_app, length_map in Ho.
        rewrite Hclosed. destruct (Chan.buf (results s)); auto.
        simpl in Ho. lia. }
    split; auto. split; [|split].
    + intros Hpc. destruct (inv_drained HI Hpc) as [Hclosed Hbuf].
      unfold range_over, Chan.recv. rewrite Hbuf, Hclosed. reflexivity.
    + intros Hover. apply Hiff in Hover. destruct Hover as [_ Hclosed].
      destruct (closed_results_pool _ _ _ HI Hclosed) as [_ Hst].
      destruct (pc s); auto; discriminate.
    + intros Hover Hpc. pose proof Hover as Hrecv.
      apply Hiff in Hover. destruct Hover as [_ Hclosed].
      destruct (closed_results_pool _ _ _ HI Hclosed) as [Hlive _].
      assert (Hok : panicked s = false)
        by (apply (not_panicked_at _ _ _ HI); intros w; congruence).
      split.
      * intros c Hc. unfold step. rewrite Hok.
        destruct c as [| |i p]; [congruence| |].
        -- unfold closer_step.
           pose proof (inv_results_closed HI) as Hrc. rewrite Hclosed in Hrc.
           destruct (closer s); try discriminate; reflexivity.
        -- unfold worker_step.
           destruct (nth_error (workers s) i) as [w|] eqn:Hnth; auto.
           rewrite (live_zero_done _ _ _ Hlive Hnth). reflexivity.
      * unfold step. rewrite Hok. unfold main_step. rewrite Hpc.
        unfold range_over in Hrecv. rewrite Hrecv.
        eexists. split; [reflexivity|]. simpl. auto.
Qed.

(** ** The confirmation *)

Lemma not_space_not_newline r : GoFmt.isSpace r = false -> (r =? GoFmt.newline) = false.
Proof.
  unfold GoFmt.newline. destruct (Z.eqb_spec r 10) as [->|]; auto.
Qed.

Lemma SkipSpace_blanks lead input :
  Forall (fun r => blank r = true) lead ->
  GoFmt.SkipSpace (lead ++ input) = GoFmt.SkipSpace input.
Proof.
  induction 1 as [|r lead Hr _ IH]; simpl; auto.
  unfold blank in Hr. apply andb_prop in Hr. destruct Hr as [Hs Hn].
  apply negb_true_iff in Hn. rewrite Hn, Hs. auto.
Qed.

Lemma SkipSpace_word r input :
  GoFmt.isSpace r = false -> GoFmt.SkipSpace (r :: input) = inr (r :: input).
Proof.
  intros H. simpl. rewrite (not_space_not_newline _ H), H. reflexivity.
Qed.

Lemma token_word word input :
  Forall (fun r => GoFmt.isSpace r = false) word ->
  (input = [] \/ exists r rest, input = r :: rest /\ GoFmt.isSpace r = true) ->
  GoFmt.token (word ++ input) = (word, input).
Proof.
  intros Hw Hi. induction Hw as [|r word Hr _ IH]; simpl.
  - destruct Hi as [->|(r & rest & -> & Hr)]; simpl; auto. rewrite Hr. auto.
  - rewrite Hr, IH. reflexivity.
Qed.

Lemma expectNewline_text blanks r rest :
  Forall (fun r => blank r = true) blanks ->
  GoFmt.isSpace r = false ->
  GoFmt.expectNewline (blanks ++ r :: rest) = Some GoFmt.ExpectedNewline.
Proof.
  intros Hb Hr. induction Hb as [|b blanks Hb _ IH]; simpl.
  - rewrite (not_space_not_newline _ Hr), Hr. reflexivity.
  - unfold blank in Hb. apply andb_prop in Hb. destruct Hb as [Hs Hn].
    apply negb_true_iff in Hn. rewrite Hn, Hs. auto.
Qed.

(** C10.  [fmt.Scanln] reads one word: when the line goes on after the
    first word (a word, at least one space, and more text, as in "yes
    please"), the read fails with "expected newline" whatever the word is,
    [confirmDeletion] prints the read error and answers no. *)
Theorem text_after_the_answer_declines :
  forall (env : Env) (stats : DeleteStats) (options : CommandOptions)
         (lead word blanks : list rune) (r : rune) (rest : list rune),
    Forall (fun r => blank r = true) lead ->
    word <> [] ->
    Forall (fun r => GoFmt.isSpace r = false) word ->
    blanks <> [] ->
    Forall (fun r => blank r = true) blanks ->
    GoFmt.isSpace r = false ->
    stdin env = lead ++ word ++ blanks ++ r :: rest ->
    GoFmt.Scanln (stdin env) = inl GoFmt.ExpectedNewline
    /\ confirmDeletion env stats options
       = (false,
          [Print (Msg.prompt (isPermanent options) (total stats));
           Print (Msg.read_error GoFmt.ExpectedNewline)]).
Proof.
  intros env stats options lead word blanks r rest Hl Hne Hw Hbn Hb Hr Hin.
  assert (Hscan : GoFmt.Scanln (stdin env) = inl GoFmt.ExpectedNewline).
  { rewrite Hin. unfold GoFmt.Scanln. rewrite SkipSpace_blanks by auto.
    destruct word as [|w word]; [congruence|].
    inversion Hw as [|? ? Hw1 Hw2]; subst.
    change ((w :: word) ++ blanks ++ r :: rest)
      with (w :: (word ++ blanks ++ r :: rest)).
    rewrite SkipSpace_word by auto.
    change (w :: word ++ blanks ++ r :: rest)
      with ((w :: word) ++ (blanks ++ r :: rest)).
    rewrite token_word; auto.
    - rewrite expectNewline_text; auto.
    - right. destruct blanks as [|b blanks]; [congruence|].
      inversion Hb as [|? ? Hb1 Hb2]; subst.
      exists b, (blanks ++ r :: rest). split; auto.
      unfold blank in Hb1. apply andb_prop in Hb1. tauto. }
  split; auto.
  unfold confirmDeletion. rewrite Hscan. reflexivity.
Qed.

Lemma rune_eqb_eq a b : GoStrings.rune_eqb a b = true <-> a = b.
Proof.
  revert b. induction a as [|x a IH]; intros [|y b]; simpl; split;
    try congruence; try discriminate.
  - intros H. apply andb_prop in H. destruct H as [H1 H2].
    apply Z.eqb_eq in H1. apply IH in H2. congruence.
  - intros [= -> ->]. rewrite Z.eqb_refl. apply IH. reflexivity.
Qed.

Lemma ToLowerRune_ascii tables r c :
  lower_is_not_yes tables ->
  c = 0x79 \/ c = 0x65 \/ c = 0x73 ->
  GoStrings.ToLowerRune tables r = c <-> r = c \/ r = c - 0x20.
Proof.
  intros Ht Hc. unfold GoStrings.ToLowerRune.
  destruct (Z.leb_spec r 0x7f).
  - destruct (Z.leb_spec 0x41 r); destruct (Z.leb_spec r 0x5a); simpl; lia.
  - destruct (Ht r ltac:(lia)) as (H1 & H2 & H3). lia.
Qed.

Lemma ToLower_yes tables word :
  lower_is_not_yes tables ->
  (GoStrings.ToLower tables word = GoStrings.runes "y"
   \/ GoStrings.ToLower tables word = GoStrings.runes "yes")
  <-> In word affirmative.
Proof.
  intros Ht. unfold GoStrings.ToLower, affirmative. simpl.
  pose proof (fun r => ToLowerRune_ascii tables r 0x79 Ht ltac:(lia)) as Hy.
  pose proof (fun r => ToLowerRune_ascii tables r 0x65 Ht ltac:(lia)) as He.
  pose proof (fun r => ToLowerRune_ascii tables r 0x73 Ht ltac:(lia)) as Hs.
  split.
  - intros [H|H].
    + destruct word as [|a [|? ?]]; simpl in H; try discriminate.
      injection H as H. apply Hy in H. destruct H as [->| ->]; simpl; auto.
    + destruct word as [|a [|b [|c [|? ?]]]]; simpl in H; try discriminate.
      injection H as H1 H2 H3.
      apply Hy in H1. apply He in H2. apply Hs in H3.
      destruct H1 as [->| ->], H2 as [->| ->], H3 as [->| ->]; simpl; tauto.
  - intros H.
    repeat (destruct H as [<-|H]; [vm_compute; auto|]). destruct H.
Qed.

(** ** [runBulkDelete], case by case *)

Lemma total_positive (items : list BitwardenItem) :
  items <> [] -> (total (stats_of items) >? 0) = true.
Proof.
  intros H. destruct items; [congruence|]. reflexivity.
Qed.

Lemma runBulkDelete_no_client env options sched err :
  checkBitwardenCLI env = Some err ->
  runBulkDelete env options sched
  = Finished {| returned := Some err; final_stats := None; events := [] |}.
Proof. intros H. unfold runBulkDelete. rewrite H. reflexivity. Qed.

Lemma runBulkDelete_listing_failed env options sched err :
  checkBitwardenCLI env = None ->
  fst (fetchBitwardenItems env (searchTerm options)) = inr err ->
  runBulkDelete env options sched
  = Finished {| returned := Some err; final_stats := None;
                events := prelude env options |}.
Proof.
  intros Hc Hf. unfold runBulkDelete, prelude. rewrite Hc.
  destruct (syncBitwarden _ _) as [e1 t2].
  destruct (fetchBitwardenItems _ _) as [f t4]. simpl in *. subst f.
  reflexivity.
Qed.

Lemma runBulkDelete_nothing_listed env options sched :
  checkBitwardenCLI env = None ->
  fst (fetchBitwardenItems env (searchTerm options)) = inl [] ->
  runBulkDelete env options sched
  = Finished {| returned := None; final_stats := Some (stats_of []);
                events := prelude env options ++ displayItemCount (stats_of []) |}.
Proof.
  intros Hc Hf. unfold runBulkDelete, prelude. rewrite Hc.
  destruct (syncBitwarden _ _) as [e1 t2].
  destruct (fetchBitwardenItems _ _) as [f t4]. simpl in *. subst f. simpl.
  rewrite <- !app_assoc. reflexivity.
Qed.

Lemma runBulkDelete_declined env options sched items :
  checkBitwardenCLI env = None ->
  fst (fetchBitwardenItems env (searchTerm options)) = inl items ->
  items <> [] ->
  fst (confirmDeletion env (stats_of items) options) = false ->
  runBulkDelete env options sched
  = Finished {| returned := None; final_stats := Some (stats_of items);
                events := prelude env options
                          ++ displayItemCount (stats_of items)
                          ++ snd (confirmDeletion env (stats_of items) options)
                          ++ [Print Msg.cancelled] |}.
Proof.
  intros Hc Hf Hne Hno. unfold runBulkDelete, prelude. rewrite Hc.
  destruct (syncBitwarden _ _) as [e1 t2].
  destruct (fetchBitwardenItems _ _) as [f t4]. simpl in Hf. subst f.
  fold (stats_of items). rewrite (total_positive _ Hne).
  destruct (confirmDeletion _ _ _) as [b t6]. simpl in Hno. subst b. simpl.
  rewrite <- !app_assoc. reflexivity.
Qed.

Lemma runBulkDelete_deleting env options sched items :
  reaches_deletion env options items ->
  items <> [] ->
  runBulkDelete env options sched
  = match processItems items (stats_of items) options sched with
    | Unfinished => Unfinished
    | Crashed => Crashed
    | Finished (Some err, stats1, t) =>
        Finished {| returned := Some err; final_stats := Some stats1;
                    events := prelude env options
                              ++ displayItemCount (stats_of items)
                              ++ snd (confirmDeletion env (stats_of items) options)
                              ++ t |}
    | Finished (None, stats1, t) =>
        Finished {| returned := None; final_stats := Some stats1;
                    events := prelude env options
                              ++ displayItemCount (stats_of items)
                              ++ snd (confirmDeletion env (stats_of items) options)
                              ++ t
                              ++ snd (syncBitwarden (bw_sync_after env) EmptyString)
                              ++ match fst (syncBitwarden (bw_sync_after env) EmptyString) with
                                 | Some _ => [Print Msg.final_sync_failed]
                                 | None => []
                                 end |}
    end.
Proof.
  intros (Hc & Hf & Hyes) Hne. unfold runBulkDelete, prelude. rewrite Hc.
  destruct (syncBitwarden (bw_sync_before env) _) as [e1 t2].
  destruct (fetchBitwardenItems _ _) as [f t4]. simpl in Hf. subst f.
  fold (stats_of items). rewrite (total_positive _ Hne).
  destruct (confirmDeletion _ _ _) as [b t6]. simpl in Hyes. subst b. simpl.
  destruct (processItems _ _ _ _) as [[[[err|] st] t]| |]; auto.
  - rewrite <- !app_assoc. reflexivity.
  - destruct (syncBitwarden (bw_sync_after env) _) as [e2 t8]. simpl.
    rewrite <- !app_assoc. reflexivity.
Qed.

(** ** No delete command outside [processItems] *)

Lemma deletions_app t t' : deletions (t ++ t') = deletions t ++ deletions t'.
Proof. unfold deletions. rewrite commands_app. apply filter_app. Qed.

Lemma deletions_sync p context : deletions (snd (syncBitwarden p context)) = [].
Proof.
  unfold syncBitwarden. destruct (GoExec.CombinedOutput p) as [out [e|]];
    reflexivity.
Qed.

Lemma deletions_fetch env term :
  deletions (snd (fetchBitwardenItems env term)) = [].
Proof.
  unfold fetchBitwardenItems.
  destruct (GoExec.Output _) as [out [e|]]; [reflexivity|].
  destruct (json_Unmarshal env out); reflexivity.
Qed.

Lemma deletions_prelude env options : deletions (prelude env options) = [].
Proof.
  unfold prelude. rewrite !deletions_app, deletions_sync, deletions_fetch.
  destruct (fst (syncBitwarden _ _)); reflexivity.
Qed.

Lemma deletions_confirm env stats options :
  deletions (snd (confirmDeletion env stats options)) = [].
Proof.
  unfold confirmDeletion. destruct (GoFmt.Scanln _); reflexivity.
Qed.

Lemma prelude_no_channel_event env options :
  emitted (prelude env options) = [] /\ observed (prelude env options) = [].
Proof.
  unfold prelude, syncBitwarden, fetchBitwardenItems.
  rewrite !emitted_app, !observed_app.
  destruct (GoExec.CombinedOutput _) as [? [?|]];
    destruct (GoExec.Output _) as [? [?|]]; simpl;
    try destruct (json_Unmarshal _ _); simpl; auto.
Qed.

Lemma confirm_no_channel_event env stats options :
  emitted (snd (confirmDeletion env stats options)) = []
  /\ observed (snd (confirmDeletion env stats options)) = [].
Proof.
  unfold confirmDeletion. destruct (GoFmt.Scanln _); simpl; auto.
Qed.

(** C5.  [confirmDeletion] answers yes exactly when the read succeeds and
    the word read is "y" or "yes" once lowered; when no rune outside ASCII
    lowers to one of these letters, these are the ten spellings of
    [affirmative].  After any other answer, a failed read included, the run
    executes no delete command, leaves [completed] at zero and ends with
    status zero. *)
Theorem only_y_or_yes_confirms :
  forall (env : Env) (flags : Flags) (items : list BitwardenItem),
    let options := parseCommandLineOptions flags in
    checkBitwardenCLI env = None ->
    fst (fetchBitwardenItems env (searchTerm options)) = inl items ->
    items <> [] ->
    (fst (confirmDeletion env (stats_of items) options) = true <->
     exists word,
       GoFmt.Scanln (stdin env) = inr word
       /\ (GoStrings.ToLower (unicode_tables env) word = GoStrings.runes "y"
           \/ GoStrings.ToLower (unicode_tables env) word = GoStrings.runes "yes"))
    /\ (lower_is_not_yes (unicode_tables env) ->
        (fst (confirmDeletion env (stats_of items) options) = true <->
         exists word, GoFmt.Scanln (stdin env) = inr word /\ In word affirmative))
    /\ (fst (confirmDeletion env (stats_of items) options) = false ->
        forall sched,
        exists r,
          main env flags sched = Finished (0, r)
          /\ returned r = None
          /\ final_stats r
             = Some {| total := Z.of_nat (length items); completed := 0 |}
          /\ deletions (events r) = []
          /\ emitted (events r) = [] /\ observed (events r) = []
          /\ exists t, events r = t ++ [Print Msg.cancelled]).
Proof.
  intros env flags items options Hc Hf Hne.
  assert (Hiff : fst (confirmDeletion env (stats_of items) options) = true <->
     exists word,
       GoFmt.Scanln (stdin env) = inr word
       /\ (GoStrings.ToLower (unicode_tables env) word = GoStrings.runes "y"
           \/ GoStrings.ToLower (unicode_tables env) word = GoStrings.runes "yes")).
  { unfold confirmDeletion.
    destruct (GoFmt.Scanln (stdin env)) as [e|word]; simpl.
    - split; [discriminate|]. intros (w & H & _). discriminate.
    - rewrite orb_true_iff, !rune_eqb_eq. split.
      + intros H. exists word. auto.
      + intros (w & [= <-] & H). auto. }
  split; [exact Hiff|]. split.
  - intros Ht. rewrite Hiff. split; intros (word & Hs & H); exists word;
      split; auto; apply (ToLower_yes _ word Ht); auto.
  - intros Hno sched. unfold main. fold options.
    rewrite (runBulkDelete_declined env options sched items Hc Hf Hne Hno).
    cbn [returned]. eexists. split; [reflexivity|].
    cbn [returned final_stats events].
    destruct (prelude_no_channel_event env options) as [Pe Po].
    destruct (confirm_no_channel_event env (stats_of items) options) as [Ce Co].
    repeat split; auto.
    + rewrite !deletions_app, deletions_prelude, deletions_confirm. reflexivity.
    + rewrite !emitted_app, Pe, Ce. reflexivity.
    + rewrite !observed_app, Po, Co. reflexivity.
    + eexists. rewrite !app_assoc. reflexivity.
Qed.

(** ** The listing *)

Lemma commands_sync p context :
  commands (snd (syncBitwarden p context)) = [bw_sync_argv].
Proof.
  unfold syncBitwarden. destruct (GoExec.CombinedOutput p) as [out [e|]];
    reflexivity.
Qed.

Lemma commands_fetch env term :
  commands (snd (fetchBitwardenItems env term)) = [list_argv term].
Proof.
  unfold fetchBitwardenItems.
  destruct (GoExec.Output _) as [out [e|]]; [reflexivity|].
  destruct (json_Unmarshal env out); reflexivity.
Qed.

Lemma commands_prelude env options :
  commands (prelude env options) = [bw_sync_argv; list_argv (searchTerm options)].
Proof.
  unfold prelude. rewrite !commands_app, commands_sync, commands_fetch.
  destruct (fst (syncBitwarden _ _)); reflexivity.
Qed.

(** C7.  When the list command succeeds and its output does not parse,
    [fetchBitwardenItems] returns the parse error, which is not the error of
    a failed command; [main] prints it and exits with status 1; the only
    subprocesses of the run are the first sync and the list command, and no
    statistics were ever made. *)
Theorem malformed_listing_is_fatal :
  forall (env : Env) (flags : Flags) (sched : list choice)
         (out : string) (cause : string),
    let options := parseCommandLineOptions flags in
    checkBitwardenCLI env = None ->
    GoExec.Output (sh_c env (listCmd (searchTerm options))) = (out, None) ->
    json_Unmarshal env out = inr cause ->
    fst (fetchBitwardenItems env (searchTerm options))
    = inr (ListParseFailed cause)
    /\ (forall e, ListParseFailed cause <> ListCommandFailed e)
    /\ exists r,
         main env flags sched = Finished (1, r)
         /\ returned r = Some (ListParseFailed cause)
         /\ final_stats r = None
         /\ commands (events r)
            = [bw_sync_argv; list_argv (searchTerm options)]
         /\ deletions (events r) = []
         /\ exists t, events r = t ++ [Print (Msg.fatal (ListParseFailed cause))].
Proof.
  intros env flags sched out cause options Hc Hout Hjson.
  assert (Hf : fst (fetchBitwardenItems env (searchTerm options))
               = inr (ListParseFailed cause)).
  { unfold fetchBitwardenItems. rewrite Hout, Hjson. reflexivity. }
  split; [exact Hf|]. split; [discriminate|].
  unfold main. fold options.
  rewrite (runBulkDelete_listing_failed env options sched _ Hc Hf).
  cbn [returned]. eexists. split; [reflexivity|].
  cbn [returned final_stats events].
  repeat split.
  - rewrite commands_app, commands_prelude. reflexivity.
  - rewrite deletions_app, deletions_prelude. reflexivity.
  - eexists. reflexivity.
Qed.

(** C8.  When the listing is empty the run prints the count and returns at
    once without an error: nothing after [displayItemCount] happens (no
    prompt, no delete command, no second sync), whatever is on standard
    input, and the statistics are [total = completed = 0]; [main] exits with
    status zero. *)
Theorem empty_listing_skips_everything :
  forall (env : Env) (flags : Flags) (sched : list choice),
    let options := parseCommandLineOptions flags in
    checkBitwardenCLI env = None ->
    fst (fetchBitwardenItems env (searchTerm options)) = inl [] ->
    exists r,
      main env flags sched = Finished (0, r)
      /\ returned r = None
      /\ final_stats r = Some {| total := 0; completed := 0 |}
      /\ events r = prelude env options ++ [Print (Msg.found 0)]
      /\ commands (events r) = [bw_sync_argv; list_argv (searchTerm options)]
      /\ deletions (events r) = [].
Proof.
  intros env flags sched options Hc Hf.
  unfold main. fold options.
  rewrite (runBulkDelete_nothing_listed env options sched Hc Hf).
  cbn [returned]. eexists. split; [reflexivity|].
  cbn [returned final_stats events].
  repeat split.
  - rewrite commands_app, commands_prelude. reflexivity.
  - rewrite deletions_app, deletions_prelude. reflexivity.
Qed.

(** ** A batch size below one *)



(** ** The search term on its way to the client *)

Lemma append_snoc (cur : string) (c : ascii) (s : string) :
  ((cur ++ String c EmptyString) ++ s = cur ++ String c s)%string.
Proof.
  induction cur as [|d cur IH]; simpl; auto. rewrite IH. reflexivity.
Qed.

Lemma append_empty (s : string) : (s ++ EmptyString = s)%string.
Proof. induction s as [|c s IH]; simpl; auto. rewrite IH. reflexivity. Qed.

Lemma words_quoted (term cur : string) :
  has_quote term = false ->
  Shell.words_from true true cur (term ++ "'") = Some [(cur ++ term)%string].
Proof.
  revert cur. induction term as [|c term IH]; intros cur Hq.
  - simpl. rewrite append_empty. reflexivity.
  - unfold has_quote in Hq. simpl in Hq. apply orb_false_elim in Hq.
    destruct Hq as [Hc Hq]. simpl. rewrite Hc.
    rewrite (IH _ Hq), append_snoc. reflexivity.
Qed.

Lemma listCmd_with_term (term : string) :
  term <> EmptyString ->
  listCmd term = ("bw list items --search '" ++ term ++ "'")%string.
Proof.
  intros H. unfold listCmd.
  destruct (String.eqb_spec term EmptyString); [congruence|]. reflexivity.
Qed.

(** A term without a single quote reaches the client as one argument, as it
    was given. *)
Lemma quote_free_term_reaches_client (term : string) :
  term <> EmptyString ->
  has_quote term = false ->
  Shell.words (listCmd term)
  = Some ["bw"; "list"; "items"; "--search"; term]%string.
Proof.
  intros Hne Hq. rewrite (listCmd_with_term _ Hne).
  unfold Shell.words. simpl. rewrite (words_quoted term EmptyString Hq). reflexivity.
Qed.

(** The items returned are the ones decoded from the output of the command:
    nothing is filtered afterwards. *)
Lemma fetch_returns_what_was_decoded env term out items :
  GoExec.Output (sh_c env (listCmd term)) = (out, None) ->
  json_Unmarshal env out = inl items ->
  fst (fetchBitwardenItems env term) = inl items.
Proof.
  intros Ho Hj. unfold fetchBitwardenItems. rewrite Ho, Hj. reflexivity.
Qed.

(** C2, at the search term [it's].  The script handed to the shell holds
    the term between single quotes without escaping it; the quote inside
    the term closes the quoting and the last quote opens one that never
    ends, so the shell rejects the script and the client is never run with
    the term.  With [a' 'b] the client gets two arguments, [a] and [b]. *)
Theorem quoted_search_term_breaks_list_command :
  listCmd "it's" = "bw list items --search 'it's'"%string
  /\ Shell.words (listCmd "it's") = None
  /\ Shell.words (listCmd "a' 'b")
     = Some ["bw"; "list"; "items"; "--search"; "a"; "b"]%string.
Proof. repeat split; reflexivity. Qed.

(** ** What the three invocations give back *)

(** C3, as the program is written: two delete commands that differ only in
    what they wrote leave the program in the same state; the output of a
    delete command is not returned, printed or kept. *)
Lemma delete_invocation_loses_output :
  GoExec.wrote (GoExec.Exited 1 EmptyString "Not found." "Not found.")
  <> GoExec.wrote (GoExec.Exited 1 EmptyString EmptyString EmptyString)
  /\ GoExec.Run (GoExec.Exited 1 EmptyString "Not found." "Not found.")
     = GoExec.Run (GoExec.Exited 1 EmptyString EmptyString EmptyString)
  /\ (forall options i s,
        worker_step options i (GoExec.Exited 1 EmptyString "Not found." "Not found.") s
        = worker_step options i (GoExec.Exited 1 EmptyString EmptyString EmptyString) s)
  /\ ~ (exists recover : option GoExec.exec_error -> string,
          forall p, recover (GoExec.Run p) = GoExec.wrote p).
Proof.
  split; [discriminate|]. split; [reflexivity|]. split.
  - intros options i s. unfold worker_step.
    destruct (nth_error (workers s) i) as [w|]; auto.
  - intros [recover H].
    pose proof (H (GoExec.Exited 1 EmptyString "Not found." "Not found.")) as H1.
    pose proof (H (GoExec.Exited 1 EmptyString EmptyString EmptyString)) as H2.
    simpl in H1, H2. congruence.
Qed.

(** C3, amended.  [syncBitwarden] gets the combined output of [bw sync]
    and prints it; [fetchBitwardenItems] gets the standard output of the
    list command alone, and decodes exactly that; [deleteWorker] gets no
    output.  Each of the three gets an error exactly when the subprocess
    did not start or did not exit with status zero. *)
Theorem invocations_return_output_and_error :
  forall p : GoExec.Process,
    (fst (GoExec.CombinedOutput p) = GoExec.wrote p
     /\ forall context,
          fst (syncBitwarden p context) = snd (GoExec.CombinedOutput p)
          /\ In (Print (Msg.command_output
                          (if succeeded p then Msg.emojiSuccess else Msg.emojiError)
                          (GoExec.wrote p)))
                (snd (syncBitwarden p context)))
    /\ (fst (GoExec.Output p) = stdout_of p
        /\ forall env term,
             sh_c env (listCmd term) = p ->
             succeeded p = true ->
             fst (fetchBitwardenItems env term)
             = match json_Unmarshal env (stdout_of p) with
               | inl items => inl items
               | inr cause => inr (ListParseFailed cause)
               end)
    /\ (forall options i s w itemID,
          nth_error (workers s) i = Some w ->
          wpc w = WExec itemID ->
          exists s',
            worker_step options i p s = Some s'
            /\ printed (trace s')
               = printed (trace s)
                 ++ match GoExec.Run p with
                    | Some err => [Msg.delete_error itemID err]
                    | None => []
                    end)
    /\ (snd (GoExec.CombinedOutput p) = None <-> succeeded p = true)
    /\ (snd (GoExec.Output p) = None <-> succeeded p = true)
    /\ (GoExec.Run p = None <-> succeeded p = true).
Proof.
  intros p. repeat split.
  - destruct p; reflexivity.
  - unfold syncBitwarden. destruct (GoExec.CombinedOutput p) as [out [e|]];
      reflexivity.
  - unfold syncBitwarden.
    destruct p as [reason|code out err both]; simpl.
    + auto.
    + destruct (code =? 0); simpl; auto.
  - destruct p; reflexivity.
  - intros env term Hp Hs. unfold fetchBitwardenItems. rewrite Hp.
    destruct p as [reason|code out err both]; simpl in *; [discriminate|].
    rewrite Hs. destruct (json_Unmarshal env out); reflexivity.
  - intros options i s w itemID Hnth Hw. unfold worker_step.
    rewrite Hnth, Hw.
    destruct (GoExec.Run p); eexists; (split; [reflexivity|]); simpl;
      rewrite printed_app; reflexivity.
  - destruct p as [reason|code out err both]; simpl; [discriminate|].
    destruct (code =? 0); [reflexivity|discriminate].
  - destruct p as [reason|code out err both]; simpl; [discriminate|].
    destruct (code =? 0); [reflexivity|discriminate].
  - destruct p as [reason|code out err both]; simpl; [discriminate|].
    destruct (code =? 0); [reflexivity|discriminate].
  - destruct p as [reason|code out err both]; simpl; [discriminate|].
    destruct (code =? 0); [reflexivity|discriminate].
  - destruct p as [reason|code out err both]; simpl; [discriminate|].
    destruct (code =? 0); [reflexivity|discriminate].
  - destruct p as [reason|code out err both]; simpl; [discriminate|].
    destruct (code =? 0); [reflexivity|discriminate].
Qed.

(** ** The theorems at the sample vault *)

Lemma sample_fits : Z.of_nat (length Sample.items) <= GoInt.max_int.
Proof. vm_compute. discriminate. Defined.

(** Runs the schedule of a goal's [exec] and names the state it ends in. *)
Ltac run_to s E :=
  match goal with
  | |- context [exec ?items ?options ?sched ?s0] =>
      destruct (exec items options sched s0) as [s|] eqn:E;
      [ let E0 := fresh in
        pose proof E as E0; vm_compute in E0; injection E0 as E0; subst s
      | vm_compute in E; discriminate ]
  end.

Lemma processItems_completes_every_job_witness :
  Z.of_nat (length Sample.items) <= GoInt.max_int
  /\ 1 <= batchSize (Sample.options 2)
  /\ exists s,
       exec Sample.items (Sample.options 2) (Cases.run 2) (start Sample.items)
       = Some s
       /\ pc s = MReturn
       /\ every_job_once Sample.items (Sample.options 2) (stats s) (trace s)
       /\ completed (stats s) = 3.
Proof.
  assert (H2 : 1 <= batchSize (Sample.options 2)) by (vm_compute; discriminate).
  split; [exact sample_fits|]. split; [exact H2|].
  run_to s E. eexists. split; [reflexivity|]. split; [reflexivity|].
  destruct (processItems_completes_every_job
              Sample.items (Sample.options 2) sample_fits H2) as (H & _).
  destruct (H (Cases.run 2) _ E eq_refl) as (_ & Honce & _).
  split; [exact Honce|reflexivity].
Defined.


Lemma completed_monotone_bounded_complete_witness :
  Z.of_nat (length Sample.items) <= GoInt.max_int
  /\ 1 <= batchSize (Sample.options 2)
  /\ exists s,
       exec Sample.items (Sample.options 2) (Cases.run 2) (start Sample.items)
       = Some s
       /\ pc s = MReturn
       /\ range_over s
       /\ completed (stats s) = total (stats s)
       /\ Chan.closed (results s) = true
       /\ completed (stats s) = 3.
Proof.
  assert (H2 : 1 <= batchSize (Sample.options 2)) by (vm_compute; discriminate).
  split; [exact sample_fits|]. split; [exact H2|].
  run_to s E. eexists. split; [reflexivity|]. split; [reflexivity|].
  destruct (completed_monotone_bounded_complete
              Sample.items (Sample.options 2) (Cases.run 2) _ sample_fits E)
    as (_ & _ & H).
  destruct (H H2) as (Hiff & Hover & _).
  pose proof (Hover (or_intror eq_refl)) as Hr.
  destruct (proj1 Hiff Hr) as [Heq Hclosed].
  split; [exact Hr|]. split; [exact Heq|]. split; [exact Hclosed|].
  reflexivity.
Defined.

Lemma only_y_or_yes_confirms_witness :
  checkBitwardenCLI (Sample.env (inl Sample.items) "n") = None
  /\ fst (fetchBitwardenItems (Sample.env (inl Sample.items) "n")
            (searchTerm (parseCommandLineOptions (Sample.flags 1))))
     = inl Sample.items
  /\ Sample.items <> []
  /\ exists r,
       main (Sample.env (inl Sample.items) "n") (Sample.flags 1) [] = Finished (0, r)
       /\ deletions (events r) = [].
Proof.
  assert (H1 : checkBitwardenCLI (Sample.env (inl Sample.items) "n") = None)
    by reflexivity.
  assert (H2 : fst (fetchBitwardenItems (Sample.env (inl Sample.items) "n")
                      (searchTerm (parseCommandLineOptions (Sample.flags 1))))
               = inl Sample.items) by (vm_compute; reflexivity).
  assert (H3 : Sample.items <> []) by discriminate.
  split; [exact H1|]. split; [exact H2|]. split; [exact H3|].
  destruct (only_y_or_yes_confirms
              (Sample.env (inl Sample.items) "n") (Sample.flags 1) Sample.items
              H1 H2 H3) as (_ & _ & H).
  destruct (H ltac:(vm_compute; reflexivity) []) as (r & Hm & _ & _ & Hd & _).
  exists r. split; [exact Hm|exact Hd].
Defined.

Lemma malformed_listing_is_fatal_witness :
  checkBitwardenCLI (Sample.env (inr "unexpected end of JSON input"%string) "y") = None
  /\ GoExec.Output
       (sh_c (Sample.env (inr "unexpected end of JSON input"%string) "y")
          (listCmd (searchTerm (parseCommandLineOptions (Sample.flags 1)))))
     = (Sample.listing, None)
  /\ json_Unmarshal (Sample.env (inr "unexpected end of JSON input"%string) "y")
       Sample.listing
     = inr "unexpected end of JSON input"%string
  /\ exists r,
       main (Sample.env (inr "unexpected end of JSON input"%string) "y")
         (Sample.flags 1) [] = Finished (1, r)
       /\ deletions (events r) = [].
Proof.
  assert (H1 : checkBitwardenCLI
                 (Sample.env (inr "unexpected end of JSON input"%string) "y") = None)
    by reflexivity.
  assert (H2 : GoExec.Output
                 (sh_c (Sample.env (inr "unexpected end of JSON input"%string) "y")
                    (listCmd (searchTerm (parseCommandLineOptions (Sample.flags 1)))))
               = (Sample.listing, None)) by reflexivity.
  assert (H3 : json_Unmarshal
                 (Sample.env (inr "unexpected end of JSON input"%string) "y")
                 Sample.listing
               = inr "unexpected end of JSON input"%string)
    by (vm_compute; reflexivity).
  split; [exact H1|]. split; [exact H2|]. split; [exact H3|].
  destruct (malformed_listing_is_fatal
              (Sample.env (inr "unexpected end of JSON input"%string) "y")
              (Sample.flags 1) [] Sample.listing
              "unexpected end of JSON input" H1 H2 H3)
    as (_ & _ & r & Hm & _ & _ & _ & Hd & _).
  exists r. split; [exact Hm|exact Hd].
Defined.

Lemma empty_listing_skips_everything_witness :
  checkBitwardenCLI (Sample.env (inl []) "y") = None
  /\ fst (fetchBitwardenItems (Sample.env (inl []) "y")
            (searchTerm (parseCommandLineOptions (Sample.flags 1))))
     = inl []
  /\ exists r,
       main (Sample.env (inl []) "y") (Sample.flags 1) [] = Finished (0, r)
       /\ final_stats r = Some {| total := 0; completed := 0 |}.
Proof.
  assert (H1 : checkBitwardenCLI (Sample.env (inl []) "y") = None) by reflexivity.
  assert (H2 : fst (fetchBitwardenItems (Sample.env (inl []) "y")
                      (searchTerm (parseCommandLineOptions (Sample.flags 1))))
               = inl []) by (vm_compute; reflexivity).
  split; [exact H1|]. split; [exact H2|].
  destruct (empty_listing_skips_everything
              (Sample.env (inl []) "y") (Sample.flags 1) [] H1 H2)
    as (r & Hm & _ & Hs & _).
  exists r. split; [exact Hm|exact Hs].
Defined.


Lemma text_after_the_answer_declines_witness :
  stdin (Sample.env (inl Sample.items) "yes please")
  = [] ++ GoStrings.runes "yes" ++ GoStrings.runes " "
       ++ 112 :: GoStrings.runes "lease"
  /\ fst (confirmDeletion (Sample.env (inl Sample.items) "yes please")
            (stats_of Sample.items) (Sample.options 1)) = false.
Proof.
  assert (H : stdin (Sample.env (inl Sample.items) "yes please")
              = [] ++ GoStrings.runes "yes" ++ GoStrings.runes " "
                   ++ 112 :: GoStrings.runes "lease") by reflexivity.
  split; [exact H|].
  destruct (text_after_the_answer_declines
              (Sample.env (inl Sample.items) "yes please")
              (stats_of Sample.items) (Sample.options 1)
              [] (GoStrings.runes "yes") (GoStrings.runes " ") 112
              (GoStrings.runes "lease")) as [_ Hc].
  - constructor.
  - discriminate.
  - repeat constructor.
  - discriminate.
  - repeat constructor.
  - reflexivity.
  - exact H.
  - rewrite Hc. reflexivity.
Defined.

(** * Further properties *)

(** ** Progress lines *)

Lemma lines_after_app t t' : forall seen,
  lines_after seen (t ++ t')
  = lines_after seen t ++ lines_after (ends_observed seen t) t'.
Proof.
  induction t as [|e t IH]; intros seen; simpl; auto.
  destruct e; try apply IH.
  destruct seen; simpl; rewrite IH; reflexivity.
Qed.

Lemma ends_observed_app t t' : forall seen,
  ends_observed seen (t ++ t') = ends_observed (ends_observed seen t) t'.
Proof.
  induction t as [|e t IH]; intros seen; simpl; auto.
  destruct e; apply IH.
Qed.

Lemma counting_S k n :
  counting (S k) n = counting k n ++ [Msg.progress (Z.of_nat (S k)) (Z.of_nat n)].
Proof.
  unfold counting. rewrite seq_S, map_app. reflexivity.
Qed.

Lemma worker_ids_S k : worker_ids (S k) = worker_ids k ++ [Z.of_nat (S k)].
Proof.
  unfold worker_ids. rewrite seq_S, map_app. reflexivity.
Qed.

Lemma map_wid_update i w p ws :
  nth_error ws i = Some w ->
  map wid (update i {| wid := wid w; wpc := p |} ws) = map wid ws.
Proof.
  revert i. induction ws as [|x ws IH]; intros [|i]; simpl; try discriminate.
  - intros [= ->]. reflexivity.
  - intros H. rewrite (IH _ H). reflexivity.
Qed.

Lemma Order_init items options : Order items options (start items).
Proof.
  constructor; simpl; auto.
  intros _. repeat split; try discriminate; lia.
Qed.

Ltac order_trace Hflag :=
  unfold progress_lines in *;
  rewrite ?delivered_app, ?emitted_app, ?observed_app,
    ?lines_after_app, ?ends_observed_app, ?Hflag;
  simpl; rewrite ?app_nil_r.

Ltac ord_base :=
  try solve [ auto | discriminate | lia | reflexivity
            | intros; discriminate
            | intros ? [= <-]; auto; lia
            | intros; lia
            | rewrite <- ?app_assoc; simpl; auto
            | simpl in *; rewrite ?app_nil_r in *; solve [auto | congruence | lia] ].

Ltac ord_easy :=
  ord_base;
  try solve [ match goal with
              | H : ?P -> _ /\ _ /\ _ /\ _ |- ?P -> _ /\ _ /\ _ /\ _ =>
                  let X := fresh in
                  let A := fresh in
                  let B := fresh in
                  let C := fresh in
                  let D := fresh in
                  intros X; destruct (H X) as (A & B & C & D);
                  repeat split; ord_base
              end ].

Lemma main_step_Order items options s s' :
  Z.of_nat (length items) <= GoInt.max_int ->
  Inv items options s ->
  Order items options s ->
  main_step items options s = Some s' ->
  Order items options s'.
Proof.
  intros Hn HI [Hj Hr Hids Hln Hfl].
  unfold main_step. destruct (pc s) eqn:Hpc.
  - rewrite (inv_start HI Hpc). simpl.
    destruct (_ <? _); intros [= <-]; constructor; simpl; ord_easy.
    all: intros _; repeat split; ord_easy.
  - destruct (Z.leb_spec w (batchSize options)).
    + destruct (GoSync.Add (wg s) 1) as [v|]; intros [= <-];
        constructor; unfold_state; rewrite ?Hpc; ord_easy.
      intros Hmax. destruct (Hids Hmax) as (Hw & Hsp & Hbd & Hpl).
      specialize (Hsp _ eq_refl).
      rewrite map_app, length_app, Hw. simpl. repeat split.
      * rewrite Nat.add_1_r, worker_ids_S. f_equal. f_equal. lia.
      * intros w' [= <-].
        rewrite incr_no_overflow; [lia|].
        unfold GoInt.min_int, GoInt.max_int in *. lia.
      * lia.
      * discriminate.
    + intros [= <-]. constructor; unfold_state; ord_easy.
      intros Hmax. destruct (Hids Hmax) as (Hw & Hsp & Hbd & Hpl).
      specialize (Hsp _ eq_refl). repeat split; ord_easy.
  - destruct rest as [|item rest].
    + destruct (Chan.closed (jobs s)); intros [= <-];
        constructor; unfold_state; rewrite ?Hpc in *; ord_easy.
    + unfold Chan.send. destruct (Chan.closed (jobs s)).
      * intros [= <-]. constructor; unfold_state; rewrite ?Hpc in *; ord_easy.
      * destruct (_ <? _)%nat; [|discriminate].
        intros [= <-]. constructor; unfold_state; rewrite ?Hpc in *; ord_easy.
        simpl in Hj |- *. rewrite Hj, <- !app_assoc. reflexivity.
  - intros [= <-]. constructor; unfold_state; rewrite ?Hpc in *; ord_easy.
  - unfold Chan.recv. destruct (Chan.buf (results s)) as [|v rest] eqn:Hbuf.
    + destruct (Chan.closed (results s)); [|discriminate].
      intros [= <-]. constructor; unfold_state; rewrite ?Hpc, ?Hbuf in *;
        order_trace Hfl; ord_easy.
    + intros [= <-].
      assert (Hlen : (length (observed (trace s)) < length items)%nat).
      { pose proof (Permutation_length (inv_jobs HI)) as L1.
        pose proof (Permutation_length (inv_delivered HI)) as L2.
        pose proof (Permutation_length (inv_executed HI)) as L3.
        pose proof (Permutation_length (inv_emitted HI)) as L4.
        rewrite Hbuf in L4.
        rewrite ?length_app, ?length_map in *. simpl in L4. lia. }
      constructor; unfold_state; rewrite ?Hpc, ?Hbuf in *;
        order_trace Hfl; ord_easy.
      rewrite Hln, length_app. simpl.
      rewrite Nat.add_1_r, counting_S, (inv_completed HI), (inv_total HI).
      rewrite incr_no_overflow.
      * do 3 f_equal. lia.
      * unfold GoInt.min_int, GoInt.max_int in *. lia.
  - intros [= <-]. constructor; unfold_state; rewrite ?Hpc in *;
      order_trace Hfl; ord_easy.
  - discriminate.
Qed.

Lemma length_update (A : Type) (i : nat) (x : A) (l : list A) :
  length (update i x l) = length l.
Proof.
  revert i; induction l as [|y l IH]; intros [|i]; simpl; auto.
Qed.

Lemma closer_step_Order items options s s' :
  Order items options s ->
  closer_step s = Some s' ->
  Order items options s'.
Proof.
  intros [Hj Hr Hids Hln Hfl].
  unfold closer_step. destruct (closer s); try discriminate.
  - destruct (_ =? _); [|discriminate].
    intros [= <-]. constructor; unfold_state; ord_easy.
  - destruct (Chan.closed (results s)); intros [= <-];
      constructor; unfold_state; ord_easy.
Qed.

Lemma worker_step_Order items options i p s s' :
  Order items options s ->
  worker_step options i p s = Some s' ->
  Order items options s'.
Proof.
  intros [Hj Hr Hids Hln Hfl].
  unfold worker_step.
  destruct (nth_error (workers s) i) as [w|] eqn:Hnth; [|discriminate].
  assert (Hupd : forall q,
             map wid (update i {| wid := wid w; wpc := q |} (workers s))
             = map wid (workers s))
    by (intros q; apply (map_wid_update _ _ _ _ Hnth)).
  destruct (wpc w) eqn:Hwpc.
  - unfold Chan.recv. destruct (Chan.buf (jobs s)) as [|v rest] eqn:Hbuf.
    + destruct (Chan.closed (jobs s)); [|discriminate].
      destruct (GoSync.Add _ _); intros [= <-]; constructor; unfold_state;
        rewrite ?length_update, ?Hupd, ?Hbuf; ord_easy.
    + intros [= <-]. constructor; unfold_state;
        rewrite ?length_update, ?Hupd; order_trace Hfl; ord_easy.
  - destruct (GoExec.Run p); intros [= <-]; constructor; unfold_state;
      rewrite ?length_update, ?Hupd; order_trace Hfl; ord_easy.
  - unfold Chan.send. destruct (Chan.closed (results s)).
    + intros [= <-]. constructor; unfold_state; ord_easy.
    + destruct (_ <? _)%nat; [|discriminate].
      intros [= <-]. constructor; unfold_state;
        rewrite ?length_update, ?Hupd; order_trace Hfl; ord_easy.
      rewrite Hr, <- app_assoc. reflexivity.
  - discriminate.
Qed.

Lemma step_Order items options c s s' :
  Z.of_nat (length items) <= GoInt.max_int ->
  Inv items options s ->
  Order items options s ->
  step items options c s = Some s' ->
  Order items options s'.
Proof.
  intros Hn HI HO. unfold step. destruct (panicked s); [discriminate|].
  destruct c.
  - apply main_step_Order; auto.
  - apply closer_step_Order; auto.
  - apply worker_step_Order; auto.
Qed.

Lemma exec_Order items options sched :
  Z.of_nat (length items) <= GoInt.max_int ->
  forall s s',
    Inv items options s ->
    Order items options s ->
    exec items options sched s = Some s' ->
    Order items options s'.
Proof.
  intros Hn. induction sched as [|c sched IH]; simpl; intros s s' HI HO.
  - intros [= <-]. exact HO.
  - destruct (step items options c s) as [s1|] eqn:Hs; [|discriminate].
    apply IH.
    + eapply step_Inv; eauto.
    + eapply step_Order; eauto.
Qed.

Lemma reachable_Order items options sched s :
  Z.of_nat (length items) <= GoInt.max_int ->
  exec items options sched (start items) = Some s ->
  Order items options s.
Proof.
  intros Hn He. eapply exec_Order; eauto.
  - apply Inv_init.
  - apply Order_init.
Qed.

(** ** One worker at most *)

Lemma Solo_init items : Solo (start items).
Proof. constructor; reflexivity. Qed.

Lemma only_worker (ws : list worker) i w :
  (length ws <= 1)%nat -> nth_error ws i = Some w -> ws = [w] /\ i = 0%nat.
Proof.
  destruct ws as [|x [|y ws]]; simpl; intros Hl Hn.
  - destruct i; discriminate.
  - destruct i as [|[|i]]; simpl in Hn; try discriminate.
    injection Hn as ->. auto.
  - lia.
Qed.

Ltac solo_trace :=
  rewrite ?delivered_app, ?emitted_app, ?executed_app;
  unfold executed in *; simpl; rewrite ?nth3_delete_argv, ?app_nil_r.

Lemma step_Solo items options c s s' :
  batchSize options <= 1 ->
  Order items options s ->
  Solo s ->
  step items options c s = Some s' ->
  Solo s'.
Proof.
  intros Hb HO [Hx He].
  assert (Hmax : batchSize options < GoInt.max_int)
    by (unfold GoInt.max_int; lia).
  destruct (ord_pool_ids HO Hmax) as (_ & _ & Hlen & _).
  assert (Hone : (length (workers s) <= 1)%nat) by lia.
  unfold step. destruct (panicked s); [discriminate|].
  destruct c as [| |i p].
  - unfold main_step. destruct (pc s).
    + destruct (_ <? _); intros [= <-]; constructor; unfold_state; solo_trace; auto.
    + destruct (_ <=? _); [destruct (GoSync.Add _ _)|]; intros [= <-]; constructor; unfold_state; auto;
        rewrite flat_map_app; simpl; rewrite app_nil_r; auto.
    + destruct rest.
      * destruct (Chan.closed _); intros [= <-]; constructor; auto.
      * destruct (Chan.send _ _); intros [= <-]; constructor; auto.
    + intros [= <-]; constructor; auto.
    + destruct (Chan.recv _); intros [= <-]; constructor; unfold_state;
        solo_trace; auto.
    + intros [= <-]; constructor; unfold_state; solo_trace; auto.
    + discriminate.
  - unfold closer_step. destruct (closer s); try discriminate.
    + destruct (_ =? _); intros [= <-]; constructor; auto.
    + destruct (Chan.closed _); intros [= <-]; constructor; auto.
  - unfold worker_step.
    destruct (nth_error (workers s) i) as [w|] eqn:Hnth; [|discriminate].
    destruct (only_worker _ _ _ Hone Hnth) as [Hws ->].
    rewrite Hws in *. simpl in Hx, He. rewrite app_nil_r in Hx, He.
    unfold in_exec in Hx. unfold in_send in He.
    destruct (wpc w) eqn:Hw.
    + destruct (Chan.recv _); try discriminate.
      * intros [= <-]. constructor; unfold_state; rewrite Hws; solo_trace;
          unfold in_exec, in_send; simpl; rewrite ?Hw; simpl;
          rewrite ?app_nil_r in *; congruence.
      * destruct (GoSync.Add _ _); intros [= <-]; constructor; unfold_state;
          rewrite ?Hws; unfold in_exec, in_send; simpl; rewrite ?Hw; simpl;
          rewrite ?app_nil_r in *; congruence.
    + destruct (GoExec.Run p); intros [= <-]; constructor; unfold_state;
        rewrite Hws; solo_trace; unfold in_exec, in_send; simpl; rewrite ?Hw; simpl;
          rewrite ?app_nil_r in *; congruence.
    + destruct (Chan.send _ _); intros [= <-]; constructor; unfold_state;
        rewrite ?Hws; solo_trace; unfold in_exec, in_send; simpl; rewrite ?Hw; simpl;
          rewrite ?app_nil_r in *; congruence.
    + discriminate.
Qed.

Lemma exec_Solo items options sched :
  Z.of_nat (length items) <= GoInt.max_int ->
  batchSize options <= 1 ->
  forall s s',
    Inv items options s -> Order items options s -> Solo s ->
    exec items options sched s = Some s' ->
    Solo s'.
Proof.
  intros Hn Hb. induction sched as [|c sched IH]; simpl; intros s s' HI HO HS.
  - intros [= <-]. exact HS.
  - destruct (step items options c s) as [s1|] eqn:Hs; [|discriminate].
    apply IH.
    + eapply step_Inv; eauto.
    + eapply step_Order; eauto.
    + eapply step_Solo; eauto.
Qed.

Lemma prefix_firstn (A : Type) (l l' : list A) :
  firstn (length l) (l ++ l') = l.
Proof.
  induction l as [|x l IH]; simpl; auto. rewrite IH. reflexivity.
Qed.

(** ** Order of delivery and of observation *)

(** X9.  The two channels are queues: in every state a run can reach, the
    identifiers delivered to workers so far are the first ones of the
    listing in the order of the listing, followed by what waits in [jobs]
    and what is still to be sent; and the completion events observed so far
    are the first ones emitted, in the order of emission. *)
Theorem channels_keep_the_order :
  forall (items : list BitwardenItem) (options : CommandOptions) sched s,
    Z.of_nat (length items) <= GoInt.max_int ->
    exec items options sched (start items) = Some s ->
    map ID items
    = delivered (trace s) ++ Chan.buf (jobs s) ++ pending items (pc s)
    /\ delivered (trace s)
       = firstn (length (delivered (trace s))) (map ID items)
    /\ emitted (trace s) = observed (trace s) ++ Chan.buf (results s)
    /\ observed (trace s)
       = firstn (length (observed (trace s))) (emitted (trace s)).
Proof.
  intros items options sched s Hn He.
  pose proof (reachable_Order _ _ _ _ Hn He) as HO.
  pose proof (ord_jobs HO) as Hj. pose proof (ord_results HO) as Hr.
  repeat split; auto.
  - rewrite Hj at 1. symmetry. apply prefix_firstn.
  - rewrite Hr at 1. symmetry. apply prefix_firstn.
Qed.

(** X10.  With a batch size of one the delete commands are run in the order
    of the listing: at any time the commands run so far are the first ones
    of the listing, and when [processItems] returns the commands run and the
    events observed are the whole listing, in its order. *)
Theorem one_worker_deletes_in_listing_order :
  forall (items : list BitwardenItem) (options : CommandOptions) sched s,
    Z.of_nat (length items) <= GoInt.max_int ->
    batchSize options = 1 ->
    exec items options sched (start items) = Some s ->
    commands (trace s)
    = firstn (length (commands (trace s)))
        (delete_commands options (map ID items))
    /\ (pc s = MReturn ->
        commands (trace s) = delete_commands options (map ID items)
        /\ observed (trace s) = map ID items).
Proof.
  intros items options sched s Hn Hb He.
  pose proof (reachable_Inv _ _ _ _ Hn He) as HI.
  pose proof (reachable_Order _ _ _ _ Hn He) as HO.
  assert (HS : Solo s).
  { assert (Hb1 : batchSize options <= 1) by lia.
    exact (exec_Solo items options sched Hn Hb1 (start items) s
             (Inv_init items options) (Order_init items options)
             (Solo_init items) He). }
  pose proof (ord_jobs HO) as Hj. pose proof (ord_results HO) as Hr.
  pose proof (solo_exec HS) as Hx. pose proof (solo_send HS) as Hs.
  pose proof (commands_executed _ _ (inv_commands HI)) as Hc.
  split.
  - rewrite Hc at 2. rewrite Hc at 1. unfold delete_commands.
    rewrite length_map, firstn_map. f_equal.
    rewrite Hj, Hx, <- !app_assoc. symmetry. apply prefix_firstn.
  - intros Hpc.
    destruct (inv_drained HI (or_intror Hpc)) as [Hclosed Hbuf].
    destruct (closed_results_pool _ _ _ HI Hclosed) as [Hlive _].
    destruct (live_zero_holds_nothing _ Hlive) as [H1 H2].
    assert (Hover : spawning_over (pc s) = true) by (rewrite Hpc; reflexivity).
    pose proof (inv_pool HI Hover ltac:(lia)) as Hne.
    assert (Hfin : (0 < finished (workers s))%nat).
    { pose proof (live_finished (workers s)).
      destruct (workers s); [congruence|]. simpl in *. lia. }
    destruct (inv_finished HI Hfin) as [_ Hjobs].
    rewrite Hjobs, Hpc in Hj. simpl in Hj. rewrite app_nil_r in Hj.
    rewrite H1, app_nil_r in Hx. rewrite H2, app_nil_r in Hs.
    rewrite Hbuf, app_nil_r in Hr.
    split.
    + rewrite Hc. unfold delete_commands. congruence.
    + congruence.
Qed.

(** ** The pool *)

Lemma in_flight_le ws : (in_flight ws <= length ws)%nat.
Proof.
  unfold in_flight. induction ws as [|w ws IH]; simpl; auto.
  rewrite length_app. unfold in_exec at 1. destruct (wpc w); simpl; lia.
Qed.

(** X11.  Below the largest [int], the workers of the pool are numbered 1,
    2, ... in the order they were started; there are never more of them
    than the batch size (none when it is zero or negative), exactly that
    many once the spawn loop is over, and so never more delete commands
    running at once than the batch size. *)
Theorem pool_has_the_batch_size :
  forall (items : list BitwardenItem) (options : CommandOptions) sched s,
    Z.of_nat (length items) <= GoInt.max_int ->
    batchSize options < GoInt.max_int ->
    exec items options sched (start items) = Some s ->
    map wid (workers s) = worker_ids (length (workers s))
    /\ Z.of_nat (length (workers s)) <= Z.max 0 (batchSize options)
    /\ (spawning_over (pc s) = true ->
        Z.of_nat (length (workers s)) = Z.max 0 (batchSize options))
    /\ Z.of_nat (in_flight (workers s)) <= Z.max 0 (batchSize options).
Proof.
  intros items options sched s Hn Hmax He.
  pose proof (reachable_Order _ _ _ _ Hn He) as HO.
  destruct (ord_pool_ids HO Hmax) as (Hw & _ & Hb & Hp).
  repeat split; auto.
  pose proof (in_flight_le (workers s)). lia.
Qed.

(** ** The barrier *)

Lemma all_done ws : live ws = 0%nat -> Forall (fun w => wpc w = WDone) ws.
Proof.
  unfold live. induction ws as [|w ws IH]; simpl; auto.
  unfold is_done at 1. destruct (wpc w) eqn:Hw; simpl; try discriminate.
  intros H. constructor; auto.
Qed.

Lemma step_after_close items options c s s' :
  Inv items options s ->
  Chan.closed (results s) = true ->
  step items options c s = Some s' ->
  c = RunMain
  /\ Chan.closed (results s') = true
  /\ emitted (trace s') = emitted (trace s)
  /\ commands (trace s') = commands (trace s).
Proof.
  intros HI Hclosed.
  destruct (closed_results_pool _ _ _ HI Hclosed) as [Hlive Hstarted].
  pose proof (inv_results_closed HI) as Hrc. rewrite Hclosed in Hrc.
  unfold step. destruct (panicked s); [discriminate|].
  destruct c as [| |i p].
  - unfold main_step. destruct (pc s); try discriminate.
    + unfold Chan.recv. destruct (Chan.buf (results s)).
      * rewrite Hclosed. intros [= <-]. simpl.
        rewrite emitted_app, commands_app. simpl. rewrite !app_nil_r. auto.
      * intros [= <-]. simpl.
        rewrite emitted_app, commands_app. simpl. rewrite !app_nil_r. auto.
    + intros [= <-]. simpl.
      rewrite emitted_app, commands_app. simpl. rewrite !app_nil_r. auto.
  - unfold closer_step. destruct (closer s); discriminate.
  - unfold worker_step.
    destruct (nth_error (workers s) i) as [w|] eqn:Hnth; [|discriminate].
    rewrite (live_zero_done _ _ _ Hlive Hnth). discriminate.
Qed.

(** X12.  [results] is closed only behind the barrier: in every state a run
    can reach in which [results] is closed, every worker has returned,
    [jobs] is closed, no command is running, and from then on no completion
    event is emitted and no command is run. *)
Theorem results_closed_after_the_workers :
  forall (items : list BitwardenItem) (options : CommandOptions) sched s,
    Z.of_nat (length items) <= GoInt.max_int ->
    exec items options sched (start items) = Some s ->
    Chan.closed (results s) = true ->
    Forall (fun w => wpc w = WDone) (workers s)
    /\ Chan.closed (jobs s) = true
    /\ in_flight (workers s) = 0%nat
    /\ forall sched' s',
         exec items options sched' s = Some s' ->
         emitted (trace s') = emitted (trace s)
         /\ commands (trace s') = commands (trace s).
Proof.
  intros items options sched s Hn He Hclosed.
  pose proof (reachable_Inv _ _ _ _ Hn He) as HI.
  destruct (closed_results_pool _ _ _ HI Hclosed) as [Hlive Hstarted].
  repeat split.
  - apply all_done. exact Hlive.
  - rewrite (inv_jobs_closed HI). destruct (pc s); auto; discriminate.
  - unfold in_flight.
    destruct (live_zero_holds_nothing _ Hlive) as [-> _]. reflexivity.
  - revert s' H. clear He sched. revert s HI Hclosed Hlive Hstarted.
    induction sched' as [|c sched' IH]; simpl; intros s HI Hclosed _ _ s'.
    + intros [= <-]. reflexivity.
    + destruct (step items options c s) as [s1|] eqn:Hs; [|discriminate].
      destruct (step_after_close _ _ _ _ _ HI Hclosed Hs) as (_ & Hc1 & He1 & _).
      pose proof (step_Inv _ _ _ _ _ Hn HI Hs) as HI1.
      destruct (closed_results_pool _ _ _ HI1 Hc1) as [Hl1 Hs1].
      intros H. rewrite <- He1. eapply IH; eauto.
  - revert s' H. clear He sched. revert s HI Hclosed Hlive Hstarted.
    induction sched' as [|c sched' IH]; simpl; intros s HI Hclosed _ _ s'.
    + intros [= <-]. reflexivity.
    + destruct (step items options c s) as [s1|] eqn:Hs; [|discriminate].
      destruct (step_after_close _ _ _ _ _ HI Hclosed Hs) as (_ & Hc1 & _ & He1).
      pose proof (step_Inv _ _ _ _ _ Hn HI Hs) as HI1.
      destruct (closed_results_pool _ _ _ HI1 Hc1) as [Hl1 Hs1].
      intros H. rewrite <- He1. eapply IH; eauto.
Qed.

(** ** The progress line *)

(** X13.  The progress lines, the text printed right after each completion
    event is taken from [results], count up from one: when [completed] is k
    they are [1/T], [2/T], ..., [k/T] in this order, T the number of items;
    and when [processItems] returns from a pool of at least one worker they
    are [1/T] up to [T/T]. *)
Theorem progress_lines_count_up :
  forall (items : list BitwardenItem) (options : CommandOptions) sched s,
    Z.of_nat (length items) <= GoInt.max_int ->
    exec items options sched (start items) = Some s ->
    progress_lines (trace s)
    = counting (Z.to_nat (completed (stats s))) (length items)
    /\ (1 <= batchSize options -> pc s = MReturn ->
        progress_lines (trace s) = counting (length items) (length items)).
Proof.
  intros items options sched s Hn He.
  pose proof (reachable_Inv _ _ _ _ Hn He) as HI.
  pose proof (reachable_Order _ _ _ _ Hn He) as HO.
  assert (H : progress_lines (trace s)
              = counting (Z.to_nat (completed (stats s))) (length items)).
  { rewrite (ord_lines HO), (inv_completed HI), Nat2Z.id. reflexivity. }
  split; [exact H|].
  intros Hb Hpc. rewrite H.
  rewrite (all_counted (returned_every_job_once _ _ _ HI Hpc Hb)), Nat2Z.id.
  reflexivity.
Qed.

(** ** Where [processItems] waits *)

(** X14.  Loading the jobs never waits: [jobs] has room for every
    identifier, so each send of the loop over the items is taken at once,
    whether or not a worker has taken anything.  Before the consumer loop
    the goroutine of [processItems] can always take its next step, and
    outside the spawn loop that step never panics; in the spawn loop the
    same holds for a batch size the wait group can count. *)
Theorem loading_the_jobs_never_waits :
  forall (items : list BitwardenItem) (options : CommandOptions) sched s,
    Z.of_nat (length items) <= GoInt.max_int ->
    exec items options sched (start items) = Some s ->
    (forall item rest,
        pc s = MSend (item :: rest) ->
        Chan.send (jobs s) (ID item)
        = Chan.Sent (Chan.make (Chan.buf (jobs s) ++ [ID item])
                       (length items) false))
    /\ (pc s <> MRange -> pc s <> MReturn ->
        batchSize options <= GoSync.max_counter
        \/ (forall w, pc s <> MSpawn w) ->
        exists s', step items options RunMain s = Some s'
                   /\ panicked s' = false).
Proof.
  intros items options sched s Hn He.
  pose proof (reachable_Inv _ _ _ _ Hn He) as HI.
  assert (Hsend : forall item rest,
             pc s = MSend (item :: rest) ->
             Chan.send (jobs s) (ID item)
             = Chan.Sent (Chan.make (Chan.buf (jobs s) ++ [ID item])
                            (length items) false)).
  { intros item rest Hpc. unfold Chan.send.
    rewrite (inv_jobs_closed HI), Hpc. simpl.
    destruct (inv_caps HI ltac:(congruence)) as [-> _].
    pose proof (Permutation_length (inv_jobs HI)) as L. rewrite Hpc in L.
    simpl in L. rewrite ?length_app, ?length_map in L.
    destruct (Nat.ltb_spec (length (Chan.buf (jobs s))) (length items));
      [reflexivity|lia]. }
  split; [exact Hsend|].
  intros Hrange Hret Hsafe.
  assert (Hok : panicked s = false).
  { destruct Hsafe as [Hsmall|Hout].
    - apply (not_panicked _ _ _ HI Hsmall).
    - apply (not_panicked_at _ _ _ HI Hout). }
  unfold step. rewrite Hok. unfold main_step.
  destruct (pc s) eqn:Hpc; try congruence.
  - pose proof (inv_total HI) as Ht.
    destruct (Z.ltb_spec (total (stats s)) 0); [lia|].
    eexists. split; [reflexivity|]. exact Hok.
  - destruct Hsafe as [Hsmall|Hout]; [|elim (Hout w); reflexivity].
    pose proof (inv_spawning HI Hpc) as Hw.
    pose proof (inv_wg HI) as Hwg.
    destruct (Z.leb_spec w (batchSize options)).
    + rewrite (Add_one_small (wg s)) by lia.
      eexists. split; [reflexivity|]. exact Hok.
    + eexists. split; [reflexivity|]. exact Hok.
  - destruct rest as [|item rest].
    + rewrite (inv_jobs_closed HI), Hpc. simpl.
      eexists. split; [reflexivity|]. exact Hok.
    + rewrite (Hsend item rest eq_refl).
      eexists. split; [reflexivity|]. exact Hok.
  - eexists. split; [reflexivity|]. exact Hok.
  - eexists. split; [reflexivity|]. exact Hok.
Qed.

(** ** What is deleted *)

(** X15.  Only what was listed is deleted, and nothing twice: at any time
    of any run, for any batch size, the commands run so far are delete
    commands in the mode of the options, and together with the delete
    commands of some identifiers not yet attempted they make up the delete
    commands of the listing, one for each item. *)
Theorem only_listed_items_at_most_once :
  forall (items : list BitwardenItem) (options : CommandOptions) sched s,
    Z.of_nat (length items) <= GoInt.max_int ->
    exec items options sched (start items) = Some s ->
    exists rest,
      Permutation (delete_commands options (map ID items))
        (commands (trace s) ++ delete_commands options rest)
      /\ (length (commands (trace s)) <= length items)%nat.
Proof.
  intros items options sched s Hn He.
  pose proof (reachable_Inv _ _ _ _ Hn He) as HI.
  pose proof (commands_executed _ _ (inv_commands HI)) as Hc.
  assert (Hp : Permutation (map ID items)
                 (executed (trace s)
                  ++ (flat_map in_exec (workers s)
                      ++ pending items (pc s) ++ Chan.buf (jobs s)))).
  { rewrite (inv_jobs HI). rewrite (inv_delivered HI).
    apply occ_perm. intros a. rewrite !occ_app. lia. }
  exists (flat_map in_exec (workers s)
          ++ pending items (pc s) ++ Chan.buf (jobs s)).
  split.
  - rewrite Hc. unfold delete_commands. rewrite <- map_app.
    apply Permutation_map. exact Hp.
  - rewrite Hc, length_map.
    pose proof (Permutation_length Hp) as L.
    rewrite length_app, length_map in L. lia.
Qed.

(** ** Fatal errors and the exit status *)

(** X1.  When the client is not found in PATH the run stops at once: [main]
    exits with status 1 and the only thing the process did is print the
    fatal line; no mode line, no sync, no listing, no prompt, whatever the
    flags, the input and the schedule are. *)
Theorem missing_client_stops_at_once :
  forall (env : Env) (flags : Flags) (sched : list choice) (cause : string),
    lookPath_bw env = Some cause ->
    main env flags sched
    = Finished (1, {| returned := Some (CLINotFound cause);
                      final_stats := None;
                      events := [Print (Msg.fatal (CLINotFound cause))] |}).
Proof.
  intros env flags sched cause H.
  unfold main, runBulkDelete, checkBitwardenCLI. rewrite H. reflexivity.
Qed.

Lemma fetch_command_failed env term e :
  snd (GoExec.Output (sh_c env (listCmd term))) = Some e ->
  fst (fetchBitwardenItems env term) = inr (ListCommandFailed e).
Proof.
  intros H. unfold fetchBitwardenItems.
  destruct (GoExec.Output _) as [out err]. simpl in H. subst err. reflexivity.
Qed.

(** X2.  When the list command cannot start or exits with a status other
    than zero, [fetchBitwardenItems] returns the error of the command
    without looking at what it wrote, even if that is a listing the decoder
    accepts; the run ends with status 1 after the first sync and the list
    command, with no statistics, no prompt answered and no delete
    command. *)
Theorem failed_list_command_is_fatal :
  forall (env : Env) (flags : Flags) (sched : list choice)
         (e : GoExec.exec_error),
    let options := parseCommandLineOptions flags in
    checkBitwardenCLI env = None ->
    snd (GoExec.Output (sh_c env (listCmd (searchTerm options)))) = Some e ->
    fst (fetchBitwardenItems env (searchTerm options))
    = inr (ListCommandFailed e)
    /\ exists r,
         main env flags sched = Finished (1, r)
         /\ returned r = Some (ListCommandFailed e)
         /\ final_stats r = None
         /\ commands (events r)
            = [bw_sync_argv; list_argv (searchTerm options)]
         /\ deletions (events r) = []
         /\ exists t, events r = t ++ [Print (Msg.fatal (ListCommandFailed e))].
Proof.
  intros env flags sched e options Hc Ho.
  pose proof (fetch_command_failed env (searchTerm options) e Ho) as Hf.
  split; [exact Hf|].
  unfold main. fold options.
  rewrite (runBulkDelete_listing_failed env options sched _ Hc Hf).
  cbn [returned final_stats events]. eexists. split; [reflexivity|].
  cbn [returned final_stats events]. repeat split.
  - rewrite commands_app, commands_prelude. reflexivity.
  - rewrite deletions_app, deletions_prelude. reflexivity.
  - eexists. reflexivity.
Qed.

Lemma Finished_pair (A B : Type) (a a' : A) (b b' : B) :
  Finished (a, b) = Finished (a', b') -> a = a' /\ b = b'.
Proof. intros H. split; congruence. Qed.

Lemma processItems_no_error items options sched err st t :
  processItems items (stats_of items) options sched = Finished (err, st, t) ->
  err = None.
Proof.
  intros H. destruct (processItems_Finished _ _ _ _ H) as (s & _ & _ & E).
  congruence.
Qed.

Lemma runBulkDelete_listed env options sched items r :
  checkBitwardenCLI env = None ->
  fst (fetchBitwardenItems env (searchTerm options)) = inl items ->
  runBulkDelete env options sched = Finished r ->
  returned r = None.
Proof.
  intros Hc Hf.
  destruct items as [|item items].
  - rewrite (runBulkDelete_nothing_listed env options sched Hc Hf).
    intros [= <-]. reflexivity.
  - destruct (fst (confirmDeletion env (stats_of (item :: items)) options))
      eqn:Hyes.
    + rewrite (runBulkDelete_deleting env options sched (item :: items));
        [|repeat split; auto|discriminate].
      destruct (processItems _ _ _ _) as [[[err st] t]| |] eqn:Hp;
        try discriminate.
      rewrite (processItems_no_error _ _ _ _ _ _ Hp).
      intros [= <-]. reflexivity.
    + rewrite (runBulkDelete_declined env options sched (item :: items)
                 Hc Hf ltac:(discriminate) Hyes).
      intros [= <-]. reflexivity.
Qed.

(** X3.  The exit status tells the fatal errors and nothing else: a run of
    [main] that ends does so with status 1 exactly when the client is
    missing or the listing failed (the command or the decoding), and then
    nothing was deleted; in every other run that ends the status is 0,
    whether the syncs failed, the user declined, or delete commands
    failed. *)
Theorem exit_status_tells_fatal_errors :
  forall (env : Env) (flags : Flags) (sched : list choice)
         (code : Z) (r : run),
    let options := parseCommandLineOptions flags in
    main env flags sched = Finished (code, r) ->
    (code = 1 <-> fatal env options)
    /\ (code = 0 <-> ~ fatal env options)
    /\ (code = 1 -> final_stats r = None /\ deletions (events r) = [])
    /\ (code = 0 -> returned r = None).
Proof.
  intros env flags sched code r options. unfold main. fold options.
  destruct (checkBitwardenCLI env) as [err|] eqn:Hc.
  - rewrite (runBulkDelete_no_client env options sched err Hc).
    cbn [returned final_stats events]. intros E. apply Finished_pair in E. destruct E as [<- <-].
    assert (Hfatal : fatal env options) by (left; congruence).
    cbn [final_stats events].
    repeat split; auto; try discriminate; try tauto.
  - destruct (fst (fetchBitwardenItems env (searchTerm options)))
      as [items|err] eqn:Hf.
    + assert (Hnot : ~ fatal env options).
      { intros [H|(err & H)]; congruence. }
      destruct (runBulkDelete env options sched) as [r0| |] eqn:Hr;
        try discriminate.
      rewrite (runBulkDelete_listed env options sched items r0 Hc Hf Hr).
      intros E. apply Finished_pair in E. destruct E as [<- <-].
      pose proof (runBulkDelete_listed env options sched items r0 Hc Hf Hr).
      repeat split; auto; try discriminate; try tauto.
    + rewrite (runBulkDelete_listing_failed env options sched err Hc Hf).
      cbn [returned final_stats events]. intros E. apply Finished_pair in E. destruct E as [<- <-].
      assert (Hfatal : fatal env options) by (right; exists err; exact Hf).
      cbn [final_stats events].
      repeat split; auto; try discriminate; try tauto.
      rewrite deletions_app, deletions_prelude. reflexivity.
Qed.

(** ** The two syncs *)

Lemma commands_confirm env stats options :
  commands (snd (confirmDeletion env stats options)) = [].
Proof.
  unfold confirmDeletion. destruct (GoFmt.Scanln _); reflexivity.
Qed.

Lemma commands_warning (A : Type) (err : option A) text :
  commands (match err with Some _ => [Print text] | None => [] end) = [].
Proof. destruct err; reflexivity. Qed.

Lemma sync_failed_iff p context :
  fst (syncBitwarden p context) = snd (GoExec.CombinedOutput p).
Proof.
  unfold syncBitwarden. destruct (GoExec.CombinedOutput p) as [out [e|]];
    reflexivity.
Qed.

Lemma verdict_sync_before env options sched p :
  verdict (runBulkDelete (with_sync_before p env) options sched)
  = verdict (runBulkDelete env options sched).
Proof.
  unfold runBulkDelete, with_sync_before, checkBitwardenCLI, fetchBitwardenItems,
    confirmDeletion.
  cbn [lookPath_bw bw_sync_before bw_sync_after sh_c json_Unmarshal stdin
       unicode_tables].
  destruct (lookPath_bw env); [reflexivity|].
  pose proof (commands_sync p "before starting") as C1.
  pose proof (commands_sync (bw_sync_before env) "before starting") as C2.
  destruct (syncBitwarden p "before starting") as [e1 t1].
  destruct (syncBitwarden (bw_sync_before env) "before starting") as [e2 t2].
  cbn [snd] in C1, C2.
  destruct (GoExec.Output _) as [out [e|]].
  - cbn [verdict returned final_stats events].
    rewrite !commands_app, C1, C2, !commands_warning. reflexivity.
  - destruct (json_Unmarshal env out) as [items|e].
    + destruct (total _ >? 0).
      * destruct (GoFmt.Scanln (stdin env)) as [e|word].
        -- cbn [negb verdict returned final_stats events].
           rewrite !commands_app, C1, C2, !commands_warning. reflexivity.
        -- destruct (_ || _).
           ++ cbn [negb].
              destruct (processItems _ _ _ _) as [[[[err|] st] t]| |];
                try reflexivity.
              ** cbn [verdict returned final_stats events].
                 rewrite !commands_app, C1, C2, !commands_warning. reflexivity.
              ** destruct (syncBitwarden (bw_sync_after env) _) as [e3 t3].
                 cbn [verdict returned final_stats events].
                 rewrite !commands_app, C1, C2, !commands_warning. reflexivity.
           ++ cbn [negb verdict returned final_stats events].
              rewrite !commands_app, C1, C2, !commands_warning. reflexivity.
      * cbn [verdict returned final_stats events].
        rewrite !commands_app, C1, C2, !commands_warning. reflexivity.
    + cbn [verdict returned final_stats events].
      rewrite !commands_app, C1, C2, !commands_warning. reflexivity.
Qed.

Lemma prelude_warns env options :
  fst (syncBitwarden (bw_sync_before env) "before starting") <> None ->
  In (Print Msg.initial_sync_failed) (prelude env options).
Proof.
  intros H. unfold prelude. apply in_or_app. right. apply in_or_app. right.
  apply in_or_app. left.
  destruct (fst (syncBitwarden _ _)); [left; reflexivity|congruence].
Qed.

Lemma runBulkDelete_starts_with_prelude env options sched r :
  checkBitwardenCLI env = None ->
  runBulkDelete env options sched = Finished r ->
  exists t, events r = prelude env options ++ t.
Proof.
  intros Hc.
  destruct (fst (fetchBitwardenItems env (searchTerm options)))
    as [items|err] eqn:Hf.
  - destruct items as [|item items].
    + rewrite (runBulkDelete_nothing_listed env options sched Hc Hf).
      intros E. injection E as <-. eexists. reflexivity.
    + destruct (fst (confirmDeletion env (stats_of (item :: items)) options))
        eqn:Hyes.
      * rewrite (runBulkDelete_deleting env options sched (item :: items));
          [|repeat split; auto|discriminate].
        destruct (processItems _ _ _ _) as [[[[err|] st] t]| |];
          try discriminate; intros E; injection E as <-; eexists; reflexivity.
      * rewrite (runBulkDelete_declined env options sched (item :: items)
                   Hc Hf ltac:(discriminate) Hyes).
        intros E. injection E as <-. eexists. reflexivity.
  - rewrite (runBulkDelete_listing_failed env options sched err Hc Hf).
    intros E. injection E as <-. exists []. rewrite app_nil_r. reflexivity.
Qed.

(** X4.  The first sync decides nothing: whatever the first [bw sync] does
    (it may fail to start, or exit with any status and any output), the
    error returned by [runBulkDelete], the final statistics and the
    commands run are the same under every schedule; a failed first sync
    only adds the warning to what is printed. *)
Theorem first_sync_decides_nothing :
  forall (env : Env) (options : CommandOptions) (sched : list choice),
    (forall p,
        verdict (runBulkDelete (with_sync_before p env) options sched)
        = verdict (runBulkDelete env options sched))
    /\ (checkBitwardenCLI env = None ->
        snd (GoExec.CombinedOutput (bw_sync_before env)) <> None ->
        forall r,
          runBulkDelete env options sched = Finished r ->
          In (Print Msg.initial_sync_failed) (events r)).
Proof.
  intros env options sched. split.
  - intros p. apply verdict_sync_before.
  - intros Hc Hs r Hr.
    destruct (runBulkDelete_starts_with_prelude _ _ _ _ Hc Hr) as (t & ->).
    apply in_or_app. left. apply prelude_warns.
    rewrite sync_failed_iff. exact Hs.
Qed.

(** X5.  A confirmed run with a pool of at least one worker: whenever it
    ends, it ends with status 0 and [completed = total]; the subprocesses
    of the whole run are the first sync, the list command, one delete
    command for each listed item in some order, and the second sync, in
    this order; a failing second sync only adds a warning as the last thing
    printed.  With a batch size the wait group can count (up to 2^31 - 1)
    no run panics, and the run the scheduler of this file picks ends,
    whatever the delete commands return with, as long as each of them
    returns; with a larger batch size [wg.Add] panics in the spawn loop and
    no run ends. *)
Theorem confirmed_run_syncs_deletes_syncs :
  forall (env : Env) (flags : Flags) (items : list BitwardenItem),
    let options := parseCommandLineOptions flags in
    reaches_deletion env options items ->
    items <> [] ->
    Z.of_nat (length items) <= GoInt.max_int ->
    1 <= batchSize options ->
    (forall sched code r,
        main env flags sched = Finished (code, r) ->
        code = 0 /\ returned r = None
        /\ final_stats r
           = Some {| total := Z.of_nat (length items);
                     completed := Z.of_nat (length items) |}
        /\ (exists dels,
               commands (events r)
               = [bw_sync_argv; list_argv (searchTerm options)]
                 ++ dels ++ [bw_sync_argv]
               /\ Permutation dels (delete_commands options (map ID items)))
        /\ (snd (GoExec.CombinedOutput (bw_sync_after env)) <> None ->
            exists t, events r = t ++ [Print Msg.final_sync_failed]))
    /\ (batchSize options <= GoSync.max_counter ->
        (forall sched, main env flags sched <> Crashed)
        /\ forall agent, exists r,
             main env flags
               (schedule items options agent
                  (measure items options (start items)) (start items))
             = Finished (0, r))
    /\ (GoSync.max_counter < batchSize options ->
        forall sched code r, main env flags sched <> Finished (code, r)).
Proof.
  intros env flags items options Hreach Hne Hn Hb.
  split; [|split].
  - intros sched code r. unfold main. fold options.
    rewrite (runBulkDelete_deleting env options sched items Hreach Hne).
    destruct (processItems items (stats_of items) options sched)
      as [[[err st] t]| |] eqn:Hp; try discriminate.
    pose proof (processItems_no_error _ _ _ _ _ _ Hp) as ->.
    cbn [returned]. intros E. apply Finished_pair in E. destruct E as [<- <-].
    cbn [returned final_stats events].
    destruct (processItems_Finished _ _ _ _ Hp) as (s & He & Hpc & Eres).
    pose proof (reachable_Inv _ _ _ _ Hn He) as HI.
    pose proof (returned_every_job_once _ _ _ HI Hpc Hb) as Honce.
    assert (Est : st = stats s) by congruence.
    assert (Et : t = trace s) by congruence. subst st t.
    split; [reflexivity|]. split; [reflexivity|]. split; [|split].
    + f_equal. destruct (stats s) as [tot done] eqn:Es.
      pose proof (inv_total HI) as Ht. pose proof (all_counted Honce) as Hd.
      rewrite Es in Ht. simpl in Ht, Hd. congruence.
    + exists (commands (trace s)). split; [|exact (once_attempted Honce)].
      rewrite !commands_app, commands_prelude, commands_confirm, commands_sync,
        commands_warning. reflexivity.
    + intros Hs. rewrite <- sync_failed_iff with (context := EmptyString) in Hs.
      destruct (fst (syncBitwarden (bw_sync_after env) EmptyString));
        [|congruence].
      eexists. rewrite !app_assoc. reflexivity.
  - intros Hsmall. split.
    + intros sched. unfold main. fold options.
      rewrite (runBulkDelete_deleting env options sched items Hreach Hne).
      destruct (processItems items (stats_of items) options sched)
        as [[[err st] t]| |] eqn:Hp; try discriminate.
      * destruct err; cbn [returned]; discriminate.
      * exfalso. revert Hp. unfold processItems.
        destruct (exec _ _ _ _) as [s|] eqn:He; [|discriminate].
        rewrite (not_panicked _ _ _ (reachable_Inv _ _ _ _ Hn He) Hsmall).
        destruct (pc s); discriminate.
    + intros agent.
      destruct (run_exists items options agent Hn Hsmall) as (s & He & Hpc).
      pose proof (processItems_returned _ _ _ _ Hn He Hpc) as Hp.
      unfold main. fold options.
      rewrite (runBulkDelete_deleting env options _ items Hreach Hne).
      unfold start. rewrite Hp.
      cbn [returned]. eexists. reflexivity.
  - intros Hbig sched code r. unfold main. fold options.
    rewrite (runBulkDelete_deleting env options sched items Hreach Hne).
    destruct (processItems items (stats_of items) options sched)
      as [[[err st] t]| |] eqn:Hp; try discriminate.
    exfalso.
    destruct (processItems_Finished _ _ _ _ Hp) as (s & He & Hpc & _).
    destruct (spawn_loop_never_left _ _ _ _ Hn Hbig He) as [H|(w & H)];
      congruence.
Qed.

(** ** The line read by [confirmDeletion] *)

Lemma blank_space r : blank r = true -> GoFmt.isSpace r = true.
Proof. unfold blank. intros H. apply andb_prop in H. tauto. Qed.

Lemma expectNewline_end trail tail :
  Forall (fun r => blank r = true) trail ->
  line_end tail ->
  GoFmt.expectNewline (trail ++ tail) = None.
Proof.
  intros Hb Ht. induction Hb as [|b trail Hb _ IH]; simpl.
  - destruct Ht as [->|(rest & ->)]; simpl; auto.
  - unfold blank in Hb. apply andb_prop in Hb. destruct Hb as [Hs Hn].
    apply negb_true_iff in Hn. rewrite Hn, Hs. auto.
Qed.

Lemma after_word trail tail :
  Forall (fun r => blank r = true) trail ->
  line_end tail ->
  trail ++ tail = []
  \/ exists r rest, trail ++ tail = r :: rest /\ GoFmt.isSpace r = true.
Proof.
  intros Hb Ht. destruct Hb as [|b trail Hb _]; simpl.
  - destruct Ht as [->|(rest & ->)]; auto.
    right. exists GoFmt.newline, rest. split; reflexivity.
  - right. exists b, (trail ++ tail). split; auto. apply blank_space; auto.
Qed.

Lemma Scanln_line lead word trail tail :
  Forall (fun r => blank r = true) lead ->
  word <> [] ->
  Forall (fun r => GoFmt.isSpace r = false) word ->
  Forall (fun r => blank r = true) trail ->
  line_end tail ->
  GoFmt.Scanln (lead ++ word ++ trail ++ tail) = inr word.
Proof.
  intros Hl Hne Hw Hb Ht. unfold GoFmt.Scanln.
  rewrite SkipSpace_blanks by auto.
  destruct word as [|w word]; [congruence|].
  inversion Hw as [|? ? Hw1 Hw2]; subst.
  change ((w :: word) ++ trail ++ tail) with (w :: (word ++ trail ++ tail)).
  rewrite SkipSpace_word by auto.
  change (w :: word ++ trail ++ tail) with ((w :: word) ++ (trail ++ tail)).
  rewrite token_word; auto using after_word.
  rewrite expectNewline_end; auto.
Qed.

(** X6.  [confirmDeletion] reads one word of one line: with blanks before
    the word, blanks after it, and then the end of the line or of the
    input, the answer is decided by that word alone (yes when it lowers to
    "y" or "yes"), and nothing that follows the newline is looked at; so
    "  YES  " followed by any further lines confirms. *)
Theorem answer_is_the_word_of_the_first_line :
  forall (env : Env) (stats : DeleteStats) (options : CommandOptions)
         (lead word trail tail : list rune),
    Forall (fun r => blank r = true) lead ->
    word <> [] ->
    Forall (fun r => GoFmt.isSpace r = false) word ->
    Forall (fun r => blank r = true) trail ->
    line_end tail ->
    stdin env = lead ++ word ++ trail ++ tail ->
    GoFmt.Scanln (stdin env) = inr word
    /\ snd (confirmDeletion env stats options)
       = [Print (Msg.prompt (isPermanent options) (total stats))]
    /\ (fst (confirmDeletion env stats options) = true <->
        GoStrings.ToLower (unicode_tables env) word = GoStrings.runes "y"
        \/ GoStrings.ToLower (unicode_tables env) word = GoStrings.runes "yes")
    /\ (In word affirmative ->
        fst (confirmDeletion env stats options) = true).
Proof.
  intros env stats options lead word trail tail Hl Hne Hw Hb Ht Hin.
  assert (Hscan : GoFmt.Scanln (stdin env) = inr word).
  { rewrite Hin. apply Scanln_line; auto. }
  assert (Hiff : fst (confirmDeletion env stats options) = true <->
            GoStrings.ToLower (unicode_tables env) word = GoStrings.runes "y"
            \/ GoStrings.ToLower (unicode_tables env) word
               = GoStrings.runes "yes").
  { unfold confirmDeletion. rewrite Hscan. cbn [fst].
    rewrite orb_true_iff, !rune_eqb_eq. reflexivity. }
  split; [exact Hscan|]. split; [|split; [exact Hiff|]].
  - unfold confirmDeletion. rewrite Hscan. reflexivity.
  - intros Ha. apply Hiff. unfold affirmative in Ha. simpl in Ha.
    unfold GoStrings.ToLower.
    repeat (destruct Ha as [<-|Ha]; [vm_compute; auto|]). destruct Ha.
Qed.

(** X7.  An answer without a word is a read error and declines: a line
    that is empty or holds only blanks gives "unexpected newline", an input
    that ends before any word gives "EOF"; [confirmDeletion] prints the
    prompt and the error and answers no. *)
Theorem empty_answer_is_a_read_error :
  forall (env : Env) (stats : DeleteStats) (options : CommandOptions)
         (lead tail : list rune),
    Forall (fun r => blank r = true) lead ->
    line_end tail ->
    stdin env = lead ++ tail ->
    GoFmt.Scanln (stdin env) = inl (missing_word tail)
    /\ confirmDeletion env stats options
       = (false,
          [Print (Msg.prompt (isPermanent options) (total stats));
           Print (Msg.read_error (missing_word tail))]).
Proof.
  intros env stats options lead tail Hl Ht Hin.
  assert (Hscan : GoFmt.Scanln (stdin env) = inl (missing_word tail)).
  { rewrite Hin. unfold GoFmt.Scanln. rewrite SkipSpace_blanks by auto.
    destruct Ht as [->|(rest & ->)]; reflexivity. }
  split; [exact Hscan|].
  unfold confirmDeletion. rewrite Hscan. reflexivity.
Qed.

(** ** The arguments of the list command *)

(** X8.  What the shell makes of the list script: for a search term
    without a single quote the client is run with [list items] and, when
    the term is not empty, [--search] and the term as one argument, blanks
    and all; with an empty term no [--search] is passed at all. *)
Theorem search_term_is_one_argument :
  forall (term : string),
    has_quote term = false ->
    Shell.words (listCmd term)
    = Some (["bw"; "list"; "items"]%string ++ search_arguments term).
Proof.
  intros term Hq. unfold search_arguments, listCmd.
  destruct (String.eqb_spec term EmptyString) as [->|Hne]; [reflexivity|].
  unfold Shell.words. simpl. rewrite (words_quoted term EmptyString Hq).
  reflexivity.
Qed.

(** ** The end of [processItems] *)

Lemma step_to_show items options c s s' :
  Inv items options s ->
  step items options c s = Some s' ->
  pc s' = MShow ->
  pc s = MRange /\ trace s' = trace s ++ [Print Msg.nl].
Proof.
  intros HI Hs Hpc.
  destruct c as [| |i p].
  - revert Hs Hpc. unfold step. destruct (panicked s); [discriminate|].
    unfold main_step.
    destruct (pc s) eqn:Hp.
    + destruct (_ <? _); intros [= <-]; simpl; rewrite ?Hp; discriminate.
    + destruct (_ <=? _); [destruct (GoSync.Add _ _)|]; intros [= <-]; simpl;
        rewrite ?Hp; discriminate.
    + destruct rest;
        [destruct (Chan.closed _); intros [= <-]; simpl; try rewrite Hp;
         discriminate|].
      destruct (Chan.send _ _); intros [= <-]; simpl; try rewrite Hp;
        discriminate.
    + intros [= <-]; simpl; discriminate.
    + destruct (Chan.recv _); intros [= <-]; simpl; try rewrite Hp;
        try discriminate.
      auto.
    + intros [= <-]; simpl; discriminate.
    + discriminate.
  - (* at MShow nobody but [processItems] itself can move *)
    exfalso.
    pose proof (other_step_pc items options RunCloser s s' ltac:(discriminate) Hs) as Hp.
    rewrite Hpc in Hp. symmetry in Hp.
    destruct (inv_drained HI (or_introl Hp)) as [Hclosed _].
    destruct (step_after_close _ _ _ _ _ HI Hclosed Hs) as (E & _).
    discriminate.
  - exfalso.
    pose proof (other_step_pc items options (RunWorker i p) s s'
                  ltac:(discriminate) Hs) as Hp.
    rewrite Hpc in Hp. symmetry in Hp.
    destruct (inv_drained HI (or_introl Hp)) as [Hclosed _].
    destruct (step_after_close _ _ _ _ _ HI Hclosed Hs) as (E & _).
    discriminate.
Qed.

Lemma shown_after_newline items options sched s :
  Z.of_nat (length items) <= GoInt.max_int ->
  exec items options sched (start items) = Some s ->
  pc s = MShow ->
  exists t, trace s = t ++ [Print Msg.nl].
Proof.
  intros Hn. revert s. induction sched as [|c sched IH] using rev_ind; intros s.
  - simpl. intros E. injection E as <-. discriminate.
  - rewrite exec_app.
    destruct (exec items options sched (start items)) as [s0|] eqn:He;
      [|discriminate].
    simpl. destruct (step items options c s0) as [s1|] eqn:Hs; [|discriminate].
    intros E Hpc. injection E as <-.
    pose proof (reachable_Inv _ _ _ _ Hn He) as HI0.
    destruct (step_to_show _ _ _ _ _ HI0 Hs Hpc) as [_ Ht].
    exists (trace s0). exact Ht.
Qed.

(** X16.  [processItems] ends with the line feed of [processResults] and
    the completion message, and the message always says that all the items
    of the listing were deleted in the mode of the options: it is the same
    whatever the delete commands returned and however many were run. *)
Theorem completion_message_counts_the_listing :
  forall (items : list BitwardenItem) (options : CommandOptions) sched s,
    Z.of_nat (length items) <= GoInt.max_int ->
    exec items options sched (start items) = Some s ->
    pc s = MReturn ->
    exists t,
      trace s
      = t ++ [Print Msg.nl;
              Print (Msg.complete (isPermanent options)
                       (Z.of_nat (length items)))]
      /\ commands t = commands (trace s)
      /\ observed t = observed (trace s).
Proof.
  intros items options sched s Hn. revert s.
  induction sched as [|c sched _] using rev_ind; intros s.
  - simpl. intros E. injection E as <-. discriminate.
  - rewrite exec_app.
    destruct (exec items options sched (start items)) as [s0|] eqn:He;
      [|discriminate].
    simpl. destruct (step items options c s0) as [s1|] eqn:Hs; [|discriminate].
    intros E Hpc. injection E as <-.
    pose proof (reachable_Inv _ _ _ _ Hn He) as HI0.
    destruct (step_to_return _ _ _ _ _ Hs Hpc) as [Hret|[Hshow ->]].
    + pose proof (returned_stuck _ _ _ HI0 Hret c). congruence.
    + destruct (shown_after_newline _ _ _ _ Hn He Hshow) as (t & Ht).
      exists t. unfold showCompletionMessage. simpl.
      rewrite Ht, (inv_total HI0), <- app_assoc. simpl.
      split; [reflexivity|].
      rewrite !commands_app, !observed_app. simpl. rewrite !app_nil_r. auto.
Qed.

(** ** The further properties, on the sample runs *)

Lemma missing_client_stops_at_once_witness :
  lookPath_bw Cases.no_client = Some Cases.not_found
  /\ main Cases.no_client (Sample.flags 2) []
     = Finished (1, {| returned := Some (CLINotFound Cases.not_found);
                       final_stats := None;
                       events := [Print (Msg.fatal (CLINotFound Cases.not_found))] |}).
Proof.
  split; [reflexivity|].
  apply (missing_client_stops_at_once
           Cases.no_client (Sample.flags 2) [] Cases.not_found).
  reflexivity.
Defined.

Lemma failed_list_command_is_fatal_witness :
  checkBitwardenCLI Cases.list_fails = None
  /\ snd (GoExec.Output
            (sh_c Cases.list_fails
               (listCmd (searchTerm (parseCommandLineOptions (Sample.flags 2))))))
     = Some (GoExec.ExitError 1 "Vault is locked.")
  /\ exists r,
       main Cases.list_fails (Sample.flags 2) [] = Finished (1, r)
       /\ deletions (events r) = [].
Proof.
  assert (H1 : checkBitwardenCLI Cases.list_fails = None) by reflexivity.
  assert (H2 : snd (GoExec.Output
                      (sh_c Cases.list_fails
                         (listCmd (searchTerm
                                     (parseCommandLineOptions (Sample.flags 2))))))
               = Some (GoExec.ExitError 1 "Vault is locked.")) by reflexivity.
  split; [exact H1|]. split; [exact H2|].
  destruct (failed_list_command_is_fatal
              Cases.list_fails (Sample.flags 2) [] _ H1 H2)
    as (_ & r & Hm & _ & _ & _ & Hd & _).
  exists r. split; [exact Hm|exact Hd].
Defined.

Lemma exit_status_tells_fatal_errors_witness :
  main (Sample.env (inl Sample.items) "n") (Sample.flags 1) []
  = Finished (0, {| returned := None;
                    final_stats := Some (stats_of Sample.items);
                    events := prelude (Sample.env (inl Sample.items) "n")
                                (Sample.options 1)
                              ++ displayItemCount (stats_of Sample.items)
                              ++ snd (confirmDeletion
                                        (Sample.env (inl Sample.items) "n")
                                        (stats_of Sample.items)
                                        (Sample.options 1))
                              ++ [Print Msg.cancelled] |})
  /\ ~ fatal (Sample.env (inl Sample.items) "n")
         (parseCommandLineOptions (Sample.flags 1)).
Proof.
  assert (H : main (Sample.env (inl Sample.items) "n") (Sample.flags 1) []
              = Finished (0, {| returned := None;
                    final_stats := Some (stats_of Sample.items);
                    events := prelude (Sample.env (inl Sample.items) "n")
                                (Sample.options 1)
                              ++ displayItemCount (stats_of Sample.items)
                              ++ snd (confirmDeletion
                                        (Sample.env (inl Sample.items) "n")
                                        (stats_of Sample.items)
                                        (Sample.options 1))
                              ++ [Print Msg.cancelled] |}))
    by (vm_compute; reflexivity).
  split; [exact H|].
  destruct (exit_status_tells_fatal_errors _ _ _ _ _ H) as (_ & H0 & _).
  apply H0. reflexivity.
Defined.

Lemma first_sync_decides_nothing_witness :
  checkBitwardenCLI Cases.sync_fails = None
  /\ snd (GoExec.CombinedOutput (bw_sync_before Cases.sync_fails)) <> None
  /\ exists r,
       runBulkDelete Cases.sync_fails (Sample.options 1) [] = Finished r
       /\ In (Print Msg.initial_sync_failed) (events r).
Proof.
  assert (H1 : checkBitwardenCLI Cases.sync_fails = None) by reflexivity.
  assert (H2 : snd (GoExec.CombinedOutput (bw_sync_before Cases.sync_fails))
               <> None) by discriminate.
  split; [exact H1|]. split; [exact H2|].
  destruct (runBulkDelete Cases.sync_fails (Sample.options 1) [])
    as [r| |] eqn:E.
  - exists r. split; [reflexivity|].
    destruct (first_sync_decides_nothing
                Cases.sync_fails (Sample.options 1) []) as [_ H].
    exact (H H1 H2 r E).
  - vm_compute in E. discriminate.
  - vm_compute in E. discriminate.
Defined.

Lemma confirmed_run_syncs_deletes_syncs_witness :
  reaches_deletion (Sample.env (inl Sample.items) "yes")
    (parseCommandLineOptions (Sample.flags 2)) Sample.items
  /\ Sample.items <> []
  /\ Z.of_nat (length Sample.items) <= GoInt.max_int
  /\ 1 <= batchSize (parseCommandLineOptions (Sample.flags 2))
  /\ batchSize (parseCommandLineOptions (Sample.flags 2)) <= GoSync.max_counter
  /\ exists r,
       main (Sample.env (inl Sample.items) "yes") (Sample.flags 2) (Cases.run 2)
       = Finished (0, r)
       /\ final_stats r = Some {| total := 3; completed := 3 |}.
Proof.
  assert (H1 : reaches_deletion (Sample.env (inl Sample.items) "yes")
                 (parseCommandLineOptions (Sample.flags 2)) Sample.items)
    by (repeat split; vm_compute; reflexivity).
  assert (H2 : Sample.items <> []) by discriminate.
  assert (H4 : 1 <= batchSize (parseCommandLineOptions (Sample.flags 2)))
    by (vm_compute; discriminate).
  assert (H5 : batchSize (parseCommandLineOptions (Sample.flags 2))
               <= GoSync.max_counter) by (vm_compute; discriminate).
  split; [exact H1|]. split; [exact H2|]. split; [exact sample_fits|].
  split; [exact H4|]. split; [exact H5|].
  destruct (confirmed_run_syncs_deletes_syncs
              (Sample.env (inl Sample.items) "yes") (Sample.flags 2)
              Sample.items H1 H2 sample_fits H4) as (Hend & Hrun & _).
  destruct (Hrun H5) as [_ Hex].
  destruct (Hex Sample.agent) as (r & Hr).
  exists r. split; [exact Hr|].
  destruct (Hend _ _ _ Hr) as (_ & _ & Hst & _). exact Hst.
Defined.

Lemma answer_is_the_word_of_the_first_line_witness :
  stdin (Sample.env (inl Sample.items) Cases.answer)
  = GoStrings.runes "  " ++ GoStrings.runes "YES" ++ GoStrings.runes " "
      ++ GoFmt.newline :: GoStrings.runes "no"
  /\ fst (confirmDeletion (Sample.env (inl Sample.items) Cases.answer)
            (stats_of Sample.items) (Sample.options 1)) = true.
Proof.
  assert (H : stdin (Sample.env (inl Sample.items) Cases.answer)
              = GoStrings.runes "  " ++ GoStrings.runes "YES"
                  ++ GoStrings.runes " "
                  ++ GoFmt.newline :: GoStrings.runes "no") by reflexivity.
  split; [exact H|].
  destruct (answer_is_the_word_of_the_first_line
              (Sample.env (inl Sample.items) Cases.answer)
              (stats_of Sample.items) (Sample.options 1)
              (GoStrings.runes "  ") (GoStrings.runes "YES")
              (GoStrings.runes " ") (GoFmt.newline :: GoStrings.runes "no"))
    as (_ & _ & _ & Hyes).
  - repeat constructor.
  - discriminate.
  - repeat constructor.
  - repeat constructor.
  - right. exists (GoStrings.runes "no"). reflexivity.
  - exact H.
  - apply Hyes. unfold affirmative. simpl. tauto.
Defined.

Lemma empty_answer_is_a_read_error_witness :
  stdin (Sample.env (inl Sample.items) EmptyString) = [] ++ []
  /\ GoFmt.Scanln (stdin (Sample.env (inl Sample.items) EmptyString))
     = inl (missing_word []).
Proof.
  assert (H : stdin (Sample.env (inl Sample.items) EmptyString) = [] ++ [])
    by reflexivity.
  split; [exact H|].
  destruct (empty_answer_is_a_read_error
              (Sample.env (inl Sample.items) EmptyString)
              (stats_of Sample.items) (Sample.options 1) [] []) as [Hs _].
  - constructor.
  - left. reflexivity.
  - exact H.
  - exact Hs.
Defined.

Lemma search_term_is_one_argument_witness :
  has_quote "test login" = false
  /\ Shell.words (listCmd "test login")
     = Some ["bw"; "list"; "items"; "--search"; "test login"]%string.
Proof.
  split; [reflexivity|].
  apply (search_term_is_one_argument "test login"). reflexivity.
Defined.

Lemma channels_keep_the_order_witness :
  Z.of_nat (length Sample.items) <= GoInt.max_int
  /\ exists s,
       exec Sample.items (Sample.options 2) (Cases.run 2) (start Sample.items)
       = Some s
       /\ map ID Sample.items
          = delivered (trace s) ++ Chan.buf (jobs s)
            ++ pending Sample.items (pc s).
Proof.
  split; [exact sample_fits|].
  run_to s E. eexists. split; [reflexivity|].
  apply (channels_keep_the_order
           Sample.items (Sample.options 2) (Cases.run 2) _ sample_fits E).
Defined.

Lemma one_worker_deletes_in_listing_order_witness :
  Z.of_nat (length Sample.items) <= GoInt.max_int
  /\ batchSize (Sample.options 1) = 1
  /\ exists s,
       exec Sample.items (Sample.options 1) (Cases.run 1) (start Sample.items)
       = Some s
       /\ commands (trace s)
          = delete_commands (Sample.options 1) (map ID Sample.items).
Proof.
  split; [exact sample_fits|]. split; [reflexivity|].
  run_to s E. eexists. split; [reflexivity|].
  destruct (one_worker_deletes_in_listing_order
              Sample.items (Sample.options 1) (Cases.run 1) _
              sample_fits eq_refl E) as [_ H].
  apply H. reflexivity.
Defined.

Lemma pool_has_the_batch_size_witness :
  Z.of_nat (length Sample.items) <= GoInt.max_int
  /\ batchSize (Sample.options 2) < GoInt.max_int
  /\ exists s,
       exec Sample.items (Sample.options 2) (Cases.run 2) (start Sample.items)
       = Some s
       /\ map wid (workers s) = worker_ids (length (workers s)).
Proof.
  assert (H : batchSize (Sample.options 2) < GoInt.max_int)
    by (vm_compute; reflexivity).
  split; [exact sample_fits|]. split; [exact H|].
  run_to s E. eexists. split; [reflexivity|].
  apply (pool_has_the_batch_size
           Sample.items (Sample.options 2) (Cases.run 2) _ sample_fits H E).
Defined.

Lemma results_closed_after_the_workers_witness :
  Z.of_nat (length Sample.items) <= GoInt.max_int
  /\ exists s,
       exec Sample.items (Sample.options 2) (Cases.run 2) (start Sample.items)
       = Some s
       /\ Chan.closed (results s) = true
       /\ Forall (fun w => wpc w = WDone) (workers s).
Proof.
  split; [exact sample_fits|].
  run_to s E. eexists. split; [reflexivity|]. split; [reflexivity|].
  apply (results_closed_after_the_workers
           Sample.items (Sample.options 2) (Cases.run 2) _ sample_fits E).
  reflexivity.
Defined.

Lemma progress_lines_count_up_witness :
  Z.of_nat (length Sample.items) <= GoInt.max_int
  /\ exists s,
       exec Sample.items (Sample.options 2) (Cases.run 2) (start Sample.items)
       = Some s
       /\ progress_lines (trace s)
          = counting (Z.to_nat (completed (stats s))) (length Sample.items).
Proof.
  split; [exact sample_fits|].
  run_to s E. eexists. split; [reflexivity|].
  destruct (progress_lines_count_up
              Sample.items (Sample.options 2) (Cases.run 2) _ sample_fits E)
    as [H _].
  exact H.
Defined.

Lemma loading_the_jobs_never_waits_witness :
  Z.of_nat (length Sample.items) <= GoInt.max_int
  /\ batchSize (Sample.options 2) <= GoSync.max_counter
  /\ exists s,
       exec Sample.items (Sample.options 2) Cases.loading (start Sample.items)
       = Some s
       /\ pc s = MSend (skipn 1 Sample.items)
       /\ Chan.send (jobs s) "0b2"
          = Chan.Sent (Chan.make ["0a1"; "0b2"]%string 3 false)
       /\ exists s', step Sample.items (Sample.options 2) RunMain s = Some s'
                     /\ panicked s' = false.
Proof.
  assert (H2 : batchSize (Sample.options 2) <= GoSync.max_counter)
    by (vm_compute; discriminate).
  split; [exact sample_fits|]. split; [exact H2|].
  run_to s E. eexists. split; [reflexivity|]. split; [reflexivity|].
  destruct (loading_the_jobs_never_waits
              Sample.items (Sample.options 2) Cases.loading _ sample_fits E)
    as [Hsend Hstep].
  split.
  - exact (Hsend {| ID := "0b2"; Name := "test login" |}
             [{| ID := "0c3"; Name := "test card" |}] eq_refl).
  - apply Hstep; [discriminate|discriminate|left; exact H2].
Defined.

Lemma only_listed_items_at_most_once_witness :
  Z.of_nat (length Sample.items) <= GoInt.max_int
  /\ exists s,
       exec Sample.items (Sample.options 2) (Cases.run 2) (start Sample.items)
       = Some s
       /\ (length (commands (trace s)) <= length Sample.items)%nat.
Proof.
  split; [exact sample_fits|].
  run_to s E. eexists. split; [reflexivity|].
  destruct (only_listed_items_at_most_once
              Sample.items (Sample.options 2) (Cases.run 2) _ sample_fits E)
    as (rest & _ & H).
  exact H.
Defined.

Lemma completion_message_counts_the_listing_witness :
  Z.of_nat (length Sample.items) <= GoInt.max_int
  /\ exists s,
       exec Sample.items (Sample.options 2) (Cases.run 2) (start Sample.items)
       = Some s
       /\ pc s = MReturn
       /\ exists t,
            trace s
            = t ++ [Print Msg.nl;
                    Print (Msg.complete (isPermanent (Sample.options 2))
                             (Z.of_nat (length Sample.items)))].
Proof.
  split; [exact sample_fits|].
  run_to s E. eexists. split; [reflexivity|]. split; [reflexivity|].
  destruct (completion_message_counts_the_listing
              Sample.items (Sample.options 2) (Cases.run 2) _ sample_fits E
              eq_refl) as (t & H & _).
  exists t. exact H.
Defined.
